(** * Fleet routing engine: a shallow embedding and its verified properties

    The development follows the Python sources:
    - [traffic_manager.py]  the reservation ledger ([TrafficManager]),
    - [nav_graph.py]        the graph model and its breadth-first search,
    - [robot.py]            the per-robot state machine and kinematics,
    - [fleet_manager.py]    the orchestrator ([FleetManager]).

    Python [int] is [Z]; Python [float] is the kernel's binary64 [float];
    a [dict] used as a map is a [gmap]; the robot collection, whose
    iteration order matters, is an association list in insertion order.
    Exceptions are values of [exn], threaded through the [result] monad. *)

From Stdlib Require Import ZArith List Bool Lia.
From Stdlib Require Import Floats.
From stdpp Require Import base option list gmap.

Local Open Scope Z_scope.

(** ** Exceptions and the error monad *)

(** The Python exceptions the modelled code can raise.  [OutOfFuel] is not a
    Python exception: it is what the fuel-bounded loops of the model return
    when their fuel is exhausted, and it is proved unreachable on
    well-formed inputs. *)
Inductive exn : Type :=
| KeyError
| IndexError
| ZeroDivisionError
| OverflowError
| OutOfFuel.

Inductive result (A : Type) : Type :=
| Ok (a : A)
| Raise (e : exn).
Arguments Ok {A} a.
Arguments Raise {A} e.

Definition bind {A B : Type} (m : result A) (k : A -> result B) : result B :=
  match m with
  | Ok a => k a
  | Raise e => Raise e
  end.

Notation "'let!' p ':=' m 'in' k" := (bind m (fun p => k))
  (at level 10, p pattern, m at level 100, k at level 200).

(** ** Reservation ledger ([traffic_manager.py]) *)

Module Traffic.

Record TrafficManager : Type := mkTrafficManager {
  lane_occupancy : gmap (Z * Z) Z;
  vertex_occupancy : gmap Z Z
}.

(** [TrafficManager.__init__] *)
Definition init : TrafficManager :=
  {| lane_occupancy := ∅; vertex_occupancy := ∅ |}.

Definition _normalize_lane (from_vertex to_vertex : Z) : Z * Z :=
  (Z.min from_vertex to_vertex, Z.max from_vertex to_vertex).

Definition request_lane (tm : TrafficManager) (robot_id from_vertex to_vertex : Z)
  : bool * TrafficManager :=
  let lane := _normalize_lane from_vertex to_vertex in
  match lane_occupancy tm !! lane with
  | Some holder =>
      if negb (holder =? robot_id) then (false, tm)
      else (true, {| lane_occupancy := <[lane := robot_id]> (lane_occupancy tm);
                     vertex_occupancy := vertex_occupancy tm |})
  | None =>
      (true, {| lane_occupancy := <[lane := robot_id]> (lane_occupancy tm);
                vertex_occupancy := vertex_occupancy tm |})
  end.

Definition request_vertex (tm : TrafficManager) (robot_id vertex_id : Z)
  : bool * TrafficManager :=
  match vertex_occupancy tm !! vertex_id with
  | Some holder =>
      if negb (holder =? robot_id) then (false, tm)
      else (true, {| lane_occupancy := lane_occupancy tm;
                     vertex_occupancy := <[vertex_id := robot_id]> (vertex_occupancy tm) |})
  | None =>
      (true, {| lane_occupancy := lane_occupancy tm;
                vertex_occupancy := <[vertex_id := robot_id]> (vertex_occupancy tm) |})
  end.

Definition release_lane (tm : TrafficManager) (robot_id from_vertex to_vertex : Z)
  : TrafficManager :=
  let lane := _normalize_lane from_vertex to_vertex in
  match lane_occupancy tm !! lane with
  | Some holder =>
      if holder =? robot_id
      then {| lane_occupancy := delete lane (lane_occupancy tm);
              vertex_occupancy := vertex_occupancy tm |}
      else tm
  | None => tm
  end.

Definition release_vertex (tm : TrafficManager) (robot_id vertex_id : Z)
  : TrafficManager :=
  match vertex_occupancy tm !! vertex_id with
  | Some holder =>
      if holder =? robot_id
      then {| lane_occupancy := lane_occupancy tm;
              vertex_occupancy := delete vertex_id (vertex_occupancy tm) |}
      else tm
  | None => tm
  end.

(** [list(self.lane_occupancy.keys())]: the keys of the dict.  The callers
    use the list as a set (membership and drawing), so the order gmap
    enumerates its keys in stands for the dict's. *)
Definition get_occupied_lanes (tm : TrafficManager) : list (Z * Z) :=
  (map_to_list (lane_occupancy tm)).*1.

Definition get_occupied_vertices (tm : TrafficManager) : list Z :=
  (map_to_list (vertex_occupancy tm)).*1.

(** Who holds what. *)
Definition holds_vertex (tm : TrafficManager) (robot_id vertex_id : Z) : Prop :=
  vertex_occupancy tm !! vertex_id = Some robot_id.

Definition holds_lane (tm : TrafficManager) (robot_id from_vertex to_vertex : Z) : Prop :=
  lane_occupancy tm !! _normalize_lane from_vertex to_vertex = Some robot_id.

(** The calls a client can make on the ledger, and their effect on it. *)
Inductive call : Type :=
| RequestVertex (robot_id vertex_id : Z)
| RequestLane (robot_id from_vertex to_vertex : Z)
| ReleaseVertex (robot_id vertex_id : Z)
| ReleaseLane (robot_id from_vertex to_vertex : Z).

Definition perform (tm : TrafficManager) (c : call) : TrafficManager :=
  match c with
  | RequestVertex r v => snd (request_vertex tm r v)
  | RequestLane r f t => snd (request_lane tm r f t)
  | ReleaseVertex r v => release_vertex tm r v
  | ReleaseLane r f t => release_lane tm r f t
  end.

Definition run (calls : list call) : TrafficManager := fold_left perform calls init.

End Traffic.

(** ** Python helpers *)

(** [l[i]] on a Python list: a negative index counts from the end, and an
    index outside [-len, len) raises [IndexError]. *)
Definition py_index {A : Type} (l : list A) (i : Z) : result A :=
  let n := Z.of_nat (length l) in
  let j := if i <? 0 then i + n else i in
  if (0 <=? j) && (j <? n)
  then match l !! Z.to_nat j with
       | Some x => Ok x
       | None => Raise IndexError
       end
  else Raise IndexError.

(** [x ** 2] on a float: NaN and the infinities pass through, and a finite
    [x] whose square overflows raises [OverflowError] (the square itself is
    the correctly rounded product). *)
Definition py_square (x : float) : result float :=
  if PrimFloat.is_nan x then Ok x
  else if PrimFloat.is_infinity x then Ok (PrimFloat.abs x)
  else
    let r := (x * x)%float in
    if PrimFloat.is_infinity r then Raise OverflowError else Ok r.

(** [x / y] on floats: a zero divisor (of either sign) raises. *)
Definition py_div (x y : float) : result float :=
  if (y =? 0)%float then Raise ZeroDivisionError else Ok (x / y)%float.

(** [min(a, b)]: the first argument unless the second is strictly smaller. *)
Definition py_min (a b : float) : float :=
  if (b <? a)%float then b else a.

(** ** Graph model ([nav_graph.py]) *)

Module Nav.

(** A vertex is [[x, y, attributes]]; of the attribute bag the model keeps
    the charger flag.  A lane is [[from, to]] or [[from, to, properties]];
    of the property bag the model keeps the speed limit. *)
Record VertexAttrs : Type := mkVertexAttrs { attr_is_charger : option bool }.
Record LaneProps : Type := mkLaneProps { prop_speed_limit : option float }.

Definition Vertex : Type := float * float * VertexAttrs.
Definition Lane : Type := Z * Z * option LaneProps.

Record NavGraph : Type := mkNavGraph {
  vertices : list Vertex;
  lanes : list Lane;
  adjacency_list : gmap Z (list Z);
  lane_properties : gmap (Z * Z) LaneProps
}.

(** [{i: [] for i in range(len(self.vertices))}] *)
Definition empty_adjacency (n : nat) : gmap Z (list Z) :=
  list_to_map ((fun i : nat => (Z.of_nat i, @nil Z)) <$> seq 0 n).

(** [adj_list[k].append(v)] *)
Definition adj_append (adj : gmap Z (list Z)) (k v : Z) : result (gmap Z (list Z)) :=
  match adj !! k with
  | Some ns => Ok (<[k := ns ++ [v]]> adj)
  | None => Raise KeyError
  end.

Fixpoint add_lanes (ls : list Lane) (adj : gmap Z (list Z)) : result (gmap Z (list Z)) :=
  match ls with
  | [] => Ok adj
  | (a, b, _) :: ls' =>
      let! adj1 := adj_append adj a b in
      let! adj2 := adj_append adj1 b a in
      add_lanes ls' adj2
  end.

Definition _build_adjacency_list (vs : list Vertex) (ls : list Lane)
  : result (gmap Z (list Z)) :=
  add_lanes ls (empty_adjacency (length vs)).

Definition _extract_lane_properties (ls : list Lane) : gmap (Z * Z) LaneProps :=
  fold_left
    (fun properties (lane : Lane) =>
       let '(from_idx, to_idx, p) := lane in
       let props := match p with Some q => q | None => mkLaneProps None end in
       <[(to_idx, from_idx) := props]> (<[(from_idx, to_idx) := props]> properties))
    ls ∅.

(** [NavGraph.__init__], after the file has been read and parsed. *)
Definition init (vs : list Vertex) (ls : list Lane) : result NavGraph :=
  let! adj := _build_adjacency_list vs ls in
  Ok {| vertices := vs; lanes := ls;
        adjacency_list := adj;
        lane_properties := _extract_lane_properties ls |}.

Definition get_vertex_position (g : NavGraph) (vertex_id : Z) : result (float * float) :=
  let! v := py_index (vertices g) vertex_id in
  Ok (v.1.1, v.1.2).

Definition is_charger (g : NavGraph) (vertex_id : Z) : result bool :=
  let! v := py_index (vertices g) vertex_id in
  Ok (default false (attr_is_charger v.2)).

Definition get_lane_speed_limit (g : NavGraph) (from_vertex to_vertex : Z) : float :=
  match lane_properties g !! (from_vertex, to_vertex) with
  | Some props => default 0%float (prop_speed_limit props)
  | None => 0%float
  end.

(** The reconstruction loop of [find_shortest_path]:
    [while neighbor is not None: path.append(neighbor); neighbor = visited[neighbor]]. *)
Fixpoint backtrack (fuel : nat) (visited : gmap Z (option Z))
    (neighbor : option Z) (path : list Z) : result (list Z) :=
  match neighbor with
  | None => Ok path
  | Some n =>
      match fuel with
      | O => Raise OutOfFuel
      | S fuel' =>
          match visited !! n with
          | Some parent => backtrack fuel' visited parent (path ++ [n])
          | None => Raise KeyError
          end
      end
  end.

(** What one run of the [for neighbor in ...] loop leaves: either the
    function has returned from inside the loop, or the loop has ended with
    the updated [visited] and [queue]. *)
Inductive scan_outcome : Type :=
| Returned (r : result (option (list Z)))
| Scanned (visited : gmap Z (option Z)) (queue : list Z).

Fixpoint scan (occupied : gset Z) (end_ : option Z) (current : Z)
    (neighbors : list Z) (visited : gmap Z (option Z)) (queue : list Z)
  : scan_outcome :=
  match neighbors with
  | [] => Scanned visited queue
  | neighbor :: rest =>
      if bool_decide (neighbor ∈ occupied) || (neighbor =? current)
      then scan occupied end_ current rest visited queue
      else
        match visited !! neighbor with
        | None =>
            let visited' := <[neighbor := Some current]> visited in
            let queue' := queue ++ [neighbor] in
            if bool_decide (Some neighbor = end_)
            then Returned
                   (let! path := backtrack (size visited') visited' (Some neighbor) [] in
                    Ok (Some (rev path)))
            else scan occupied end_ current rest visited' queue'
        | Some _ => scan occupied end_ current rest visited queue
        end
  end.

(** The [while queue:] loop; one unit of fuel per vertex taken off the queue. *)
Fixpoint bfs (fuel : nat) (adj : gmap Z (list Z)) (occupied : gset Z)
    (end_ : option Z) (visited : gmap Z (option Z)) (queue : list Z)
  : result (option (list Z)) :=
  match queue with
  | [] => Ok None
  | current :: queue' =>
      match fuel with
      | O => Raise OutOfFuel
      | S fuel' =>
          match adj !! current with
          | None => Raise KeyError
          | Some neighbors =>
              match scan occupied end_ current neighbors visited queue' with
              | Returned r => r
              | Scanned visited' queue'' => bfs fuel' adj occupied end_ visited' queue''
              end
          end
      end
  end.

(** [find_shortest_path].  [end_] is an [option] because the orchestrator
    passes a robot's [destination_vertex], which is [None] until a task is
    assigned; [occupied_vertices] is the optional list argument. *)
Definition find_shortest_path (g : NavGraph) (start : Z) (end_ : option Z)
    (occupied_vertices : option (list Z)) : result (option (list Z)) :=
  if bool_decide (Some start = end_) then Ok (Some [start])
  else
    let visited : gmap Z (option Z) := {[ start := None ]} in
    let queue := [start] in
    let occupied : gset Z :=
      match occupied_vertices with
      | Some (x :: l) => list_to_set (x :: l)
      | _ => ∅
      end in
    bfs (S (size (adjacency_list g))) (adjacency_list g) occupied end_ visited queue.

End Nav.

(** ** Robot ([robot.py]) *)

Module Bot.

Inductive RobotStatus : Type :=
| IDLE
| MOVING
| WAITING
| CHARGING
| TASK_COMPLETE.

#[global] Instance RobotStatus_eq_dec : EqDecision RobotStatus.
Proof. solve_decision. Defined.

(** The fields of [Robot] that the engine reads and writes; the reference to
    the shared, read-only graph is passed to the methods that use it. *)
Record Robot : Type := mkRobot {
  id : Z;
  current_vertex : Z;
  previous_vertex : option Z;
  destination_vertex : option Z;
  path : list Z;
  status : RobotStatus;
  speed : float;
  progress : float
}.

(** [Robot.__init__] *)
Definition init (robot_id start_vertex : Z) : Robot :=
  {| id := robot_id;
     current_vertex := start_vertex;
     previous_vertex := None;
     destination_vertex := None;
     path := [];
     status := IDLE;
     speed := 1%float;
     progress := 0%float |}.

Definition set_status (r : Robot) (s : RobotStatus) : Robot :=
  {| id := id r; current_vertex := current_vertex r;
     previous_vertex := previous_vertex r;
     destination_vertex := destination_vertex r;
     path := path r; status := s; speed := speed r; progress := progress r |}.

Definition set_path (r : Robot) (p : list Z) : Robot :=
  {| id := id r; current_vertex := current_vertex r;
     previous_vertex := previous_vertex r;
     destination_vertex := destination_vertex r;
     path := p; status := status r; speed := speed r; progress := progress r |}.

Definition set_speed (r : Robot) (s : float) : Robot :=
  {| id := id r; current_vertex := current_vertex r;
     previous_vertex := previous_vertex r;
     destination_vertex := destination_vertex r;
     path := path r; status := status r; speed := s; progress := progress r |}.

Definition assign_task (r : Robot) (destination : Z) (p : list Z) : Robot :=
  {| id := id r; current_vertex := current_vertex r;
     previous_vertex := previous_vertex r;
     destination_vertex := Some destination;
     path := p; status := MOVING; speed := speed r; progress := 0%float |}.

Definition _distance_to_next (g : Nav.NavGraph) (r : Robot) : result float :=
  match path r with
  | [] => Ok 0%float
  | next :: _ =>
      let! start_pos := Nav.get_vertex_position g (current_vertex r) in
      let! end_pos := Nav.get_vertex_position g next in
      let! dx2 := py_square (end_pos.1 - start_pos.1)%float in
      let! dy2 := py_square (end_pos.2 - start_pos.2)%float in
      Ok (PrimFloat.sqrt (dx2 + dy2)%float)
  end.

(** The speed of this tick: the nominal speed, capped by the limit of the
    lane to [next_vertex] when the lane has one (0 means no limit). *)
Definition effective_speed (g : Nav.NavGraph) (r : Robot) (next_vertex : Z) : float :=
  let speed_limit := Nav.get_lane_speed_limit g (current_vertex r) next_vertex in
  if (speed_limit =? 0)%float then speed r else py_min (speed r) speed_limit.

Definition update_position (g : Nav.NavGraph) (r : Robot) (delta_time : float)
  : result (bool * Robot) :=
  if negb (bool_decide (status r = MOVING)) || bool_decide (path r = [])
  then Ok (false, r)
  else
    match path r with
    | [] => Raise IndexError
    | next_vertex :: _ =>
        let distance := (delta_time * effective_speed g r next_vertex)%float in
        let! d := _distance_to_next g r in
        let remaining_distance := ((1 - progress r) * d)%float in
        if (remaining_distance <=? distance)%float
        then
          Ok (true,
              {| id := id r; current_vertex := next_vertex;
                 previous_vertex := Some (current_vertex r);
                 destination_vertex := destination_vertex r;
                 path := path r; status := status r; speed := speed r;
                 progress := 0%float |})
        else
          let! d' := _distance_to_next g r in
          let! q := py_div distance d' in
          Ok (true,
              {| id := id r; current_vertex := current_vertex r;
                 previous_vertex := previous_vertex r;
                 destination_vertex := destination_vertex r;
                 path := path r; status := status r; speed := speed r;
                 progress := (progress r + q)%float |})
    end.

Definition charge (r : Robot) : Robot :=
  if bool_decide (status r = IDLE) then set_status r CHARGING else r.

Definition stop_charging (r : Robot) : Robot :=
  if bool_decide (status r = CHARGING) then set_status r IDLE else r.

End Bot.

(** ** Orchestrator ([fleet_manager.py]) *)

Module Fleet.

Import Traffic Bot.

(** [self.robots]: a dict from robot id to robot, iterated in insertion
    order.  Assigning to an existing key keeps its place; a new key goes to
    the end. *)
Fixpoint dict_get {A : Type} (d : list (Z * A)) (k : Z) : option A :=
  match d with
  | [] => None
  | (k', v) :: d' => if k' =? k then Some v else dict_get d' k
  end.

Fixpoint dict_set {A : Type} (d : list (Z * A)) (k : Z) (v : A) : list (Z * A) :=
  match d with
  | [] => [(k, v)]
  | (k', v') :: d' => if k' =? k then (k', v) :: d' else (k', v') :: dict_set d' k v
  end.

Record FleetManager : Type := mkFleetManager {
  nav_graph : Nav.NavGraph;
  robots : list (Z * Robot);
  next_robot_id : Z;
  traffic_manager : TrafficManager
}.

(** [FleetManager.__init__] *)
Definition init (g : Nav.NavGraph) : FleetManager :=
  {| nav_graph := g; robots := []; next_robot_id := 0;
     traffic_manager := Traffic.init |}.

Definition spawn_robot (fm : FleetManager) (vertex_id : Z)
  : option Robot * FleetManager :=
  if (vertex_id <? 0) || (vertex_id >=? Z.of_nat (length (Nav.vertices (nav_graph fm))))
  then (None, fm)
  else
    let '(granted, tm) :=
      request_vertex (traffic_manager fm) (next_robot_id fm) vertex_id in
    if negb granted
    then (None, {| nav_graph := nav_graph fm; robots := robots fm;
                   next_robot_id := next_robot_id fm; traffic_manager := tm |})
    else
      let robot := Bot.init (next_robot_id fm) vertex_id in
      (Some robot,
       {| nav_graph := nav_graph fm;
          robots := dict_set (robots fm) (next_robot_id fm) robot;
          next_robot_id := next_robot_id fm + 1;
          traffic_manager := tm |}).

Definition assign_task (fm : FleetManager) (robot_id destination_vertex : Z)
  : result (bool * FleetManager) :=
  match dict_get (robots fm) robot_id with
  | None => Ok (false, fm)
  | Some robot =>
      if bool_decide (status robot = CHARGING) then Ok (false, fm)
      else
        let occupied := get_occupied_vertices (traffic_manager fm) in
        let! found :=
          Nav.find_shortest_path (nav_graph fm) (current_vertex robot)
            (Some destination_vertex) (Some occupied) in
        match found with
        | None | Some [] => Ok (false, fm)
        | Some p =>
            let tm :=
              if (1 <? Z.of_nat (length p))
              then release_vertex (traffic_manager fm) (id robot) (current_vertex robot)
              else traffic_manager fm in
            Ok (true,
                {| nav_graph := nav_graph fm;
                   robots := dict_set (robots fm) robot_id
                               (Bot.assign_task robot destination_vertex p);
                   next_robot_id := next_robot_id fm;
                   traffic_manager := tm |})
        end
  end.

Definition _can_move_to (tm : TrafficManager) (robot : Robot) (next_vertex : Z)
  : bool * TrafficManager :=
  if next_vertex =? current_vertex robot then (true, tm)
  else
    let '(vertex_granted, tm1) := request_vertex tm (id robot) next_vertex in
    if negb vertex_granted then (false, tm1)
    else
      let '(lane_granted, tm2) :=
        request_lane tm1 (id robot) (current_vertex robot) next_vertex in
      if negb lane_granted then (false, tm2) else (true, tm2).

Definition _handle_vertex_reached (tm : TrafficManager) (robot : Robot) (next_vertex : Z)
  : result (Robot * TrafficManager) :=
  let tm1 :=
    match previous_vertex robot with
    | Some previous =>
        release_vertex
          (release_lane tm (id robot) previous (current_vertex robot))
          (id robot) previous
    | None => tm
    end in
  match path robot with
  | [] => Raise IndexError
  | _ :: rest =>
      let robot1 := set_path robot rest in
      if bool_decide (rest = [])
      then Ok (set_status robot1 TASK_COMPLETE,
               release_vertex tm1 (id robot1) (current_vertex robot1))
      else Ok (robot1, tm1)
  end.

Definition _process_movement (g : Nav.NavGraph) (tm : TrafficManager)
    (robot : Robot) (delta_time : float) : result (Robot * TrafficManager) :=
  match path robot with
  | [] => Raise IndexError
  | next_vertex :: _ =>
      let '(allowed, tm1) := _can_move_to tm robot next_vertex in
      if allowed
      then
        let! (_, robot1) := update_position g robot delta_time in
        if current_vertex robot1 =? next_vertex
        then _handle_vertex_reached tm1 robot1 next_vertex
        else Ok (robot1, tm1)
      else Ok (set_status robot WAITING, tm1)
  end.

Definition _check_waiting_robot (g : Nav.NavGraph) (tm : TrafficManager)
    (robot : Robot) : result Robot :=
  let occupied := get_occupied_vertices tm in
  let! found :=
    Nav.find_shortest_path g (current_vertex robot)
      (destination_vertex robot) (Some occupied) in
  match found with
  | None | Some [] => Ok robot
  | Some new_path => Ok (set_status (set_path robot new_path) MOVING)
  end.

(** The first loop of [update_robots], over the robots in insertion order;
    every robot is written back in its place, the ledger is threaded. *)
Fixpoint movement_pass (g : Nav.NavGraph) (delta_time : float)
    (rs : list (Z * Robot)) (tm : TrafficManager)
  : result (list (Z * Robot) * TrafficManager) :=
  match rs with
  | [] => Ok ([], tm)
  | (k, robot) :: rest =>
      let! (robot1, tm1) :=
        (if bool_decide (status robot = MOVING) && negb (bool_decide (path robot = []))
         then _process_movement g tm robot delta_time
         else Ok (robot, tm)) in
      let! (rest1, tm2) := movement_pass g delta_time rest tm1 in
      Ok ((k, robot1) :: rest1, tm2)
  end.

(** The second loop of [update_robots]. *)
Fixpoint recovery_pass (g : Nav.NavGraph) (tm : TrafficManager)
    (rs : list (Z * Robot)) : result (list (Z * Robot)) :=
  match rs with
  | [] => Ok []
  | (k, robot) :: rest =>
      let! robot1 :=
        (if bool_decide (status robot = WAITING) && negb (bool_decide (path robot = []))
         then _check_waiting_robot g tm robot
         else Ok robot) in
      let! rest1 := recovery_pass g tm rest in
      Ok ((k, robot1) :: rest1)
  end.

Definition update_robots (fm : FleetManager) (delta_time : float)
  : result FleetManager :=
  let! (rs1, tm1) :=
    movement_pass (nav_graph fm) delta_time (robots fm) (traffic_manager fm) in
  let! rs2 := recovery_pass (nav_graph fm) tm1 rs1 in
  Ok {| nav_graph := nav_graph fm; robots := rs2;
        next_robot_id := next_robot_id fm; traffic_manager := tm1 |}.

Definition get_robot_status (fm : FleetManager) (robot_id : Z) : option RobotStatus :=
  status <$> dict_get (robots fm) robot_id.

Definition get_blocked_lanes (fm : FleetManager) : list (Z * Z) :=
  get_occupied_lanes (traffic_manager fm).

Definition get_blocked_vertices (fm : FleetManager) : list Z :=
  get_occupied_vertices (traffic_manager fm).

End Fleet.

(** ** Walks and distances *)

Module Walks.

(** [walk E a b p]: [p] lists the vertices of a walk from [a] to [b] whose
    consecutive vertices are related by [E]; it has [length p - 1] edges. *)
Inductive walk (E : Z -> Z -> Prop) (a : Z) : Z -> list Z -> Prop :=
| walk_start : walk E a a [a]
| walk_step (b c : Z) (p : list Z) :
    walk E a b p -> E b c -> walk E a c (p ++ [c]).

(** [n] is the number of edges of a shortest walk from [a] to [b]. *)
Definition distance (E : Z -> Z -> Prop) (a b : Z) (n : nat) : Prop :=
  (∃ p, walk E a b p ∧ length p = S n) ∧
  (∀ p, walk E a b p -> S n ≤ length p)%nat.

(** The neighbours the adjacency index lists for a vertex. *)
Definition neighbour (adj : gmap Z (list Z)) (u v : Z) : Prop :=
  ∃ ns, adj !! u = Some ns ∧ v ∈ ns.

(** The moves the search makes: to a listed neighbour that is not occupied. *)
Definition free_step (adj : gmap Z (list Z)) (occupied : gset Z) (u v : Z) : Prop :=
  neighbour adj u v ∧ v ∉ occupied.

(** Two vertices joined by a lane of the graph, in either direction. *)
Definition lane_between (ls : list Nav.Lane) (u v : Z) : Prop :=
  ∃ p, (u, v, p) ∈ ls ∨ (v, u, p) ∈ ls.

(** Every listed neighbour is itself a key of the adjacency index. *)
Definition closed (adj : gmap Z (list Z)) : Prop :=
  ∀ u ns w, adj !! u = Some ns -> w ∈ ns -> is_Some (adj !! w).

(** The set the search builds from its [occupied_vertices] argument. *)
Definition occupied_set (occupied_vertices : option (list Z)) : gset Z :=
  match occupied_vertices with
  | Some l => list_to_set l
  | None => ∅
  end.

(** *** Invariants of the search

    [parents_ok]: the [visited] dict holds only keys of the adjacency
    index, and maps the start to [None] and every other
    discovered vertex to the vertex it was discovered from, which lies one
    level closer to the start. *)
Record parents_ok (adj : gmap Z (list Z)) (occupied : gset Z)
    (a : Z) (visited : gmap Z (option Z)) : Prop := {
  po_root : ∀ v, visited !! v = Some None -> v = a;
  po_par : ∀ v u, visited !! v = Some (Some u) ->
           is_Some (visited !! u) ∧ free_step adj occupied u v ∧
           ∃ n, distance (free_step adj occupied) a u n ∧
                distance (free_step adj occupied) a v (S n);
  po_start : visited !! a = Some None;
  po_dom : ∀ v, is_Some (visited !! v) -> is_Some (adj !! v)
}.

(** [scan_inv k u ns]: inside the [for] loop over the neighbours of [u], a
    vertex of level [k], with [ns] still to be looked at.  The queue holds
    vertices of level [k] followed by vertices of level [k + 1], and every
    discovered vertex that is neither queued nor [u] has all its free
    neighbours discovered. *)
Record scan_inv (adj : gmap Z (list Z)) (occupied : gset Z) (end_ : option Z)
    (a : Z) (k : nat) (u : Z) (ns : list Z)
    (visited : gmap Z (option Z)) (queue : list Z) : Prop := {
  si_par : parents_ok adj occupied a visited;
  si_end : ∀ x, end_ = Some x -> visited !! x = None;
  si_ns : Forall (neighbour adj u) ns;
  si_u : distance (free_step adj occupied) a u k ∧ is_Some (visited !! u);
  si_q : ∃ q1 q2, queue = q1 ++ q2 ∧
         Forall (fun v => distance (free_step adj occupied) a v k) q1 ∧
         Forall (fun v => distance (free_step adj occupied) a v (S k)) q2;
  si_qv : Forall (fun v => is_Some (visited !! v)) queue;
  si_done : ∀ v, is_Some (visited !! v) ->
            v ∈ queue ∨
            ∀ w, free_step adj occupied v w ->
                 is_Some (visited !! w) ∨ (v = u ∧ w ∈ ns)
}.

(** [loop_inv]: at the head of the [while] loop. *)
Record loop_inv (adj : gmap Z (list Z)) (occupied : gset Z) (end_ : option Z)
    (a : Z) (visited : gmap Z (option Z)) (queue : list Z) : Prop := {
  li_par : parents_ok adj occupied a visited;
  li_end : ∀ x, end_ = Some x -> visited !! x = None;
  li_q : ∃ k q1 q2, queue = q1 ++ q2 ∧
         Forall (fun v => distance (free_step adj occupied) a v k) q1 ∧
         Forall (fun v => distance (free_step adj occupied) a v (S k)) q2;
  li_qv : Forall (fun v => is_Some (visited !! v)) queue;
  li_done : ∀ v, is_Some (visited !! v) ->
            v ∈ queue ∨
            ∀ w, free_step adj occupied v w -> is_Some (visited !! w)
}.

(** The vertices not yet discovered plus those waiting in the queue: what
    bounds the number of iterations the [while] loop has left. *)
Definition pending (adj : gmap Z (list Z)) (visited : gmap Z (option Z))
    (queue : list Z) : nat :=
  (size (dom adj ∖ dom visited) + length queue)%nat.

End Walks.

(** ** Concrete scenarios *)

Module Scenario.

Definition from_ok {A : Type} (default : A) (r : result A) : A :=
  match r with
  | Ok a => a
  | Raise _ => default
  end.

Definition plain : Nav.VertexAttrs := Nav.mkVertexAttrs None.

(** Three vertices in a line at unit distance, lanes 0-1 and 1-2 with no
    speed limit. *)
Definition line_vertices : list Nav.Vertex :=
  [ (0%float, 0%float, plain); (1%float, 0%float, plain); (2%float, 0%float, plain) ].

Definition line_lanes : list Nav.Lane := [ (0, 1, None); (1, 2, None) ].

Definition line_graph : Nav.NavGraph :=
  from_ok (Nav.mkNavGraph [] [] ∅ ∅) (Nav.init line_vertices line_lanes).

(** A [FleetManager] call whose result is known to be [Ok]. *)
Definition spawn (fm : Fleet.FleetManager) (vertex_id : Z) : Fleet.FleetManager :=
  (Fleet.spawn_robot fm vertex_id).2.

Definition assign (fm : Fleet.FleetManager) (robot_id destination : Z)
  : Fleet.FleetManager :=
  from_ok fm (let! r := Fleet.assign_task fm robot_id destination in Ok r.2).

Definition tick (fm : Fleet.FleetManager) : Fleet.FleetManager :=
  from_ok fm (Fleet.update_robots fm 1%float).

(** Robot 0 spawned at vertex 0 of the line and sent to vertex 2. *)
Definition line_spawned : Fleet.FleetManager := spawn (Fleet.init line_graph) 0.
Definition line_assigned : Fleet.FleetManager := assign line_spawned 0 2.

Definition line_tick1 : Fleet.FleetManager := tick line_assigned.
Definition line_tick2 : Fleet.FleetManager := tick line_tick1.
Definition line_tick3 : Fleet.FleetManager := tick line_tick2.

(** Robot 0 on its last leg: at vertex 1, holding it, with vertex 2 left on
    its path. *)
Definition midway_robot : Bot.Robot :=
  {| Bot.id := 0; Bot.current_vertex := 1; Bot.previous_vertex := Some 0;
     Bot.destination_vertex := Some 2; Bot.path := [2]; Bot.status := Bot.MOVING;
     Bot.speed := 1%float; Bot.progress := 0%float |}.
Definition midway_ledger : Traffic.TrafficManager :=
  (Traffic.request_vertex Traffic.init 0 1).2.
Definition arrived : Bot.Robot * Traffic.TrafficManager :=
  from_ok (midway_robot, midway_ledger)
    (Fleet._process_movement line_graph midway_ledger midway_robot 1%float).

(** Robot 0 has driven from vertex 0 to vertex 1 and completed its task
    there; robot 1 is then spawned at vertex 1, and robot 0 is given vertex 1
    as its next destination. *)
Definition revisit_arrived : Fleet.FleetManager :=
  tick (tick (assign line_spawned 0 1)).
Definition revisit_assigned : Fleet.FleetManager :=
  assign (spawn revisit_arrived 1) 0 1.

Definition revisit_robot : Bot.Robot :=
  {| Bot.id := 0; Bot.current_vertex := 1; Bot.previous_vertex := Some 0;
     Bot.destination_vertex := Some 1; Bot.path := [1]; Bot.status := Bot.MOVING;
     Bot.speed := 1%float; Bot.progress := 0%float |}.
Definition revisit_done : Bot.Robot :=
  {| Bot.id := 0; Bot.current_vertex := 1; Bot.previous_vertex := Some 1;
     Bot.destination_vertex := Some 1; Bot.path := []; Bot.status := Bot.TASK_COMPLETE;
     Bot.speed := 1%float; Bot.progress := 0%float |}.

(** Robot 0 spawned at vertex 0 and put on charge. *)
Definition charging_fleet : Fleet.FleetManager :=
  {| Fleet.nav_graph := line_graph;
     Fleet.robots := [(0, Bot.charge (Bot.init 0 0))];
     Fleet.next_robot_id := 1;
     Fleet.traffic_manager := (Traffic.request_vertex Traffic.init 0 0).2 |}.

(** Robot 0 at vertex 0 heading for vertex 1, while robot 7 holds the lane
    between the two. *)
Definition blocked_robot : Bot.Robot := Bot.assign_task (Bot.init 0 0) 1 [1].
Definition blocked_ledger : Traffic.TrafficManager :=
  (Traffic.request_lane Traffic.init 7 1 0).2.

Definition blocked_fleet : Fleet.FleetManager :=
  {| Fleet.nav_graph := line_graph;
     Fleet.robots := [(0, blocked_robot)];
     Fleet.next_robot_id := 1;
     Fleet.traffic_manager := blocked_ledger |}.

Definition blocked_after_pass : list (Z * Bot.Robot) * Traffic.TrafficManager :=
  from_ok ([], blocked_ledger)
    (Fleet.movement_pass line_graph 1%float (Fleet.robots blocked_fleet)
       blocked_ledger).

(** Two vertices at the same coordinates joined by a lane whose configured
    speed limit is negative. *)
Definition knot_vertices : list Nav.Vertex :=
  [ (0%float, 0%float, plain); (0%float, 0%float, plain) ].
Definition knot_lanes : list Nav.Lane :=
  [ (0, 1, Some (Nav.mkLaneProps (Some (-1)%float))) ].
Definition knot_graph : Nav.NavGraph :=
  from_ok (Nav.mkNavGraph [] [] ∅ ∅) (Nav.init knot_vertices knot_lanes).
Definition knot_robot : Bot.Robot := Bot.assign_task (Bot.init 0 0) 1 [1].

(** The same two vertices joined by a lane without speed limit. *)
Definition twin_lanes : list Nav.Lane := [ (0, 1, None) ].
Definition twin_graph : Nav.NavGraph :=
  from_ok (Nav.mkNavGraph [] [] ∅ ∅) (Nav.init knot_vertices twin_lanes).

End Scenario.

(** ** Invariants of the orchestrator *)

Module FleetInv.

Import Traffic Bot Fleet.

(** Every robot of the collection has an id below the id counter. *)
Definition ids_below (fm : FleetManager) : Prop :=
  Forall (fun kr : Z * Robot => kr.1 < next_robot_id fm) (robots fm).

(** A robot stands on a vertex of the graph and its path visits vertices of
    the graph only. *)
Definition robot_ok (g : Nav.NavGraph) (r : Robot) : Prop :=
  is_Some (Nav.adjacency_list g !! current_vertex r) ∧
  Forall (fun v => is_Some (Nav.adjacency_list g !! v)) (path r).

Definition robots_ok (g : Nav.NavGraph) (rs : list (Z * Robot)) : Prop :=
  Forall (fun kr : Z * Robot => robot_ok g kr.2) rs.

(** What the recovery pass does to one robot, given the result of the
    search. *)
Definition recovered (r : Robot) (found : option (list Z)) : Robot :=
  match found with
  | None | Some [] => r
  | Some new_path => set_status (set_path r new_path) MOVING
  end.

End FleetInv.

(** ** Kinematics *)

Module Kinematics.

Import Bot.

(** A float that is neither NaN nor infinite and not below zero. *)
Definition nonneg_finite (x : float) : bool :=
  (0 <=? x)%float && PrimFloat.is_finite x.

(** Not below zero, on the specification of a binary64 number. *)
Definition sf_nonneg (f : spec_float) : Prop :=
  SFleb (S754_zero false) f = true.

(** The robot after the snap branch of [update_position]. *)
Definition snapped (r : Robot) (next_vertex : Z) : Robot :=
  {| id := id r; current_vertex := next_vertex;
     previous_vertex := Some (current_vertex r);
     destination_vertex := destination_vertex r;
     path := path r; status := status r; speed := speed r;
     progress := 0%float |}.

End Kinematics.

(** ** Clients of the ledger *)

Module TrafficInv.

Import Traffic.

(** The robot on whose behalf a call is made. *)
Definition caller (c : call) : Z :=
  match c with
  | RequestVertex r _ => r
  | RequestLane r _ _ => r
  | ReleaseVertex r _ => r
  | ReleaseLane r _ _ => r
  end.

(** A lane key in canonical form: the smaller endpoint first. *)
Definition canonical (lane : Z * Z) : Prop := lane.1 ≤ lane.2.

End TrafficInv.

(** ** The adjacency index, read off the lanes *)

Module NavSpec.

Import Nav.

(** What one lane contributes to the neighbour list of [u]: the construction
    appends the second endpoint to the list of the first, then the first to
    the list of the second. *)
Definition lane_partners (u : Z) (lane : Lane) : list Z :=
  let '(a, b, _) := lane in
  (if bool_decide (a = u) then [b] else []) ++
  (if bool_decide (b = u) then [a] else []).

(** The neighbour list of [u], in the order of the lanes. *)
Definition partners (ls : list Lane) (u : Z) : list Z :=
  flat_map (lane_partners u) ls.

(** Both endpoints of the lane are indices of a vertex array of length [n]. *)
Definition lane_in_range (n : nat) (lane : Lane) : bool :=
  let '(a, b, _) := lane in
  (0 <=? a) && (a <? Z.of_nat n) && (0 <=? b) && (b <? Z.of_nat n).

(** The lane joins [u] and [v], in either direction. *)
Definition joins (u v : Z) (lane : Lane) : bool :=
  let '(a, b, _) := lane in
  ((a =? u) && (b =? v)) || ((a =? v) && (b =? u)).

(** The speed limit a lane carries: 0 when it has no property bag or the bag
    has no limit. *)
Definition lane_limit (lane : Lane) : float :=
  match lane.2 with
  | Some props => default 0%float (prop_speed_limit props)
  | None => 0%float
  end.

(** [chain E u p]: from [u] on, every vertex of [p] is an [E]-step away
    from the one before it. *)
Fixpoint chain (E : Z -> Z -> Prop) (u : Z) (p : list Z) : Prop :=
  match p with
  | [] => True
  | v :: p' => E u v ∧ chain E v p'
  end.

(** The moves open to a search with the given occupied vertices: along a
    lane, in either direction, to a vertex that is not occupied. *)
Definition open_step (ls : list Lane) (occupied : list Z) (u v : Z) : Prop :=
  Walks.lane_between ls u v ∧ v ∉ occupied.

End NavSpec.

(** ** What a robot shows ([robot.py]) *)

From Stdlib Require String.

Module RobotView.

Import Bot.
Import String.StringSyntax.
Local Open Scope string_scope.

Definition colors : list String.string :=
  [ "#FF0000"; "#0000FF"; "#00FF00"; "#FFA500"; "#800080";
    "#00FFFF"; "#FF00FF"; "#A52A2A"; "#008000"; "#000080" ].

(** [colors[robot_id % len(colors)]]: with a positive divisor Python's [%]
    is the remainder of the floored division, as [Z.modulo] is. *)
Definition _generate_color (robot_id : Z) : result String.string :=
  py_index colors (robot_id `mod` Z.of_nat (length colors)).

(** [Robot.get_position]: the vertex the robot stands on when it has no
    path or has completed its task, else the point at [progress] between
    that vertex and the head of the path. *)
Definition get_position (g : Nav.NavGraph) (r : Robot) : result (float * float) :=
  if bool_decide (path r = []) || bool_decide (status r = TASK_COMPLETE)
  then Nav.get_vertex_position g (current_vertex r)
  else
    match path r with
    | [] => Raise IndexError
    | next :: _ =>
        let! start_pos := Nav.get_vertex_position g (current_vertex r) in
        let! end_pos := Nav.get_vertex_position g next in
        let x := (start_pos.1 + (end_pos.1 - start_pos.1) * progress r)%float in
        let y := (start_pos.2 + (end_pos.2 - start_pos.2) * progress r)%float in
        Ok (x, y)
    end.

End RobotView.

(** ** The accessors of the orchestrator ([fleet_manager.py]) *)

Module FleetView.

Import Bot Fleet.

(** [get_robot_position]: [None] for an unknown id. *)
Definition get_robot_position (fm : FleetManager) (robot_id : Z)
  : result (option (float * float)) :=
  match dict_get (robots fm) robot_id with
  | None => Ok None
  | Some robot =>
      let! pos := RobotView.get_position (nav_graph fm) robot in
      Ok (Some pos)
  end.

(** [get_robot_color]: the colour is computed from the id when the robot is
    created and neither is assigned again, so it is the colour of the id. *)
Definition get_robot_color (fm : FleetManager) (robot_id : Z)
  : result (option String.string) :=
  match dict_get (robots fm) robot_id with
  | None => Ok None
  | Some robot =>
      let! color := RobotView._generate_color (id robot) in
      Ok (Some color)
  end.

End FleetView.

(** ** The control panel ([fleet_gui.py])

    Of [FleetGUI] the model keeps what its button handlers read and write in
    the engine: the orchestrator and the two selections.  Drawing, message
    boxes and the console are left out. *)

Module Gui.

Import Traffic Bot Fleet.

Record FleetGUI : Type := mkFleetGUI {
  fleet_manager : FleetManager;
  selected_robot : option Z;
  selected_vertex : option Z
}.

Definition with_fleet (gui : FleetGUI) (fm : FleetManager) : FleetGUI :=
  {| fleet_manager := fm;
     selected_robot := selected_robot gui;
     selected_vertex := selected_vertex gui |}.

Definition with_robots (fm : FleetManager) (rs : list (Z * Robot)) : FleetManager :=
  {| nav_graph := nav_graph fm; robots := rs;
     next_robot_id := next_robot_id fm; traffic_manager := traffic_manager fm |}.

(** [del d[k]] *)
Fixpoint dict_del {A : Type} (d : list (Z * A)) (k : Z) : list (Z * A) :=
  match d with
  | [] => []
  | (k', v) :: d' => if k' =? k then d' else (k', v) :: dict_del d' k
  end.

(** [FleetGUI.__init__], once the graph has been built from its file. *)
Definition init (g : Nav.NavGraph) : FleetGUI :=
  {| fleet_manager := Fleet.init g; selected_robot := None; selected_vertex := None |}.

Definition spawn_robot (gui : FleetGUI) : FleetGUI :=
  match selected_vertex gui with
  | None => gui
  | Some vertex => with_fleet gui (Fleet.spawn_robot (fleet_manager gui) vertex).2
  end.

Definition assign_task (gui : FleetGUI) : result FleetGUI :=
  match selected_robot gui with
  | None => Ok gui
  | Some robot_id =>
      match selected_vertex gui with
      | None => Ok gui
      | Some vertex =>
          let! (_, fm) := Fleet.assign_task (fleet_manager gui) robot_id vertex in
          Ok (with_fleet gui fm)
      end
  end.

Definition charge_robot (gui : FleetGUI) : result FleetGUI :=
  match selected_robot gui with
  | None => Ok gui
  | Some robot_id =>
      let fm := fleet_manager gui in
      match dict_get (robots fm) robot_id with
      | None => Raise KeyError
      | Some robot =>
          if bool_decide (status robot = CHARGING)
          then Ok (with_fleet gui
                     (with_robots fm (dict_set (robots fm) robot_id (stop_charging robot))))
          else
            let! charger := Nav.is_charger (nav_graph fm) (current_vertex robot) in
            if charger
            then Ok (with_fleet gui
                       (with_robots fm (dict_set (robots fm) robot_id (charge robot))))
            else Ok gui
      end
  end.

Definition pause_all_robots (gui : FleetGUI) : FleetGUI :=
  let fm := fleet_manager gui in
  with_fleet gui
    (with_robots fm
       (map (fun kr : Z * Robot =>
               (kr.1, if bool_decide (status kr.2 = MOVING)
                      then set_status kr.2 WAITING else kr.2))
            (robots fm))).

Definition resume_all_robots (gui : FleetGUI) : FleetGUI :=
  let fm := fleet_manager gui in
  with_fleet gui
    (with_robots fm
       (map (fun kr : Z * Robot =>
               (kr.1, if bool_decide (status kr.2 = WAITING)
                      then set_status kr.2 MOVING else kr.2))
            (robots fm))).

Definition remove_robot (gui : FleetGUI) : FleetGUI :=
  match selected_robot gui with
  | None => gui
  | Some robot_id =>
      let fm := fleet_manager gui in
      match dict_get (robots fm) robot_id with
      | None => gui
      | Some _ =>
          {| fleet_manager := with_robots fm (dict_del (robots fm) robot_id);
             selected_robot := None;
             selected_vertex := selected_vertex gui |}
      end
  end.

(** [update_simulation_speed], with the slider value already a float. *)
Definition update_simulation_speed (gui : FleetGUI) (speed : float) : FleetGUI :=
  let fm := fleet_manager gui in
  with_fleet gui
    (with_robots fm (map (fun kr : Z * Robot => (kr.1, set_speed kr.2 speed)) (robots fm))).

(** What the user and the timer do to the panel.  A click changes the
    selections; which robot or vertex it hits depends on the canvas
    geometry, so the event carries the selections the click leaves.
    [Update] is a tick of the timer that returns without an exception. *)
Inductive event : Type :=
| Click (robot vertex : option Z)
| SpawnRobot
| AssignTask
| ChargeRobot
| PauseAll
| ResumeAll
| RemoveRobot
| SetSpeed (speed : float)
| Update (delta_time : float).

Definition handle (gui : FleetGUI) (e : event) : result FleetGUI :=
  match e with
  | Click robot vertex =>
      Ok {| fleet_manager := fleet_manager gui;
            selected_robot := robot; selected_vertex := vertex |}
  | SpawnRobot => Ok (spawn_robot gui)
  | AssignTask => assign_task gui
  | ChargeRobot => charge_robot gui
  | PauseAll => Ok (pause_all_robots gui)
  | ResumeAll => Ok (resume_all_robots gui)
  | RemoveRobot => Ok (remove_robot gui)
  | SetSpeed speed => Ok (update_simulation_speed gui speed)
  | Update delta_time =>
      let! fm := update_robots (fleet_manager gui) delta_time in
      Ok (with_fleet gui fm)
  end.

Fixpoint run (gui : FleetGUI) (events : list event) : result FleetGUI :=
  match events with
  | [] => Ok gui
  | e :: events' =>
      let! gui' := handle gui e in
      run gui' events'
  end.

End Gui.

(** ** Invariants of a session *)

Module GuiInv.

Import Traffic Bot Fleet FleetInv.

(** A robot that has been given a task: it is moving, waiting, or done. *)
Definition busy (r : Robot) : Prop :=
  status r = MOVING ∨ status r = WAITING ∨ status r = TASK_COMPLETE.

(** The state of the orchestrator is well formed: the ids in use lie below
    the id counter, no id is used twice, every robot is filed under its own
    id, and every robot stands on a vertex of the graph with a path inside
    the graph. *)
Record fleet_ok (fm : FleetManager) : Prop := {
  ok_ids : ids_below fm;
  ok_keys : NoDup (robots fm).*1;
  ok_keyed : Forall (fun kr : Z * Robot => id kr.2 = kr.1) (robots fm);
  ok_on_graph : robots_ok (nav_graph fm) (robots fm)
}.

(** Two robot collections hold the same ids in the same order, and the
    robots at the same place are related by [R]. *)
Definition same_fleet (R : Robot -> Robot -> Prop)
    (rs rs' : list (Z * Robot)) : Prop :=
  Forall2 (fun kr kr' : Z * Robot => kr.1 = kr'.1 ∧ R kr.2 kr'.2) rs rs'.

(** Robot [b] holds the same vertices and lanes in both ledgers. *)
Definition same_holds (b : Z) (tm tm' : TrafficManager) : Prop :=
  (∀ v, vertex_occupancy tm' !! v = Some b ↔ vertex_occupancy tm !! v = Some b) ∧
  (∀ k, lane_occupancy tm' !! k = Some b ↔ lane_occupancy tm !! k = Some b).

(** The movement pass has work to do for the robot. *)
Definition on_the_move (r : Robot) : Prop := status r = MOVING ∧ path r ≠ [].

(** A robot the tick has nothing to do for. *)
Definition resting (r : Robot) : Prop :=
  (status r ≠ MOVING ∧ status r ≠ WAITING) ∨ path r = [].

End GuiInv.

(** ** What a session does to one robot *)

Module SessionInv.

Import Traffic Bot Fleet GuiInv.

(** What one event of the panel can do to a robot that stays in the
    collection: its id is kept, and either its status and vertex are as
    before, or it was on a task and still is, or it has been given a task
    while not charging, or it has been put on charge while idle on a charger
    vertex, or it has been taken off charge. *)
Definition evolves (g : Nav.NavGraph) (r r' : Robot) : Prop :=
  id r' = id r ∧
  ((status r' = status r ∧ current_vertex r' = current_vertex r) ∨
   (busy r ∧ busy r') ∨
   (status r ≠ CHARGING ∧ status r' = MOVING) ∨
   (status r = IDLE ∧ status r' = CHARGING ∧
    current_vertex r' = current_vertex r ∧
    Nav.is_charger g (current_vertex r) = Ok true) ∨
   (status r = CHARGING ∧ status r' = IDLE)).

(** Every charging robot of the collection stands on a charger vertex. *)
Definition charging_on_chargers (fm : FleetManager) : Prop :=
  ∀ k r, dict_get (robots fm) k = Some r -> status r = CHARGING ->
         Nav.is_charger (nav_graph fm) (current_vertex r) = Ok true.

End SessionInv.

(** ** Sessions at the panel *)

Module PanelScenario.

Import Gui.

Definition after (gui : FleetGUI) (events : list event) : FleetGUI :=
  Scenario.from_ok gui (run gui events).

(** The line graph: a robot is spawned on vertex 0, sent to vertex 2, and
    the timer ticks once. *)
Definition start : FleetGUI := Gui.init Scenario.line_graph.
Definition spawn_events : list event := [ Click None (Some 0); SpawnRobot ].
Definition task_events : list event := [ Click (Some 0) (Some 2); AssignTask ].
Definition spawned : FleetGUI := after start spawn_events.
Definition tasked : FleetGUI := after spawned task_events.
Definition ticked : FleetGUI := after tasked [ Update 1%float ].

(** The robot filed under an id, for an id that is in use. *)
Definition robot_of (gui : FleetGUI) (robot_id : Z) : Bot.Robot :=
  default (Bot.init robot_id 0)
    (Fleet.dict_get (Fleet.robots (fleet_manager gui)) robot_id).

(** After the tick the robot is selected still and the charge button is
    pressed. *)
Definition tick_charged : FleetGUI := after tasked [ Update 1%float; ChargeRobot ].
Definition tasked_robot : Bot.Robot := robot_of tasked 0.
Definition ticked_robot : Bot.Robot := robot_of tick_charged 0.

(** The spawned robot is selected and removed, and the spawn button is
    pressed again with vertex 0 selected. *)
Definition selected : FleetGUI := after spawned [ Click (Some 0) (Some 0) ].
Definition respawned : FleetGUI := after (remove_robot selected) [ SpawnRobot ].

(** A depot: vertex 0 is a charger, vertex 1 is not, one lane joins them. *)
Definition depot_vertices : list Nav.Vertex :=
  [ (0%float, 0%float, Nav.mkVertexAttrs (Some true));
    (1%float, 0%float, Nav.mkVertexAttrs None) ].
Definition depot_lanes : list Nav.Lane := [ (0, 1, None) ].
Definition depot_graph : Nav.NavGraph :=
  Scenario.from_ok (Nav.mkNavGraph [] [] ∅ ∅) (Nav.init depot_vertices depot_lanes).

(** A robot is spawned on the charger and put on charge. *)
Definition depot_start : FleetGUI := Gui.init depot_graph.
Definition charge_events : list event :=
  [ Click None (Some 0); SpawnRobot; Click (Some 0) (Some 0); ChargeRobot ].
Definition charging : FleetGUI := after depot_start charge_events.

End PanelScenario.

(** ** Steps that enter no held vertex *)

Module PassSpec.

Import Traffic.

(** A step along a lane, in either direction, to a vertex that no robot
    holds in the ledger. *)
Definition unheld_step (ls : list Nav.Lane) (tm : TrafficManager) (u v : Z) : Prop :=
  Walks.lane_between ls u v ∧ vertex_occupancy tm !! v = None.

End PassSpec.

(** ** Ticks with more than one robot *)

Module PassScenario.

Import Scenario.

(** The robot filed under an id, for an id that is in use. *)
Definition robot_in (fm : Fleet.FleetManager) (robot_id : Z) : Bot.Robot :=
  default (Bot.init robot_id 0) (Fleet.dict_get (Fleet.robots fm) robot_id).

(** Four vertices in a line; the last lane is twice as long as the others. *)
Definition long_vertices : list Nav.Vertex :=
  [ (0%float, 0%float, plain); (1%float, 0%float, plain);
    (2%float, 0%float, plain); (4%float, 0%float, plain) ].
Definition long_lanes : list Nav.Lane := [ (0, 1, None); (1, 2, None); (2, 3, None) ].
Definition long_graph : Nav.NavGraph :=
  from_ok (Nav.mkNavGraph [] [] ∅ ∅) (Nav.init long_vertices long_lanes).

(** Robot 0 is spawned at vertex 1 and robot 1 at vertex 3, both are sent to
    vertex 2, and a first tick consumes the start vertex of either path.  In
    the second tick robot 0 arrives at vertex 2 and robot 1 sets out for
    it. *)
Definition meeting_start : Fleet.FleetManager :=
  tick (assign (assign (spawn (spawn (Fleet.init long_graph) 1) 3) 0 2) 1 2).
Definition meeting_end : Fleet.FleetManager := tick meeting_start.

(** Four vertices on a square, joined in a cycle. *)
Definition square_vertices : list Nav.Vertex :=
  [ (0%float, 0%float, plain); (1%float, 0%float, plain);
    (1%float, 1%float, plain); (0%float, 1%float, plain) ].
Definition square_lanes : list Nav.Lane :=
  [ (0, 1, None); (1, 2, None); (2, 3, None); (3, 0, None) ].
Definition square_graph : Nav.NavGraph :=
  from_ok (Nav.mkNavGraph [] [] ∅ ∅) (Nav.init square_vertices square_lanes).

(** Robot 0 is spawned at vertex 0 and sent to vertex 2 by way of vertex 1;
    robot 1 is then spawned at vertex 1, and a tick consumes the start vertex
    of robot 0's path. *)
Definition detour_start : Fleet.FleetManager :=
  tick (spawn (assign (spawn (Fleet.init square_graph) 0) 0 2) 1).
Definition detour_passed : list (Z * Bot.Robot) * Traffic.TrafficManager :=
  from_ok ([], Traffic.init)
    (Fleet.movement_pass square_graph 1%float (Fleet.robots detour_start)
       (Fleet.traffic_manager detour_start)).

(** Robot 1 is given its own vertex as destination: it is moving, on the
    path [[1]], and keeps its hold on vertex 1. *)
Definition stall_start : Fleet.FleetManager := assign detour_start 1 1.

End PassScenario.

(** * Properties

    ** The reservation ledger *)

Module TrafficFacts.
Import Traffic.

Lemma normalize_lane_sym (f t : Z) : _normalize_lane f t = _normalize_lane t f.
Proof. unfold _normalize_lane. by rewrite Z.min_comm, Z.max_comm. Qed.

Lemma request_vertex_denied (tm : TrafficManager) (a b v : Z) :
  holds_vertex tm b v -> a ≠ b -> request_vertex tm a v = (false, tm).
Proof.
  unfold holds_vertex, request_vertex. intros -> Hne.
  destruct (Z.eqb_spec b a); [congruence | done].
Qed.

Lemma request_lane_denied (tm : TrafficManager) (a b f t : Z) :
  holds_lane tm b f t -> a ≠ b -> request_lane tm a f t = (false, tm).
Proof.
  unfold holds_lane, request_lane. intros -> Hne.
  destruct (Z.eqb_spec b a); [congruence | done].
Qed.

Lemma request_vertex_granted (tm : TrafficManager) (a v : Z) :
  holds_vertex tm a v ∨ vertex_occupancy tm !! v = None ->
  request_vertex tm a v =
    (true, {| lane_occupancy := lane_occupancy tm;
              vertex_occupancy := <[v := a]> (vertex_occupancy tm) |}).
Proof.
  unfold holds_vertex, request_vertex. intros [-> | ->]; [| done].
  by rewrite Z.eqb_refl.
Qed.

Lemma request_lane_granted (tm : TrafficManager) (a f t : Z) :
  holds_lane tm a f t ∨ lane_occupancy tm !! _normalize_lane f t = None ->
  request_lane tm a f t =
    (true, {| lane_occupancy := <[_normalize_lane f t := a]> (lane_occupancy tm);
              vertex_occupancy := vertex_occupancy tm |}).
Proof.
  unfold holds_lane, request_lane. intros [-> | ->]; [| done].
  by rewrite Z.eqb_refl.
Qed.

(** C1: in every ledger state reached by a sequence of request and release
    calls, a vertex and a lane (in either direction of travel) have at most
    one holder; a request for a resource held by another robot is denied
    and leaves the ledger unchanged; a request for a resource that is free
    or held by the requester is granted, records the requester as holder
    and touches no other entry. *)
Theorem mutual_exclusion_of_holds (calls : list call) :
  let tm := run calls in
  (∀ a b v, holds_vertex tm a v -> holds_vertex tm b v -> a = b) ∧
  (∀ a b f t, holds_lane tm a f t -> holds_lane tm b t f -> a = b) ∧
  (∀ a b v, holds_vertex tm b v -> a ≠ b -> request_vertex tm a v = (false, tm)) ∧
  (∀ a b f t, holds_lane tm b f t -> a ≠ b ->
     request_lane tm a f t = (false, tm) ∧ request_lane tm a t f = (false, tm)) ∧
  (∀ a v, holds_vertex tm a v ∨ vertex_occupancy tm !! v = None ->
     ∃ tm', request_vertex tm a v = (true, tm') ∧ holds_vertex tm' a v ∧
            lane_occupancy tm' = lane_occupancy tm ∧
            ∀ b w, w ≠ v -> holds_vertex tm' b w ↔ holds_vertex tm b w) ∧
  (∀ a f t, holds_lane tm a f t ∨ lane_occupancy tm !! _normalize_lane f t = None ->
     ∃ tm', request_lane tm a f t = (true, tm') ∧ holds_lane tm' a f t ∧
            holds_lane tm' a t f ∧
            vertex_occupancy tm' = vertex_occupancy tm ∧
            ∀ b k, k ≠ _normalize_lane f t ->
                   lane_occupancy tm' !! k = Some b ↔ lane_occupancy tm !! k = Some b).
Proof.
  intros tm. repeat split.
  - unfold holds_vertex. congruence.
  - unfold holds_lane. intros a b f t Ha Hb.
    rewrite (normalize_lane_sym t f) in Hb. congruence.
  - intros a b v Hb Hne. by eapply request_vertex_denied.
  - by eapply request_lane_denied.
  - eapply request_lane_denied; [| done].
    unfold holds_lane. by rewrite (normalize_lane_sym t f).
  - intros a v H. eexists. split; [by apply request_vertex_granted |].
    unfold holds_vertex; simpl. split; [apply lookup_insert_eq |].
    split; [done |]. intros b w Hne. by rewrite lookup_insert_ne.
  - intros a f t H. eexists. split; [by apply request_lane_granted |].
    unfold holds_lane; simpl. split; [apply lookup_insert_eq |].
    split; [rewrite (normalize_lane_sym t f); apply lookup_insert_eq |].
    split; [done |]. intros b k Hne. by rewrite lookup_insert_ne.
Qed.
End TrafficFacts.

(** ** The graph search *)

Module BfsFacts.
Import Nav Walks.

Lemma walk_length_pos E a b p : walk E a b p -> (1 ≤ length p)%nat.
Proof. destruct 1; [simpl; lia | rewrite length_app; simpl; lia]. Qed.

Lemma distance_unique E a b n m : distance E a b n -> distance E a b m -> n = m.
Proof.
  intros [[p [Hp Hlp]] Hn] [[q [Hq Hlq]] Hm].
  specialize (Hn q Hq). specialize (Hm p Hp). lia.
Qed.

Lemma distance_start E a : distance E a a 0.
Proof.
  split; [exists [a]; split; [constructor | done] |].
  intros p Hp. by apply walk_length_pos in Hp.
Qed.

Lemma distance_zero E a b : distance E a b 0 -> b = a.
Proof.
  intros [[p [Hp Hl]] _]. destruct Hp; [done |].
  apply walk_length_pos in Hp. rewrite length_app in Hl. simpl in Hl. lia.
Qed.

Section Search.

Context (adj : gmap Z (list Z)) (occupied : gset Z) (end_ : option Z) (a : Z).
Hypothesis adj_closed : closed adj.

(** The chain of parents from a discovered vertex is a shortest walk, and
    the reconstruction loop returns it reversed. *)
Lemma backtrack_chain visited : parents_ok adj occupied a visited ->
  ∀ n v, distance (free_step adj occupied) a v n -> is_Some (visited !! v) ->
  ∃ p, walk (free_step adj occupied) a v p ∧ length p = S n ∧
       (∀ x, x ∈ p -> is_Some (visited !! x) ∧
                      ∃ j, (j ≤ n)%nat ∧ distance (free_step adj occupied) a x j) ∧
       NoDup p ∧
       ∀ fuel acc, (n < fuel)%nat ->
         backtrack fuel visited (Some v) acc = Ok (acc ++ rev p).
Proof.
  intros H. induction n as [|m IH]; intros v Hlev [o Hv].
  - apply distance_zero in Hlev as Hva. subst v.
    rewrite (po_start _ _ _ _ H) in Hv. injection Hv as <-.
    exists [a]. split; [constructor |]. split; [done |].
    split.
    { intros x ->%list_elem_of_singleton.
      split; [by rewrite (po_start _ _ _ _ H) |].
      exists 0%nat. split; [lia | apply distance_start]. }
    split; [apply NoDup_singleton |].
    intros [|fuel] acc Hf; [lia |]. simpl. rewrite (po_start _ _ _ _ H).
    by destruct fuel.
  - destruct o as [u|].
    2:{ apply (po_root _ _ _ _ H) in Hv as ->.
        pose proof (distance_unique _ _ _ _ _ Hlev (distance_start _ a)). lia. }
    destruct (po_par _ _ _ _ H _ _ Hv) as (Hu & Hstep & k & Hku & Hkv).
    pose proof (distance_unique _ _ _ _ _ Hlev Hkv) as Hk. injection Hk as ->.
    destruct (IH u Hku Hu) as (p & Hw & Hlen & Hin & Hnd & Hbt).
    exists (p ++ [v]). split; [by econstructor |].
    split; [rewrite length_app; simpl; lia |].
    split.
    { intros x [Hx | ->%list_elem_of_singleton]%elem_of_app.
      - destruct (Hin x Hx) as (Hs & j & Hj & Hlj). split; [done |].
        exists j. split; [lia | done].
      - split; [by rewrite Hv |]. exists (S k). split; [lia | done]. }
    split.
    { apply NoDup_app. split; [done |]. split; [| apply NoDup_singleton].
      intros x Hx ->%list_elem_of_singleton.
      destruct (Hin v Hx) as (_ & j & Hj & Hlj).
      pose proof (distance_unique _ _ _ _ _ Hlj Hkv). lia. }
    intros [|fuel] acc Hf; [lia |]. simpl. rewrite Hv.
    rewrite Hbt by lia. rewrite rev_app_distr. simpl.
    by rewrite <- app_assoc.
Qed.

(** A shortest walk to a discovered vertex fits in the [visited] dict, so
    the fuel of the reconstruction loop is enough. *)
Lemma backtrack_returns visited n v :
  parents_ok adj occupied a visited ->
  distance (free_step adj occupied) a v n -> is_Some (visited !! v) ->
  ∃ p, backtrack (size visited) visited (Some v) [] = Ok (rev p) ∧
       walk (free_step adj occupied) a v p ∧ length p = S n.
Proof.
  intros H Hlev Hv.
  destruct (backtrack_chain visited H n v Hlev Hv) as (p & Hw & Hlen & Hin & Hnd & Hbt).
  exists p. split; [| done].
  rewrite (Hbt (size visited) []); [done |].
  assert (length p ≤ size visited)%nat; [| lia].
  rewrite <- size_dom.
  rewrite <- (size_list_to_set (C := gset Z) p Hnd).
  apply subseteq_size. intros x Hx%elem_of_list_to_set.
  apply elem_of_dom. by apply Hin.
Qed.

(** Under the scan invariant at level [k], every vertex within [k] edges of
    the start has been discovered. *)
Lemma scan_covered k u ns visited queue :
  scan_inv adj occupied end_ a k u ns visited queue ->
  ∀ x p, walk (free_step adj occupied) a x p -> (length p ≤ S k)%nat ->
         is_Some (visited !! x).
Proof.
  intros H x p Hw. induction Hw as [|b c p Hw IH Hstep]; intros Hlen.
  - rewrite (po_start _ _ _ _ (si_par _ _ _ _ _ _ _ _ _ H)). eauto.
  - rewrite length_app in Hlen. simpl in Hlen.
    assert (is_Some (visited !! b)) as Hb by (apply IH; lia).
    destruct (si_done _ _ _ _ _ _ _ _ _ H b Hb) as [Hq | Hd].
    + destruct (si_q _ _ _ _ _ _ _ _ _ H) as (q1 & q2 & -> & H1 & H2).
      apply elem_of_app in Hq as [Hq | Hq].
      * rewrite Forall_forall in H1. destruct (H1 b Hq) as [_ Hmin].
        specialize (Hmin p Hw). lia.
      * rewrite Forall_forall in H2. destruct (H2 b Hq) as [_ Hmin].
        specialize (Hmin p Hw). lia.
    + destruct (Hd c Hstep) as [Hc | [-> _]]; [done |].
      destruct (si_u _ _ _ _ _ _ _ _ _ H) as [[_ Hmin] _].
      specialize (Hmin p Hw). lia.
Qed.


Lemma parents_ok_insert visited u w k :
  parents_ok adj occupied a visited ->
  visited !! w = None -> is_Some (visited !! u) ->
  free_step adj occupied u w ->
  distance (free_step adj occupied) a u k ->
  distance (free_step adj occupied) a w (S k) ->
  parents_ok adj occupied a (<[w := Some u]> visited).
Proof.
  intros H Hw Hu Hstep Hku Hkw. split.
  - intros v. destruct (decide (w = v)) as [<- | Hne].
    + by rewrite lookup_insert_eq.
    + rewrite lookup_insert_ne by done. apply (po_root _ _ _ _ H).
  - intros v p. destruct (decide (w = v)) as [<- | Hne].
    + rewrite lookup_insert_eq. intros [= <-].
      split; [| split; [done | by exists k]].
      destruct (decide (w = u)) as [<- | Hne']; [by rewrite lookup_insert_eq |].
      by rewrite lookup_insert_ne.
    + rewrite lookup_insert_ne by done. intros Hv.
      destruct (po_par _ _ _ _ H _ _ Hv) as (Hp & Hs & Hn).
      split; [| done].
      destruct (decide (w = p)) as [<- | Hne']; [by rewrite lookup_insert_eq |].
      by rewrite lookup_insert_ne.
  - destruct (decide (w = a)) as [-> | Hne].
    + rewrite (po_start _ _ _ _ H) in Hw. done.
    + rewrite lookup_insert_ne by done. apply (po_start _ _ _ _ H).
  - intros v. destruct (decide (w = v)) as [<- | Hne].
    + intros _. destruct Hstep as [(ns & Hns & Hin) _]. by eapply adj_closed.
    + rewrite lookup_insert_ne by done. apply (po_dom _ _ _ _ H).
Qed.

Lemma scan_inv_skip k u w rest visited queue :
  scan_inv adj occupied end_ a k u (w :: rest) visited queue ->
  w ∈ occupied ∨ is_Some (visited !! w) ->
  scan_inv adj occupied end_ a k u rest visited queue.
Proof.
  intros H Hskip. destruct H as [Hp He Hns Hu Hq Hqv Hd]. split; try done.
  - by inversion Hns.
  - intros v Hv. destruct (Hd v Hv) as [? | Hd']; [by left | right].
    intros x Hx. destruct (Hd' x Hx) as [? | [-> Hin]]; [by left |].
    apply elem_of_cons in Hin as [-> | Hin]; [| by right].
    left. destruct Hskip as [Hocc | Hseen]; [| done].
    by destruct Hx as [_ Hfree].
Qed.

Lemma pending_discover visited queue w o :
  visited !! w = None -> is_Some (adj !! w) ->
  pending adj (<[w := o]> visited) (queue ++ [w]) = pending adj visited queue.
Proof.
  intros Hw Hadj. unfold pending. rewrite length_app.
  change (length [w]) with 1%nat. rewrite dom_insert_L.
  assert (dom adj ∖ dom visited = {[w]} ∪ dom adj ∖ ({[w]} ∪ dom visited)) as ->.
  { apply set_eq. intros x. rewrite elem_of_union, !elem_of_difference,
      elem_of_union, elem_of_singleton.
    apply elem_of_dom in Hadj. apply not_elem_of_dom in Hw.
    destruct (decide (x = w)) as [-> | Hne]; tauto. }
  rewrite (size_union {[w]}).
  - rewrite size_singleton. lia.
  - intros x ->%elem_of_singleton [_ Hx]%elem_of_difference.
    apply Hx, elem_of_union. left. by apply elem_of_singleton.
Qed.

Lemma scan_spec k u : ∀ ns visited queue,
  scan_inv adj occupied end_ a k u ns visited queue ->
  match scan occupied end_ u ns visited queue with
  | Scanned visited' queue' =>
      scan_inv adj occupied end_ a k u [] visited' queue' ∧
      pending adj visited' queue' = pending adj visited queue
  | Returned r =>
      ∃ x p, end_ = Some x ∧ r = Ok (Some p) ∧
             walk (free_step adj occupied) a x p ∧
             ∀ q, walk (free_step adj occupied) a x q -> (length p ≤ length q)%nat
  end.
Proof.
  induction ns as [|w rest IH]; intros visited queue H; simpl; [done |].
  destruct (bool_decide (w ∈ occupied) || (w =? u)) eqn:Hskip.
  { apply IH. apply (scan_inv_skip _ _ _ _ _ _ H).
    apply orb_true_iff in Hskip as [Hocc%bool_decide_eq_true | ->%Z.eqb_eq].
    - by left.
    - right. apply (si_u _ _ _ _ _ _ _ _ _ H). }
  apply orb_false_iff in Hskip as [Hfree%bool_decide_eq_false Hne%Z.eqb_neq].
  destruct (visited !! w) as [o|] eqn:Hw.
  { apply IH. apply (scan_inv_skip _ _ _ _ _ _ H). right. by rewrite Hw. }
  pose proof H as [Hp He Hns [Hku Hu] Hq Hqv Hd].
  assert (free_step adj occupied u w) as Hstep.
  { split; [| done]. by inversion Hns. }
  assert (distance (free_step adj occupied) a w (S k)) as Hkw.
  { split.
    - destruct Hku as [(p & Hwalk & Hlen) _]. exists (p ++ [w]).
      split; [by econstructor | rewrite length_app; simpl; lia].
    - intros q Hwalk. destruct (le_gt_dec (length q) (S k)) as [Hle | ?]; [| lia].
      pose proof (scan_covered _ _ _ _ _ H w q Hwalk Hle) as Hseen.
      rewrite Hw in Hseen. by destruct Hseen. }
  pose proof (parents_ok_insert _ _ _ _ Hp Hw Hu Hstep Hku Hkw) as Hp'.
  destruct (bool_decide (Some w = end_)) eqn:Hend.
  - apply bool_decide_eq_true in Hend.
    destruct (backtrack_returns (<[w := Some u]> visited) (S k) w Hp' Hkw)
      as (p & Hbt & Hwalk & Hlen); [by rewrite lookup_insert_eq |].
    exists w, p. split; [done |]. rewrite Hbt. simpl. rewrite rev_involutive.
    split; [done |]. split; [done |].
    intros q Hq'. destruct Hkw as [_ Hmin]. specialize (Hmin q Hq'). lia.
  - apply bool_decide_eq_false in Hend.
    assert (is_Some (adj !! w)) as Hadj.
    { apply (po_dom _ _ _ _ Hp'). by rewrite lookup_insert_eq. }
    specialize (IH (<[w := Some u]> visited) (queue ++ [w])).
    rewrite <- (pending_discover visited queue w (Some u) Hw Hadj).
    apply IH. split.
    + done.
    + intros x Hx. rewrite lookup_insert_ne by congruence. by apply He.
    + by inversion Hns.
    + split; [done |]. rewrite lookup_insert_ne by done. done.
    + destruct Hq as (q1 & q2 & -> & H1 & H2). exists q1, (q2 ++ [w]).
      split; [by rewrite app_assoc |]. split; [done |].
      apply Forall_app. split; [done | by constructor].
    + apply Forall_app. split.
      * eapply Forall_impl; [exact Hqv |]. intros v Hv. simpl in *.
        destruct (decide (w = v)) as [<- | ?]; [by rewrite lookup_insert_eq |].
        by rewrite lookup_insert_ne.
      * constructor; [by rewrite lookup_insert_eq | constructor].
    + intros v. destruct (decide (w = v)) as [<- | Hwv].
      * intros _. left. apply elem_of_app. right. by apply list_elem_of_singleton.
      * rewrite lookup_insert_ne by done. intros Hv.
        destruct (Hd v Hv) as [Hin | Hd']; [left; apply elem_of_app; by left |].
        right. intros x Hx.
        destruct (decide (w = x)) as [<- | Hwx]; [left; by rewrite lookup_insert_eq |].
        rewrite lookup_insert_ne by done.
        destruct (Hd' x Hx) as [? | [-> Hin]]; [by left |].
        apply elem_of_cons in Hin as [-> | Hin]; [done | by right].
Qed.


Lemma loop_covered visited :
  loop_inv adj occupied end_ a visited [] ->
  ∀ x p, walk (free_step adj occupied) a x p -> is_Some (visited !! x).
Proof.
  intros H x p Hw. induction Hw as [|b c p Hw IH Hstep].
  - rewrite (po_start _ _ _ _ (li_par _ _ _ _ _ _ H)). eauto.
  - destruct (li_done _ _ _ _ _ _ H b IH) as [Hin | Hd]; [| by apply Hd].
    by apply elem_of_nil in Hin.
Qed.

Lemma loop_inv_pop visited u rest ns :
  loop_inv adj occupied end_ a visited (u :: rest) ->
  adj !! u = Some ns ->
  ∃ k, scan_inv adj occupied end_ a k u ns visited rest.
Proof.
  intros [Hp He (k & q1 & q2 & Hq & H1 & H2) Hqv Hd] Hns.
  assert (∃ k', distance (free_step adj occupied) a u k' ∧
            ∃ r1 r2, rest = r1 ++ r2 ∧
              Forall (fun v => distance (free_step adj occupied) a v k') r1 ∧
              Forall (fun v => distance (free_step adj occupied) a v (S k')) r2)
    as (k' & Hku & Hrest).
  { destruct q1 as [|x q1]; simpl in Hq.
    - subst q2. inversion H2; subst. exists (S k). split; [done |].
      exists rest, []. split; [by rewrite app_nil_r |]. split; [done | constructor].
    - injection Hq as <- ->. inversion H1; subst. exists k. split; [done |].
      by exists q1, q2. }
  exists k'. split; try done.
  - apply Forall_forall. intros w Hw. by exists ns.
  - split; [done |]. by inversion Hqv.
  - by inversion Hqv.
  - intros v Hv. destruct (Hd v Hv) as [Hin | Hd'].
    + apply elem_of_cons in Hin as [-> | Hin]; [| by left].
      right. intros w [(ns' & Hns' & Hw) _]. right. split; [done |]. congruence.
    + right. intros w Hw. left. by apply Hd'.
Qed.

Lemma scan_inv_done k u visited queue :
  scan_inv adj occupied end_ a k u [] visited queue ->
  loop_inv adj occupied end_ a visited queue.
Proof.
  intros [Hp He Hns Hu Hq Hqv Hd]. split; try done.
  - by exists k.
  - intros v Hv. destruct (Hd v Hv) as [? | Hd']; [by left | right].
    intros w Hw. destruct (Hd' w Hw) as [? | [_ Hin]]; [done |].
    by apply elem_of_nil in Hin.
Qed.

(** The [while] loop returns, with a shortest walk to the target when it is
    reachable by free steps and with [None] when it is not. *)
Lemma bfs_spec : ∀ fuel visited queue,
  loop_inv adj occupied end_ a visited queue ->
  (pending adj visited queue ≤ fuel)%nat ->
  match bfs fuel adj occupied end_ visited queue with
  | Ok None => ∀ x p, end_ = Some x -> ¬ walk (free_step adj occupied) a x p
  | Ok (Some p) =>
      ∃ x, end_ = Some x ∧ walk (free_step adj occupied) a x p ∧
           ∀ q, walk (free_step adj occupied) a x q -> (length p ≤ length q)%nat
  | Raise _ => False
  end.
Proof.
  induction fuel as [|fuel IH]; intros visited [|u rest] H Hfuel.
  - simpl. intros x p Hx Hw. pose proof (loop_covered _ H x p Hw) as Hs.
    rewrite (li_end _ _ _ _ _ _ H x Hx) in Hs. by destruct Hs.
  - unfold pending in Hfuel. simpl in Hfuel. lia.
  - simpl. intros x p Hx Hw. pose proof (loop_covered _ H x p Hw) as Hs.
    rewrite (li_end _ _ _ _ _ _ H x Hx) in Hs. by destruct Hs.
  - simpl.
    assert (is_Some (adj !! u)) as [ns Hns].
    { apply (po_dom _ _ _ _ (li_par _ _ _ _ _ _ H)).
      pose proof (li_qv _ _ _ _ _ _ H) as Hqv. by inversion Hqv. }
    rewrite Hns.
    destruct (loop_inv_pop _ _ _ _ H Hns) as [k Hscan].
    pose proof (scan_spec k u ns visited rest Hscan) as Hspec.
    destruct (scan occupied end_ u ns visited rest) as [r | visited' queue'].
    + destruct Hspec as (x & p & Hx & -> & Hw & Hmin). by exists x.
    + destruct Hspec as [Hinv Hpend]. apply IH; [by eapply scan_inv_done |].
      rewrite Hpend. unfold pending in *. simpl in Hfuel. lia.
Qed.

End Search.

Lemma occupied_set_eq (occupied_vertices : option (list Z)) :
  match occupied_vertices with
  | Some (x :: l) => list_to_set (x :: l)
  | _ => ∅
  end = occupied_set occupied_vertices.
Proof. by destruct occupied_vertices as [[|x l]|]. Qed.

(** [find_shortest_path] on a closed adjacency index, from a vertex of the
    graph: it raises nothing, a returned path is a shortest walk by free
    steps, and [None] means that there is no such walk. *)
Lemma find_shortest_path_spec (g : NavGraph) (start : Z) (end_ : option Z)
    (occupied_vertices : option (list Z)) :
  closed (adjacency_list g) -> is_Some (adjacency_list g !! start) ->
  match find_shortest_path g start end_ occupied_vertices with
  | Ok None =>
      ∀ x p, end_ = Some x ->
        ¬ walk (free_step (adjacency_list g) (occupied_set occupied_vertices)) start x p
  | Ok (Some p) =>
      ∃ x, end_ = Some x ∧
        walk (free_step (adjacency_list g) (occupied_set occupied_vertices)) start x p ∧
        ∀ q, walk (free_step (adjacency_list g) (occupied_set occupied_vertices)) start x q ->
             (length p ≤ length q)%nat
  | Raise _ => False
  end.
Proof.
  intros Hclosed Hstart. unfold find_shortest_path.
  destruct (bool_decide (Some start = end_)) eqn:Hend.
  - apply bool_decide_eq_true in Hend. exists start. split; [done |].
    split; [constructor |]. intros q Hq. by apply walk_length_pos in Hq.
  - apply bool_decide_eq_false in Hend. rewrite occupied_set_eq.
    apply bfs_spec; [done | |].
    + split.
      * split.
        -- intros v Hv. apply lookup_singleton_Some in Hv. by destruct Hv.
        -- intros v u Hv. apply lookup_singleton_Some in Hv. by destruct Hv.
        -- apply lookup_singleton_eq.
        -- intros v [o Hv]. apply lookup_singleton_Some in Hv as [<- _]. done.
      * intros x Hx. apply lookup_singleton_ne. congruence.
      * exists 0%nat, [start], []. split; [done |].
        split; [| constructor]. constructor; [apply distance_start | constructor].
      * constructor; [| constructor]. rewrite lookup_singleton_eq. eauto.
      * intros v [o Hv]. apply lookup_singleton_Some in Hv as [<- _].
        left. by apply list_elem_of_singleton.
    + unfold pending. simpl.
      assert (size (dom (adjacency_list g) ∖ dom ({[start := None]} : gmap Z (option Z)))
              ≤ size (adjacency_list g))%nat; [| lia].
      rewrite <- (size_dom (adjacency_list g)). apply subseteq_size.
      intros x Hx. by apply elem_of_difference in Hx as [Hx _].
Qed.


(** *** The adjacency index built from the lanes *)

Lemma empty_adjacency_lookup_gen (s n : nat) (k : Z) (ns : list Z) :
  (list_to_map ((fun i : nat => (Z.of_nat i, @nil Z)) <$> seq s n) : gmap Z (list Z)) !! k
    = Some ns ->
  ns = [] ∧ Z.of_nat s ≤ k < Z.of_nat (s + n).
Proof.
  revert s. induction n as [|n IH]; intros s; simpl.
  - by rewrite lookup_empty.
  - destruct (decide (Z.of_nat s = k)) as [<- | Hne].
    + rewrite lookup_insert_eq. intros [= <-]. split; [done | lia].
    + rewrite lookup_insert_ne by done. intros H.
      destruct (IH (S s) H) as [-> ?]. split; [done | lia].
Qed.

Lemma empty_adjacency_in_range_gen (s n : nat) (k : Z) :
  Z.of_nat s ≤ k < Z.of_nat (s + n) ->
  (list_to_map ((fun i : nat => (Z.of_nat i, @nil Z)) <$> seq s n) : gmap Z (list Z)) !! k
    = Some [].
Proof.
  revert s. induction n as [|n IH]; intros s Hk; simpl; [lia |].
  destruct (decide (Z.of_nat s = k)) as [<- | Hne].
  - by rewrite lookup_insert_eq.
  - rewrite lookup_insert_ne by done. apply IH. lia.
Qed.

Lemma empty_adjacency_lookup (n : nat) (k : Z) :
  empty_adjacency n !! k = if bool_decide (0 ≤ k < Z.of_nat n) then Some [] else None.
Proof.
  unfold empty_adjacency. case_bool_decide as Hk.
  - apply empty_adjacency_in_range_gen. simpl. lia.
  - destruct (_ !! k) as [ns|] eqn:E; [| done].
    apply empty_adjacency_lookup_gen in E as [_ ?]. simpl in *. lia.
Qed.

Lemma adj_append_spec adj k v adj' :
  adj_append adj k v = Ok adj' ->
  is_Some (adj !! k) ∧
  (∀ u, is_Some (adj' !! u) ↔ is_Some (adj !! u)) ∧
  (∀ u w, neighbour adj' u w ↔ neighbour adj u w ∨ (u = k ∧ w = v)).
Proof.
  unfold adj_append. destruct (adj !! k) as [ns|] eqn:Hk; [| done].
  intros [= <-]. split; [eauto |]. split.
  - intros u. destruct (decide (k = u)) as [<- | Hne].
    + rewrite lookup_insert_eq, Hk. split; eauto.
    + by rewrite lookup_insert_ne.
  - intros u w. unfold neighbour. destruct (decide (k = u)) as [<- | Hne].
    + rewrite lookup_insert_eq. split.
      * intros (ns' & [= <-] & Hin).
        apply elem_of_app in Hin as [Hin | ->%list_elem_of_singleton]; [| by right].
        left. by exists ns.
      * intros [(ns' & Hns' & Hin) | [_ ->]].
        -- exists (ns ++ [v]). split; [done |]. apply elem_of_app. left. congruence.
        -- exists (ns ++ [v]). split; [done |]. apply elem_of_app. right.
           by apply list_elem_of_singleton.
    + rewrite lookup_insert_ne by done. split; [by left |].
      intros [? | [-> _]]; done.
Qed.

Lemma add_lanes_spec : ∀ ls adj adj',
  add_lanes ls adj = Ok adj' ->
  closed adj ->
  closed adj' ∧
  (∀ u, is_Some (adj' !! u) ↔ is_Some (adj !! u)) ∧
  (∀ u w, neighbour adj' u w ↔ neighbour adj u w ∨ lane_between ls u w).
Proof.
  induction ls as [|[[x y] p] ls IH]; intros adj adj' Hadd Hclosed; simpl in Hadd.
  - injection Hadd as <-. split; [done |]. split; [done |].
    intros u w. split; [by left |]. intros [? | [q [Hq | Hq]]]; [done | |];
      by apply elem_of_nil in Hq.
  - destruct (adj_append adj x y) as [adj1|] eqn:H1; [| done]. simpl in Hadd.
    destruct (adj_append adj1 y x) as [adj2|] eqn:H2; [| done]. simpl in Hadd.
    destruct (adj_append_spec _ _ _ _ H1) as (Hx & Hdom1 & Hn1).
    destruct (adj_append_spec _ _ _ _ H2) as (Hy & Hdom2 & Hn2).
    assert (closed adj2) as Hclosed2.
    { intros u ns w Hu Hw. apply Hdom2, Hdom1.
      assert (neighbour adj2 u w) as Hnb by (by exists ns).
      apply Hn2 in Hnb as [Hnb | [-> ->]]; [| done].
      apply Hn1 in Hnb as [(ns' & Hns' & Hin) | [-> ->]]; [by eapply Hclosed |].
      by apply Hdom1. }
    destruct (IH adj2 adj' Hadd Hclosed2) as (Hc & Hdom & Hn).
    split; [done |]. split.
    + intros u. rewrite Hdom, Hdom2, Hdom1. done.
    + intros u w. rewrite Hn, Hn2, Hn1. unfold lane_between. split.
      * intros [[[? | [-> ->]] | [-> ->]] | [q [Hq | Hq]]].
        -- by left.
        -- right. exists p. left. apply elem_of_cons. by left.
        -- right. exists p. right. apply elem_of_cons. by left.
        -- right. exists q. left. apply elem_of_cons. by right.
        -- right. exists q. right. apply elem_of_cons. by right.
      * intros [? | [q [Hq | Hq]]]; [by left; left; left | |];
          apply elem_of_cons in Hq as [[= -> -> ->] | Hq].
        -- left. left. by right.
        -- right. exists q. by left.
        -- left. by right.
        -- right. exists q. by right.
Qed.

(** What [NavGraph.__init__] establishes: the keys of the adjacency index
    are the vertex indices, its lists hold exactly the lane partners, and a
    lane between vertices outside the index makes the construction fail. *)
Lemma init_spec vs ls g :
  Nav.init vs ls = Ok g ->
  vertices g = vs ∧ lanes g = ls ∧
  closed (adjacency_list g) ∧
  (∀ u, is_Some (adjacency_list g !! u) ↔ 0 ≤ u < Z.of_nat (length vs)) ∧
  (∀ u w, neighbour (adjacency_list g) u w ↔ lane_between ls u w).
Proof.
  unfold Nav.init, _build_adjacency_list.
  destruct (add_lanes ls (empty_adjacency (length vs))) as [adj|] eqn:Hadd; [| done].
  simpl. intros [= <-]. simpl. split; [done |]. split; [done |].
  assert (closed (empty_adjacency (length vs))) as Hc0.
  { intros u ns w Hu Hw. rewrite empty_adjacency_lookup in Hu.
    case_bool_decide; [| done]. injection Hu as <-. by apply elem_of_nil in Hw. }
  destruct (add_lanes_spec _ _ _ Hadd Hc0) as (Hc & Hdom & Hn).
  split; [done |]. split.
  - intros u. rewrite Hdom, empty_adjacency_lookup.
    case_bool_decide as Hu; split; [done | eauto | | done].
    intros [x Hx]. done.
  - intros u w. rewrite Hn. split; [| by right].
    intros [(ns & Hu & Hw) | ?]; [| done].
    rewrite empty_adjacency_lookup in Hu. case_bool_decide; [| done].
    injection Hu as <-. by apply elem_of_nil in Hw.
Qed.

Lemma walk_ext (E E' : Z -> Z -> Prop) a b p :
  (∀ u v, E u v -> E' u v) -> walk E a b p -> walk E' a b p.
Proof. intros H. induction 1; econstructor; eauto. Qed.

Lemma free_step_none adj u v : free_step adj ∅ u v ↔ neighbour adj u v.
Proof. unfold free_step. split; [by intros [? _] | intros ?; split; [done | set_solver]]. Qed.


Lemma walk_last_step E a b p : walk E a b p -> b = a ∨ ∃ c, E c b.
Proof. destruct 1; [by left | right; eauto]. Qed.

Lemma line_graph_init :
  Nav.init Scenario.line_vertices Scenario.line_lanes = Ok Scenario.line_graph.
Proof. vm_compute. reflexivity. Qed.

(** C2, as amended: when the destination is occupied and differs from the
    start, [find_shortest_path] from a vertex of the graph returns [None]. *)
Theorem occupied_destination_unreachable (vs : list Vertex) (ls : list Lane)
    (g : NavGraph) (start end_ : Z) (occupied : list Z) :
  Nav.init vs ls = Ok g ->
  0 ≤ start < Z.of_nat (length vs) ->
  end_ ∈ occupied ->
  start ≠ end_ ->
  find_shortest_path g start (Some end_) (Some occupied) = Ok None.
Proof.
  intros Hinit Hstart Hocc Hne.
  destruct (init_spec _ _ _ Hinit) as (_ & _ & Hclosed & Hdom & _).
  pose proof (find_shortest_path_spec g start (Some end_) (Some occupied) Hclosed
                (proj2 (Hdom start) Hstart)) as Hspec.
  destruct (find_shortest_path g start (Some end_) (Some occupied)) as [[p|]|e];
    [| done | done].
  destruct Hspec as (x & [= <-] & Hw & _).
  apply walk_last_step in Hw as [-> | (c & _ & Hfree)]; [done |].
  exfalso. apply Hfree. simpl. by apply elem_of_list_to_set.
Qed.

Lemma occupied_destination_unreachable_witness :
  find_shortest_path Scenario.line_graph 0 (Some 1) (Some [1]) = Ok None.
Proof.
  apply (occupied_destination_unreachable Scenario.line_vertices Scenario.line_lanes).
  - exact line_graph_init.
  - simpl. lia.
  - apply list_elem_of_singleton. reflexivity.
  - discriminate.
Defined.

(** C2, as stated, fails when the occupied destination is the start itself:
    the trivial path is returned without looking at the occupied set. *)
Lemma occupied_destination_counterexample :
  (0 : Z) ∈ [0 : Z] ∧
  find_shortest_path Scenario.line_graph 0 (Some 0) (Some [0]) = Ok (Some [0]).
Proof. split; [apply list_elem_of_singleton; reflexivity | reflexivity]. Qed.

(** C3: with nothing occupied, the search from a vertex [a] returns a walk
    along lanes to [b] whose number of edges is the distance from [a] to [b]
    whenever some walk exists, and [None] when none does. *)
Theorem bfs_optimality (vs : list Vertex) (ls : list Lane) (g : NavGraph)
    (a b : Z) (occupied_vertices : option (list Z)) :
  Nav.init vs ls = Ok g ->
  0 ≤ a < Z.of_nat (length vs) ->
  occupied_vertices = None ∨ occupied_vertices = Some [] ->
  ((∃ q, walk (lane_between ls) a b q) ->
   ∃ p, find_shortest_path g a (Some b) occupied_vertices = Ok (Some p) ∧
        walk (lane_between ls) a b p ∧
        distance (lane_between ls) a b (length p - 1)) ∧
  ((¬ ∃ q, walk (lane_between ls) a b q) ->
   find_shortest_path g a (Some b) occupied_vertices = Ok None).
Proof.
  intros Hinit Ha Hocc.
  destruct (init_spec _ _ _ Hinit) as (_ & _ & Hclosed & Hdom & Hnb).
  assert (occupied_set occupied_vertices = ∅) as Hset by (by destruct Hocc as [-> | ->]).
  assert (∀ u v, free_step (adjacency_list g) (occupied_set occupied_vertices) u v
                 ↔ lane_between ls u v) as Hstep.
  { intros u v. rewrite Hset, free_step_none. apply Hnb. }
  pose proof (find_shortest_path_spec g a (Some b) occupied_vertices Hclosed
                (proj2 (Hdom a) Ha)) as Hspec.
  destruct (find_shortest_path g a (Some b) occupied_vertices) as [[p|]|e];
    [| | done].
  - destruct Hspec as (x & [= <-] & Hw & Hmin).
    assert (walk (lane_between ls) a b p) as Hw'.
    { eapply walk_ext; [| exact Hw]. intros u v. apply Hstep. }
    split.
    + intros _. exists p. split; [done |]. split; [done |].
      pose proof (walk_length_pos _ _ _ _ Hw') as Hpos. split.
      * exists p. split; [done | lia].
      * intros q Hq.
        assert (length p ≤ length q)%nat; [| lia].
        apply Hmin. eapply walk_ext; [| exact Hq]. intros u v. apply Hstep.
    + intros Hno. exfalso. apply Hno. by exists p.
  - split; [| done].
    intros [q Hq]. exfalso. apply (Hspec b q eq_refl).
    eapply walk_ext; [| exact Hq]. intros u v. apply Hstep.
Qed.

Lemma bfs_optimality_witness :
  ∃ p, find_shortest_path Scenario.line_graph 0 (Some 2) None = Ok (Some p) ∧
       walk (lane_between Scenario.line_lanes) 0 2 p ∧
       distance (lane_between Scenario.line_lanes) 0 2 (length p - 1).
Proof.
  apply (bfs_optimality Scenario.line_vertices Scenario.line_lanes Scenario.line_graph
           0 2 None line_graph_init).
  - simpl. lia.
  - left. reflexivity.
  - exists [0; 1; 2]. apply (walk_step _ _ 1 2 [0; 1]).
    + apply (walk_step _ _ 0 1 [0]); [constructor |].
      exists None. left. apply elem_of_cons. left. reflexivity.
    + exists None. left. apply elem_of_cons. right. apply elem_of_cons. left.
      reflexivity.
Defined.

End BfsFacts.

(** ** The orchestrator *)

Module FleetFacts.

Import Traffic Bot Fleet FleetInv.

Lemma dict_get_elem_of {A : Type} (d : list (Z * A)) (k : Z) (v : A) :
  dict_get d k = Some v -> (k, v) ∈ d.
Proof.
  induction d as [|[k' v'] d IH]; simpl; [done |].
  destruct (Z.eqb_spec k' k) as [-> | Hne].
  - intros [= ->]. apply elem_of_cons. by left.
  - intros H. apply elem_of_cons. right. by apply IH.
Qed.

Lemma dict_set_fresh {A : Type} (d : list (Z * A)) (k : Z) (v : A) :
  dict_get d k = None -> dict_set d k v = d ++ [(k, v)].
Proof.
  induction d as [|[k' v'] d IH]; simpl; [done |].
  destruct (Z.eqb_spec k' k) as [-> | Hne]; [done |].
  intros H. by rewrite IH.
Qed.

Lemma dict_get_set_eq {A : Type} (d : list (Z * A)) (k : Z) (v : A) :
  dict_get (dict_set d k v) k = Some v.
Proof.
  induction d as [|[k' v'] d IH]; simpl.
  - by rewrite Z.eqb_refl.
  - destruct (Z.eqb_spec k' k) as [-> | Hne]; simpl.
    + by rewrite Z.eqb_refl.
    + destruct (Z.eqb_spec k' k); [done | apply IH].
Qed.

Lemma dict_set_keys {A : Type} (d : list (Z * A)) (k : Z) (v : A) :
  is_Some (dict_get d k) -> (dict_set d k v).*1 = d.*1.
Proof.
  induction d as [|[k' v'] d IH]; simpl; [by intros [] |].
  destruct (Z.eqb_spec k' k) as [-> | Hne]; simpl; [done |].
  intros H. f_equal. by apply IH.
Qed.

Lemma ids_below_fresh (fm : FleetManager) :
  ids_below fm -> dict_get (robots fm) (next_robot_id fm) = None.
Proof.
  intros H. destruct (dict_get _ _) as [r|] eqn:E; [| done].
  apply dict_get_elem_of in E. unfold ids_below in H.
  rewrite Forall_forall in H. specialize (H _ E). simpl in H. lia.
Qed.

Lemma ids_below_init (g : Nav.NavGraph) : ids_below (Fleet.init g).
Proof. constructor. Qed.

(** C6: [assign_task] for an unknown robot id, or for a robot that is
    charging, returns failure and the orchestrator state it was called on:
    the robot's status, path and destination and the ledger are untouched. *)
Theorem assign_task_refused (fm : FleetManager) (robot_id destination : Z) :
  dict_get (robots fm) robot_id = None ∨
  (∃ r, dict_get (robots fm) robot_id = Some r ∧ status r = CHARGING) ->
  assign_task fm robot_id destination = Ok (false, fm).
Proof.
  unfold assign_task. intros [-> | (r & -> & Hr)]; [done |].
  by rewrite bool_decide_eq_true_2.
Qed.

Lemma assign_task_refused_witness :
  assign_task Scenario.charging_fleet 0 2 = Ok (false, Scenario.charging_fleet) ∧
  assign_task Scenario.charging_fleet 5 2 = Ok (false, Scenario.charging_fleet).
Proof.
  split.
  - apply assign_task_refused. right. eexists. split; reflexivity.
  - apply assign_task_refused. left. reflexivity.
Defined.

(** C7: in a state whose robots all have ids below the id counter,
    [spawn_robot] at a vertex index out of range, or at a vertex held by a
    robot of the collection, returns no robot and the state unchanged
    (collection, counter and ledger); a successful spawn returns a fresh
    [IDLE] robot whose id is the old counter, appends it to the collection,
    advances the counter by one and records the robot as holder of the
    vertex, leaving every other ledger entry as it was; and a spawn at an
    unheld vertex in range succeeds. *)
Theorem spawn_robot_atomic (fm : FleetManager) (vertex_id : Z) :
  ids_below fm ->
  ((vertex_id < 0 ∨ Z.of_nat (length (Nav.vertices (nav_graph fm))) ≤ vertex_id ∨
    (∃ h, holds_vertex (traffic_manager fm) h vertex_id ∧
          is_Some (dict_get (robots fm) h))) ->
   spawn_robot fm vertex_id = (None, fm)) ∧
  (∀ robot fm', spawn_robot fm vertex_id = (Some robot, fm') ->
     robot = Bot.init (next_robot_id fm) vertex_id ∧
     status robot = IDLE ∧
     id robot = next_robot_id fm ∧
     dict_get (robots fm) (id robot) = None ∧
     robots fm' = robots fm ++ [(id robot, robot)] ∧
     next_robot_id fm' = next_robot_id fm + 1 ∧
     ids_below fm' ∧
     holds_vertex (traffic_manager fm') (id robot) vertex_id ∧
     lane_occupancy (traffic_manager fm') = lane_occupancy (traffic_manager fm) ∧
     (∀ v, v ≠ vertex_id ->
        vertex_occupancy (traffic_manager fm') !! v
        = vertex_occupancy (traffic_manager fm) !! v)) ∧
  (0 ≤ vertex_id < Z.of_nat (length (Nav.vertices (nav_graph fm))) ->
   vertex_occupancy (traffic_manager fm) !! vertex_id = None ->
   ∃ robot fm', spawn_robot fm vertex_id = (Some robot, fm')).
Proof.
  intros Hids. pose proof (ids_below_fresh fm Hids) as Hfresh.
  unfold spawn_robot. split; [| split].
  - intros [Hlt | [Hge | (h & Hh & Hrob)]].
    + by rewrite (proj2 (Z.ltb_lt _ _) Hlt).
    + rewrite (proj2 (Z.geb_le _ _) Hge). by rewrite orb_true_r.
    + destruct (_ || _); [done |].
      assert (h ≠ next_robot_id fm) as Hne.
      { intros ->. rewrite Hfresh in Hrob. by destruct Hrob. }
      rewrite (TrafficFacts.request_vertex_denied _ _ h _ Hh) by congruence.
      simpl. by destruct fm.
  - intros robot fm'. destruct (_ || _); [done |].
    unfold request_vertex.
    destruct (vertex_occupancy (traffic_manager fm) !! vertex_id) as [h|] eqn:Hv.
    + destruct (Z.eqb_spec h (next_robot_id fm)) as [-> | Hne]; simpl; [| done].
      intros [= <- <-]. simpl. rewrite dict_set_fresh by done.
      repeat split; try done.
      * unfold ids_below in *. simpl. apply Forall_app. split.
        -- eapply Forall_impl; [exact Hids |]. intros kr Hkr. simpl in *. lia.
        -- constructor; [simpl; lia | constructor].
      * unfold holds_vertex. simpl. apply lookup_insert_eq.
      * intros v Hne. simpl. by rewrite lookup_insert_ne.
    + simpl. intros [= <- <-]. simpl. rewrite dict_set_fresh by done.
      repeat split; try done.
      * unfold ids_below in *. simpl. apply Forall_app. split.
        -- eapply Forall_impl; [exact Hids |]. intros kr Hkr. simpl in *. lia.
        -- constructor; [simpl; lia | constructor].
      * unfold holds_vertex. simpl. apply lookup_insert_eq.
      * intros v Hne. simpl. by rewrite lookup_insert_ne.
  - intros [Hlo Hhi] Hfree.
    rewrite (proj2 (Z.ltb_ge _ _) Hlo).
    assert ((vertex_id >=? Z.of_nat (length (Nav.vertices (nav_graph fm)))) = false) as ->.
    { rewrite Z.geb_leb. apply Z.leb_gt. lia. }
    simpl. unfold request_vertex. rewrite Hfree. simpl. eauto.
Qed.

Lemma spawn_robot_atomic_witness :
  spawn_robot Scenario.line_spawned 0 = (None, Scenario.line_spawned) ∧
  spawn_robot Scenario.line_spawned 3 = (None, Scenario.line_spawned) ∧
  ∃ robot fm', spawn_robot Scenario.line_spawned 1 = (Some robot, fm').
Proof.
  assert (ids_below Scenario.line_spawned) as Hids.
  { constructor; [vm_compute; reflexivity | constructor]. }
  destruct (spawn_robot_atomic Scenario.line_spawned 0 Hids) as [Hheld _].
  destruct (spawn_robot_atomic Scenario.line_spawned 3 Hids) as [Hrange _].
  destruct (spawn_robot_atomic Scenario.line_spawned 1 Hids) as (_ & _ & Hfree).
  split; [| split].
  - apply Hheld. right. right. exists 0. split; [reflexivity | by eexists].
  - apply Hrange. right. left. vm_compute. intros H. discriminate H.
  - apply Hfree; [| reflexivity].
    vm_compute. split; [intros H; discriminate H | reflexivity].
Defined.

(** *** Movement of one robot *)

Lemma release_lane_vertices tm r f t :
  vertex_occupancy (release_lane tm r f t) = vertex_occupancy tm.
Proof.
  unfold release_lane. destruct (lane_occupancy tm !! _) as [h|]; [| done].
  by destruct (h =? r).
Qed.

Lemma release_vertex_not_held tm r v : ¬ holds_vertex (release_vertex tm r v) r v.
Proof.
  unfold holds_vertex, release_vertex.
  destruct (vertex_occupancy tm !! v) as [h|] eqn:Hv.
  - destruct (Z.eqb_spec h r) as [-> | Hne]; simpl.
    + by rewrite lookup_delete_eq.
    + rewrite Hv. congruence.
  - by rewrite Hv.
Qed.

Lemma release_vertex_sub tm r v w h :
  vertex_occupancy (release_vertex tm r v) !! w = Some h ->
  vertex_occupancy tm !! w = Some h.
Proof.
  unfold release_vertex. destruct (vertex_occupancy tm !! v) as [h'|] eqn:Hv; [| done].
  destruct (h' =? r); [| done]. simpl.
  intros H. apply lookup_delete_Some in H. by destruct H.
Qed.

Lemma release_vertex_other tm r v w :
  w ≠ v -> vertex_occupancy (release_vertex tm r v) !! w = vertex_occupancy tm !! w.
Proof.
  intros Hne. unfold release_vertex.
  destruct (vertex_occupancy tm !! v) as [h'|] eqn:Hv; [| done].
  destruct (h' =? r); [| done]. simpl. by rewrite lookup_delete_ne.
Qed.

Lemma release_vertex_held tm r v :
  holds_vertex tm r v -> vertex_occupancy (release_vertex tm r v) !! v = None.
Proof.
  unfold holds_vertex, release_vertex. intros ->. rewrite Z.eqb_refl. simpl.
  apply lookup_delete_eq.
Qed.

Lemma occupied_vertices_spec tm v :
  v ∈ get_occupied_vertices tm ↔ is_Some (vertex_occupancy tm !! v).
Proof.
  unfold get_occupied_vertices. rewrite list_elem_of_fmap. split.
  - intros ([k h] & -> & Hin). apply elem_of_map_to_list in Hin. simpl. eauto.
  - intros [h Hh]. exists (v, h). split; [done |]. by apply elem_of_map_to_list.
Qed.

(** [update_position] on a moving robot either snaps it to the head of its
    path or leaves it where it is; it touches neither id, path nor status. *)
Lemma update_position_moving g r dt next rest b r1 :
  status r = MOVING -> path r = next :: rest ->
  update_position g r dt = Ok (b, r1) ->
  id r1 = id r ∧ path r1 = path r ∧ status r1 = status r ∧
  ((current_vertex r1 = next ∧ previous_vertex r1 = Some (current_vertex r)) ∨
   (current_vertex r1 = current_vertex r ∧ previous_vertex r1 = previous_vertex r)).
Proof.
  intros Hs Hp. unfold update_position. rewrite Hs, Hp. simpl.
  destruct (_distance_to_next g r) as [d|e]; [| done]. simpl.
  destruct (_ <=? _)%float.
  - intros [= <- <-]. simpl. repeat split; try done. by left.
  - destruct (py_div _ _) as [q|e]; [| done]. simpl.
    intros [= <- <-]. simpl. repeat split; try done. by right.
Qed.

(** C10: when the head of the path is not the robot's own vertex, the
    vertex request is granted (the vertex is free or already the robot's)
    and the lane is held by another robot, [_process_movement] returns the
    robot unmoved in status [WAITING]; the ledger it returns records the
    robot as holder of the head vertex, and is otherwise the ledger it was
    given: the granted vertex hold is not rolled back. *)
Theorem partial_acquisition_retained (g : Nav.NavGraph) (tm : TrafficManager)
    (robot : Robot) (delta_time : float) (next : Z) (rest : list Z) (holder : Z) :
  path robot = next :: rest ->
  next ≠ current_vertex robot ->
  vertex_occupancy tm !! next = None ∨ holds_vertex tm (id robot) next ->
  holds_lane tm holder (current_vertex robot) next ->
  holder ≠ id robot ->
  ∃ tm',
    _process_movement g tm robot delta_time = Ok (set_status robot WAITING, tm') ∧
    status (set_status robot WAITING) = WAITING ∧
    current_vertex (set_status robot WAITING) = current_vertex robot ∧
    path (set_status robot WAITING) = path robot ∧
    progress (set_status robot WAITING) = progress robot ∧
    holds_vertex tm' (id robot) next ∧
    lane_occupancy tm' = lane_occupancy tm ∧
    (∀ v, v ≠ next -> vertex_occupancy tm' !! v = vertex_occupancy tm !! v).
Proof.
  intros Hp Hne Hfree Hlane Hother.
  unfold _process_movement, _can_move_to. rewrite Hp.
  rewrite (proj2 (Z.eqb_neq _ _) Hne).
  rewrite TrafficFacts.request_vertex_granted by tauto. simpl.
  rewrite (TrafficFacts.request_lane_denied _ (id robot) holder); [| done | congruence].
  simpl. eexists. split; [reflexivity |]. simpl.
  repeat split; try done.
  - unfold holds_vertex. simpl. apply lookup_insert_eq.
  - intros v Hv. by rewrite lookup_insert_ne.
Qed.

Lemma partial_acquisition_retained_witness :
  ∃ tm',
    _process_movement Scenario.line_graph Scenario.blocked_ledger
      Scenario.blocked_robot 1%float
    = Ok (set_status Scenario.blocked_robot WAITING, tm') ∧
    status (set_status Scenario.blocked_robot WAITING) = WAITING ∧
    current_vertex (set_status Scenario.blocked_robot WAITING) = 0 ∧
    path (set_status Scenario.blocked_robot WAITING) = [1] ∧
    progress (set_status Scenario.blocked_robot WAITING) = 0%float ∧
    holds_vertex tm' 0 1 ∧
    lane_occupancy tm' = lane_occupancy Scenario.blocked_ledger ∧
    (∀ v, v ≠ 1 ->
       vertex_occupancy tm' !! v = vertex_occupancy Scenario.blocked_ledger !! v).
Proof.
  apply (partial_acquisition_retained Scenario.line_graph Scenario.blocked_ledger
           Scenario.blocked_robot 1%float 1 [] 7).
  - reflexivity.
  - discriminate.
  - left. reflexivity.
  - reflexivity.
  - discriminate.
Defined.

(** One robot's step of the movement pass that completes a task: when
    [_process_movement] brings a moving robot whose path is its last vertex
    to that vertex, the robot ends in status [TASK_COMPLETE] with an empty
    path and no longer holds the vertex; the vertex is absent from the
    occupied vertices of the ledger the step returns whenever the robot moved
    to it from a different vertex, and if it is still occupied there then it
    is held by another robot that held it before, on the vertex the robot
    was already standing on. *)
Lemma process_movement_completion (g : Nav.NavGraph) (tm : TrafficManager)
    (robot : Robot) (delta_time : float) (next : Z) (robot' : Robot)
    (tm' : TrafficManager) :
  status robot = MOVING ->
  path robot = [next] ->
  _process_movement g tm robot delta_time = Ok (robot', tm') ->
  current_vertex robot' = next ->
  status robot' = TASK_COMPLETE ∧
  path robot' = [] ∧
  id robot' = id robot ∧
  ¬ holds_vertex tm' (id robot') next ∧
  (next ≠ current_vertex robot -> next ∉ get_occupied_vertices tm') ∧
  (∀ h, holds_vertex tm' h next ->
        h ≠ id robot ∧ holds_vertex tm h next ∧ next = current_vertex robot).
Proof.
  intros Hs Hp Hrun Hreached.
  unfold _process_movement in Hrun. rewrite Hp in Hrun.
  destruct (_can_move_to tm robot next) as [allowed tm1] eqn:Hcan.
  destruct allowed; simpl in Hrun.
  2:{ injection Hrun as <- <-. simpl in Hreached.
      unfold _can_move_to in Hcan.
      destruct (Z.eqb_spec next (current_vertex robot)); [done | congruence]. }
  destruct (update_position g robot delta_time) as [[b r1]|e] eqn:Hup; [| done].
  simpl in Hrun.
  destruct (update_position_moving _ _ _ _ _ _ _ Hs Hp Hup)
    as (Hid & Hpath & Hstatus & Hpos).
  destruct (Z.eqb_spec (current_vertex r1) next) as [Hcur | Hcur].
  2:{ injection Hrun as <- <-. done. }
  unfold _handle_vertex_reached in Hrun. rewrite Hpath, Hp in Hrun.
  simpl in Hrun. injection Hrun as <- <-. simpl. rewrite Hid, Hcur.
  split; [done |]. split; [done |]. split; [done |].
  split; [apply release_vertex_not_held |].
  unfold _can_move_to in Hcan.
  destruct (Z.eqb_spec next (current_vertex robot)) as [Hstay | Hmove].
  - (* the stay case: nothing was acquired *)
    injection Hcan as <-. split; [done |].
    intros h Hh. unfold holds_vertex in *.
    split.
    + intros ->. by apply release_vertex_not_held in Hh.
    + split; [| done]. apply release_vertex_sub in Hh.
      destruct (previous_vertex r1); [| done].
      apply release_vertex_sub in Hh. by rewrite release_lane_vertices in Hh.
  - (* a real move: the vertex was acquired for the robot *)
    destruct (request_vertex tm (id robot) next) as [vg tmv] eqn:Hrv.
    destruct vg; simpl in Hcan; [| done].
    destruct (request_lane tmv (id robot) (current_vertex robot) next)
      as [lg tml] eqn:Hrl.
    destruct lg; simpl in Hcan; [| done]. injection Hcan as <-.
    assert (vertex_occupancy tml !! next = Some (id robot)) as Hheld.
    { assert (vertex_occupancy tml = vertex_occupancy tmv) as ->.
      { revert Hrl. unfold request_lane.
        destruct (lane_occupancy tmv !! _) as [h|]; [destruct (negb _) |];
          by intros [= <-]. }
      revert Hrv. unfold request_vertex.
      destruct (vertex_occupancy tm !! next) as [h|]; [destruct (negb _) |];
        intros [= <-]; try done; apply lookup_insert_eq. }
    destruct Hpos as [[_ Hprev] | [Hsame _]]; [| congruence].
    rewrite Hprev.
    assert (vertex_occupancy
              (release_vertex
                 (release_vertex
                    (release_lane tml (id robot) (current_vertex robot) next)
                    (id robot) (current_vertex robot))
                 (id robot) next) !! next = None) as Hgone.
    { apply release_vertex_held. unfold holds_vertex.
      rewrite release_vertex_other by done. by rewrite release_lane_vertices. }
    split.
    + intros _ Hin. apply occupied_vertices_spec in Hin. rewrite Hgone in Hin.
      by destruct Hin.
    + intros h Hh. unfold holds_vertex in Hh. by rewrite Hgone in Hh.
Qed.

(** C4, as stated, fails in a state reached through the orchestrator's own
    operations: robot 0 completes a task at vertex 1 (which releases the
    vertex), robot 1 is spawned there, and robot 0 is sent to vertex 1
    again.  The next tick completes robot 0's task on the spot, and vertex 1
    is still occupied, by robot 1. *)
Lemma completion_counterexample :
  dict_get (robots Scenario.revisit_assigned) 0 = Some Scenario.revisit_robot ∧
  status Scenario.revisit_robot = MOVING ∧
  path Scenario.revisit_robot = [1] ∧
  _process_movement Scenario.line_graph
    (traffic_manager Scenario.revisit_assigned) Scenario.revisit_robot 1%float
  = Ok (Scenario.revisit_done, traffic_manager Scenario.revisit_assigned) ∧
  current_vertex Scenario.revisit_done = 1 ∧
  status Scenario.revisit_done = TASK_COMPLETE ∧
  path Scenario.revisit_done = [] ∧
  get_occupied_vertices (traffic_manager Scenario.revisit_assigned) = [1] ∧
  update_robots Scenario.revisit_assigned 1%float
  = Ok (Scenario.tick Scenario.revisit_assigned) ∧
  dict_get (robots (Scenario.tick Scenario.revisit_assigned)) 0
  = Some Scenario.revisit_done ∧
  get_blocked_vertices (Scenario.tick Scenario.revisit_assigned) = [1].
Proof. repeat split; vm_compute; reflexivity. Qed.

(** *** The line scenario *)

(** C5, as amended: on the line 0-1-2 with unit lanes and no speed limit,
    robot A (id 0) spawned at vertex 0 and assigned destination 2 gets the
    path [0, 1, 2], and its start vertex is released at once.  With
    deltaTime 1.0, the first tick consumes the start vertex of the path and
    leaves A at vertex 0; the second tick leaves A at vertex 1 with
    previous vertex 0, vertex 0 unheld and vertex 1 held by A; the third tick
    leaves A at vertex 2 in status TASK_COMPLETE with vertex 1 released, and
    vertex 2 released as well (the ledger is empty). *)
Theorem end_to_end_scenario :
  spawn_robot (Fleet.init Scenario.line_graph) 0
  = (Some (Bot.init 0 0), Scenario.line_spawned) ∧
  assign_task Scenario.line_spawned 0 2 = Ok (true, Scenario.line_assigned) ∧
  (path <$> dict_get (robots Scenario.line_assigned) 0) = Some [0; 1; 2] ∧
  vertex_occupancy (traffic_manager Scenario.line_assigned) !! 0 = None ∧
  (* first tick *)
  update_robots Scenario.line_assigned 1%float = Ok Scenario.line_tick1 ∧
  (current_vertex <$> dict_get (robots Scenario.line_tick1) 0) = Some 0 ∧
  (path <$> dict_get (robots Scenario.line_tick1) 0) = Some [1; 2] ∧
  get_robot_status Scenario.line_tick1 0 = Some MOVING ∧
  get_blocked_vertices Scenario.line_tick1 = [] ∧
  (* second tick *)
  update_robots Scenario.line_tick1 1%float = Ok Scenario.line_tick2 ∧
  (current_vertex <$> dict_get (robots Scenario.line_tick2) 0) = Some 1 ∧
  (previous_vertex <$> dict_get (robots Scenario.line_tick2) 0) = Some (Some 0) ∧
  (path <$> dict_get (robots Scenario.line_tick2) 0) = Some [2] ∧
  get_robot_status Scenario.line_tick2 0 = Some MOVING ∧
  vertex_occupancy (traffic_manager Scenario.line_tick2) !! 0 = None ∧
  holds_vertex (traffic_manager Scenario.line_tick2) 0 1 ∧
  get_blocked_lanes Scenario.line_tick2 = [] ∧
  (* third tick *)
  update_robots Scenario.line_tick2 1%float = Ok Scenario.line_tick3 ∧
  (current_vertex <$> dict_get (robots Scenario.line_tick3) 0) = Some 2 ∧
  (previous_vertex <$> dict_get (robots Scenario.line_tick3) 0) = Some (Some 1) ∧
  (path <$> dict_get (robots Scenario.line_tick3) 0) = Some [] ∧
  get_robot_status Scenario.line_tick3 0 = Some TASK_COMPLETE ∧
  vertex_occupancy (traffic_manager Scenario.line_tick3) !! 1 = None ∧
  vertex_occupancy (traffic_manager Scenario.line_tick3) !! 2 = None ∧
  get_blocked_vertices Scenario.line_tick3 = [] ∧
  get_blocked_lanes Scenario.line_tick3 = [].
Proof. repeat split; vm_compute; reflexivity. Qed.

(** C5, as stated, fails: after the first tick A is still at vertex 0, after
    the second it is at vertex 1 and still moving, and when it completes at
    vertex 2 it does not hold that vertex. *)
Lemma end_to_end_counterexample :
  update_robots Scenario.line_assigned 1%float = Ok Scenario.line_tick1 ∧
  (current_vertex <$> dict_get (robots Scenario.line_tick1) 0) = Some 0 ∧
  update_robots Scenario.line_tick1 1%float = Ok Scenario.line_tick2 ∧
  (current_vertex <$> dict_get (robots Scenario.line_tick2) 0) = Some 1 ∧
  get_robot_status Scenario.line_tick2 0 = Some MOVING ∧
  update_robots Scenario.line_tick2 1%float = Ok Scenario.line_tick3 ∧
  get_robot_status Scenario.line_tick3 0 = Some TASK_COMPLETE ∧
  (current_vertex <$> dict_get (robots Scenario.line_tick3) 0) = Some 2 ∧
  vertex_occupancy (traffic_manager Scenario.line_tick3) !! 2 = None.
Proof. repeat split; vm_compute; reflexivity. Qed.

(** *** The two passes of a tick *)

Lemma walk_in_graph adj occupied a b p :
  Walks.closed adj -> is_Some (adj !! a) ->
  Walks.walk (Walks.free_step adj occupied) a b p ->
  Forall (fun v => is_Some (adj !! v)) p.
Proof.
  intros Hclosed Ha. induction 1 as [|b c p Hw IH [(ns & Hns & Hin) _]].
  - by constructor.
  - apply Forall_app. split; [done |]. constructor; [| constructor].
    by eapply Hclosed.
Qed.

(** On a graph built by [Nav.init], the search from a vertex of the graph
    raises nothing, and a path it returns stays inside the graph. *)
Lemma find_shortest_path_returns g start end_ occupied_vertices :
  Walks.closed (Nav.adjacency_list g) ->
  is_Some (Nav.adjacency_list g !! start) ->
  ∃ found,
    Nav.find_shortest_path g start end_ occupied_vertices = Ok found ∧
    ∀ p, found = Some p ->
         Forall (fun v => is_Some (Nav.adjacency_list g !! v)) p.
Proof.
  intros Hclosed Hstart.
  pose proof (BfsFacts.find_shortest_path_spec g start end_ occupied_vertices
                Hclosed Hstart) as Hspec.
  destruct (Nav.find_shortest_path g start end_ occupied_vertices)
    as [[p|]|e]; [| | done].
  - exists (Some p). split; [done |]. intros p' [= <-].
    destruct Hspec as (x & _ & Hw & _). by eapply walk_in_graph.
  - exists None. split; [done |]. intros p' [=].
Qed.

Lemma update_position_ok g r dt b r1 :
  robot_ok g r -> update_position g r dt = Ok (b, r1) -> robot_ok g r1.
Proof.
  intros [Hcur Hpath]. unfold update_position.
  destruct (negb _ || _); [by intros [= <- <-] |].
  destruct (path r) as [|next rest] eqn:Hp; [done |].
  destruct (_distance_to_next g r) as [d|e]; [| done]. simpl.
  destruct (_ <=? _)%float.
  - intros [= <- <-]. split; simpl; [by inversion Hpath | done].
  - destruct (py_div _ _) as [q|e]; [| done]. simpl.
    intros [= <- <-]. split; simpl; done.
Qed.

Lemma process_movement_ok g tm r dt r' tm' :
  robot_ok g r -> _process_movement g tm r dt = Ok (r', tm') -> robot_ok g r'.
Proof.
  intros Hok. unfold _process_movement.
  destruct (path r) as [|next rest] eqn:Hp; [done |].
  destruct (_can_move_to tm r next) as [[] tm1]; [| by intros [= <- <-]].
  destruct (update_position g r dt) as [[b r1]|e] eqn:Hup; [| done]. simpl.
  pose proof (update_position_ok _ _ _ _ _ Hok Hup) as [Hcur1 Hpath1].
  destruct (current_vertex r1 =? next); [| by intros [= <- <-]].
  unfold _handle_vertex_reached.
  destruct (path r1) as [|x rest1] eqn:Hp1; [done |].
  inversion Hpath1; subst.
  destruct (bool_decide (rest1 = [])); intros [= <- <-]; by split.
Qed.

Lemma movement_pass_ok g dt : ∀ rs tm rs' tm',
  robots_ok g rs -> movement_pass g dt rs tm = Ok (rs', tm') -> robots_ok g rs'.
Proof.
  induction rs as [|[k r] rs IH]; intros tm rs' tm' Hok; simpl.
  - by intros [= <- <-].
  - inversion Hok as [|? ? Hr Hrs]; subst. simpl in Hr.
    destruct (if _ && _ then _ else _) as [[r1 tm1]|e] eqn:Hstep; [| done]. simpl.
    destruct (movement_pass g dt rs tm1) as [[rs1 tm2]|e] eqn:Hrest; [| done].
    simpl. intros [= <- <-]. constructor; [| by eapply IH].
    simpl. destruct (_ && _); [by eapply process_movement_ok |].
    by injection Hstep as <- <-.
Qed.

(** The recovery pass returns, and treats every robot by itself: a waiting
    robot with a path gets the outcome of a fresh search from its vertex to
    its stored destination against the ledger's occupied vertices; every
    other robot is left as it is. *)
Lemma recovery_pass_spec g tm : ∀ rs,
  Walks.closed (Nav.adjacency_list g) -> robots_ok g rs ->
  ∃ rs', recovery_pass g tm rs = Ok rs' ∧
    ∀ (i : nat) k r, rs !! i = Some (k, r) ->
      if bool_decide (status r = WAITING) && negb (bool_decide (path r = []))
      then ∃ found,
             Nav.find_shortest_path g (current_vertex r) (destination_vertex r)
               (Some (get_occupied_vertices tm)) = Ok found ∧
             rs' !! i = Some (k, recovered r found)
      else rs' !! i = Some (k, r).
Proof.
  intros rs Hclosed. induction rs as [|[k r] rs IH]; intros Hok; simpl.
  - exists []. split; [done |]. intros i k r Hi. by rewrite lookup_nil in Hi.
  - inversion Hok as [|? ? [Hcur Hpath] Hrs]; subst. simpl in *.
    destruct (IH Hrs) as (rs' & -> & Hrs').
    destruct (find_shortest_path_returns g (current_vertex r) (destination_vertex r)
                (Some (get_occupied_vertices tm)) Hclosed Hcur) as (found & Hfound & _).
    destruct (bool_decide (status r = WAITING) && negb (bool_decide (path r = [])))
      eqn:Hwait.
    + unfold _check_waiting_robot. rewrite Hfound. simpl.
      exists ((k, recovered r found) :: rs'). split.
      { by destruct found as [[|v p]|]. }
      intros [|i] k' r' Hi; simpl in *.
      * injection Hi as <- <-. rewrite Hwait. by exists found.
      * by apply Hrs'.
    + simpl. exists ((k, r) :: rs'). split; [done |].
      intros [|i] k' r' Hi; simpl in *.
      * injection Hi as <- <-. by rewrite Hwait.
      * by apply Hrs'.
Qed.

End FleetFacts.

(** ** Kinematics of a robot *)

Module KinematicFacts.

Import Bot Kinematics.

(** *** Signs in the binary64 specification *)

Lemma iter_pos_preserves {A : Type} (P : A -> Prop) (f : A -> A) :
  (∀ x, P x -> P (f x)) -> ∀ n x, P x -> P (SpecFloat.iter_pos f n x).
Proof.
  intros Hf. induction n as [n IH | n IH |]; intros x Hx; simpl; auto.
Qed.

Lemma shr_1_nonneg mrs : 0 ≤ shr_m mrs -> 0 ≤ shr_m (shr_1 mrs).
Proof.
  destruct mrs as [m r s]. destruct m as [|p|p]; simpl; [lia | | lia].
  intros _. destruct p; simpl; lia.
Qed.

Lemma shr_fexp_nonneg m e l :
  0 ≤ m -> 0 ≤ shr_m (shr_fexp prec emax m e l).1.
Proof.
  intros Hm. unfold shr_fexp, shr.
  assert (0 ≤ shr_m (shr_record_of_loc m l)) as Hrec by (by destruct l as [|[]]).
  destruct (_ - _)%Z; simpl; [done | | done].
  by apply (iter_pos_preserves (fun x => 0 ≤ shr_m x)), Hrec; apply shr_1_nonneg.
Qed.

Lemma round_nearest_even_nonneg m l : 0 ≤ m -> 0 ≤ round_nearest_even m l.
Proof.
  intros Hm. destruct l as [|[]]; simpl; try lia. destruct (Z.even m); lia.
Qed.

(** Rounding a non-negative mantissa gives a zero, a finite number or an
    infinity of the requested sign, never NaN. *)
Lemma binary_round_aux_sign sx mx ex lx :
  0 ≤ mx ->
  binary_round_aux prec emax sx mx ex lx = S754_zero sx ∨
  binary_round_aux prec emax sx mx ex lx = S754_infinity sx ∨
  ∃ m e, binary_round_aux prec emax sx mx ex lx = S754_finite sx m e.
Proof.
  intros Hm. unfold binary_round_aux.
  pose proof (shr_fexp_nonneg mx ex lx Hm) as H1.
  destruct (shr_fexp prec emax mx ex lx) as [mrs' e']. simpl in H1.
  pose proof (shr_fexp_nonneg _ e' loc_Exact
                (round_nearest_even_nonneg _ (loc_of_shr_record mrs') H1)) as H2.
  destruct (shr_fexp prec emax _ e' loc_Exact) as [mrs'' e'']. simpl in H2.
  destruct (shr_m mrs'') as [|p|p]; [by left | | lia].
  destruct (_ <=? _)%Z; [right; right; eauto | right; by left].
Qed.

Lemma sf_nonneg_zero_le s f : sf_nonneg f -> SFleb (S754_zero s) f = true.
Proof. unfold sf_nonneg. by destruct f as [| [] | | [] ? ?]. Qed.

Lemma leb_zero_spec x : (0 <=? x)%float = true ↔ sf_nonneg (Prim2SF x).
Proof. unfold sf_nonneg. by rewrite FloatAxioms.leb_spec. Qed.

Lemma eqb_zero_spec d : (d =? 0)%float = true -> ∃ s, Prim2SF d = S754_zero s.
Proof.
  rewrite FloatAxioms.eqb_spec. change (Prim2SF 0) with (S754_zero false).
  destruct (Prim2SF d) as [s | [] | | [] m e]; try discriminate. eauto.
Qed.

Lemma is_finite_spec x :
  PrimFloat.is_finite x = true ->
  (∃ s, Prim2SF x = S754_zero s) ∨ (∃ s m e, Prim2SF x = S754_finite s m e).
Proof.
  unfold PrimFloat.is_finite, PrimFloat.is_nan, PrimFloat.is_infinity.
  rewrite !FloatAxioms.eqb_spec, FloatAxioms.abs_spec.
  change (Prim2SF infinity) with (S754_infinity false).
  destruct (Prim2SF x) as [s | s | | s m e]; simpl; try discriminate; eauto 6.
  destruct s; discriminate.
Qed.

Lemma mul_by_zero q d :
  PrimFloat.is_finite q = true -> (d =? 0)%float = true ->
  ∃ s, Prim2SF (q * d) = S754_zero s.
Proof.
  intros Hq Hd. rewrite FloatAxioms.mul_spec.
  destruct (eqb_zero_spec d Hd) as [sd ->].
  destruct (is_finite_spec q Hq) as [[s ->] | (s & m & e & ->)]; simpl; eauto.
Qed.

Lemma mul_nonneg x y :
  nonneg_finite x = true -> nonneg_finite y = true -> (0 <=? x * y)%float = true.
Proof.
  unfold nonneg_finite. intros [Hx Fx]%andb_true_iff [Hy Fy]%andb_true_iff.
  apply leb_zero_spec. apply leb_zero_spec in Hx, Hy. rewrite FloatAxioms.mul_spec.
  destruct (is_finite_spec x Fx) as [[sx Ex] | (sx & mx & ex & Ex)];
    destruct (is_finite_spec y Fy) as [[sy Ey] | (sy & my & ey & Ey)];
    rewrite Ex, Ey in *; unfold sf_nonneg in *; simpl.
  - done.
  - done.
  - done.
  - destruct sx; [done |]. destruct sy; [done |]. simpl.
    destruct (binary_round_aux_sign false (Z.pos (mx * my)) (ex + ey) loc_Exact)
      as [-> | [-> | (m & e & ->)]]; done.
Qed.

Lemma py_min_nonneg a b :
  nonneg_finite a = true -> nonneg_finite b = true -> nonneg_finite (py_min a b) = true.
Proof. unfold py_min. by destruct (b <? a)%float. Qed.

(** A square root is never below zero: it is positive unless it is a zero
    or NaN. *)
Lemma sqrt_sign x :
  (sqrt x =? 0)%float = false ->
  (0 <? sqrt x)%float = true ∨ PrimFloat.is_nan (sqrt x) = true.
Proof.
  unfold PrimFloat.is_nan. rewrite !FloatAxioms.eqb_spec, FloatAxioms.ltb_spec, FloatAxioms.sqrt_spec.
  change (Prim2SF 0) with (S754_zero false).
  destruct (Prim2SF x) as [s | [] | | [] m e]; simpl; try discriminate; auto.
  unfold SF64sqrt, SFsqrt.
  destruct (SFsqrt_core_binary prec emax (Z.pos m) e) as [[mz ez] lz] eqn:Hcore.
  assert (0 ≤ mz) as Hmz.
  { revert Hcore. unfold SFsqrt_core_binary.
    match goal with |- context [Z.sqrtrem ?n] =>
      pose proof (Z.sqrtrem_sqrt n) as Hq; pose proof (Z.sqrt_nonneg n) as Hn;
      destruct (Z.sqrtrem n) as [q rm] end.
    cbn [fst] in Hq. intros [= <- _ _]. rewrite Hq. exact Hn. }
  destruct (binary_round_aux_sign false mz ez lz Hmz)
    as [-> | [-> | (m' & e' & ->)]]; simpl; auto; discriminate.
Qed.

(** *** The degenerate edge *)

Lemma snap_when_zero q d distance :
  PrimFloat.is_finite q = true -> (d =? 0)%float = true ->
  (0 <=? distance)%float = true ->
  (q * d <=? distance)%float = true.
Proof.
  intros Hq Hd Hdist. destruct (mul_by_zero q d Hq Hd) as [s Hs].
  rewrite FloatAxioms.leb_spec, Hs. apply sf_nonneg_zero_le.
  by apply leb_zero_spec.
Qed.

Lemma effective_speed_nonneg g r next :
  nonneg_finite (speed r) = true ->
  nonneg_finite (Nav.get_lane_speed_limit g (current_vertex r) next) = true ->
  nonneg_finite (effective_speed g r next) = true.
Proof.
  intros Hs Hl. unfold effective_speed.
  destruct (_ =? 0)%float; [done | by apply py_min_nonneg].
Qed.

Lemma py_index_error {A : Type} (l : list A) i e :
  py_index l i = Raise e -> e = IndexError.
Proof.
  unfold py_index. destruct (_ && _); [| by intros [= <-]].
  destruct (l !! _); [done | by intros [= <-]].
Qed.

Lemma py_square_error x e : py_square x = Raise e -> e = OverflowError.
Proof.
  unfold py_square. destruct (PrimFloat.is_nan x); [done |].
  destruct (PrimFloat.is_infinity x); [done |].
  destruct (PrimFloat.is_infinity _); [by intros [= <-] | done].
Qed.

(** The edge length raises nothing but the errors of indexing and squaring,
    and it is a square root. *)
Lemma distance_to_next_cases g r next rest :
  path r = next :: rest ->
  (∃ s, _distance_to_next g r = Ok (sqrt s)) ∨
  _distance_to_next g r = Raise IndexError ∨
  _distance_to_next g r = Raise OverflowError.
Proof.
  intros Hp. unfold _distance_to_next, Nav.get_vertex_position. rewrite Hp.
  destruct (py_index (Nav.vertices g) (current_vertex r)) as [v1|e1] eqn:E1; simpl.
  2:{ apply py_index_error in E1 as ->. auto. }
  destruct (py_index (Nav.vertices g) next) as [v2|e2] eqn:E2; simpl.
  2:{ apply py_index_error in E2 as ->. auto. }
  destruct (py_square _) as [dx2|e3] eqn:E3; simpl.
  2:{ apply py_square_error in E3 as ->. auto. }
  destruct (py_square (_ - _.2)%float) as [dy2|e4] eqn:E4; simpl.
  2:{ apply py_square_error in E4 as ->. auto. }
  left. eauto.
Qed.

(** C8, as amended: for a moving robot with a path, a finite deltaTime that
    is not negative, a finite nominal speed and lane speed limit that are
    not negative, and a finite remaining fraction [1 - progress],
    [update_position] never raises [ZeroDivisionError]; on an edge of length
    zero it takes the snap branch; and the progress-accumulation branch,
    with its division by the edge length, is entered only when the edge
    length is not zero: it is then strictly positive, or NaN. *)
Theorem degenerate_edge_safe (g : Nav.NavGraph) (r : Robot) (delta_time : float)
    (next : Z) (rest : list Z) :
  status r = MOVING ->
  path r = next :: rest ->
  nonneg_finite delta_time = true ->
  nonneg_finite (speed r) = true ->
  nonneg_finite (Nav.get_lane_speed_limit g (current_vertex r) next) = true ->
  PrimFloat.is_finite (1 - progress r) = true ->
  update_position g r delta_time ≠ Raise ZeroDivisionError ∧
  (∀ d, _distance_to_next g r = Ok d -> (d =? 0)%float = true ->
        update_position g r delta_time = Ok (true, snapped r next)) ∧
  (∀ d, _distance_to_next g r = Ok d ->
        ((1 - progress r) * d <=? delta_time * effective_speed g r next)%float = false ->
        (d =? 0)%float = false ∧
        ((0 <? d)%float = true ∨ PrimFloat.is_nan d = true)).
Proof.
  intros Hs Hp Hdt Hspeed Hlimit Hprog.
  pose proof (mul_nonneg _ _ Hdt (effective_speed_nonneg g r next Hspeed Hlimit))
    as Hdist.
  assert (∀ d, (d =? 0)%float = true ->
            ((1 - progress r) * d <=? delta_time * effective_speed g r next)%float = true)
    as Hsnap.
  { intros d Hd. by apply snap_when_zero. }
  unfold update_position. rewrite Hs, Hp. simpl.
  destruct (distance_to_next_cases g r next rest Hp) as [[s Hd] | [Hd | Hd]];
    rewrite Hd; simpl.
  - split; [| split].
    + destruct ((1 - progress r) * sqrt s <=? _)%float eqn:Hcmp; [intros [=] |].
      unfold py_div. destruct (sqrt s =? 0)%float eqn:Hz; [| simpl; intros [=]].
      by rewrite (Hsnap _ Hz) in Hcmp.
    + intros d [= <-] Hz. rewrite (Hsnap _ Hz). unfold snapped.
      by rewrite Hs, Hp.
    + intros d [= <-] Hcmp.
      destruct (sqrt s =? 0)%float eqn:Hz.
      * by rewrite (Hsnap _ Hz) in Hcmp.
      * split; [done |]. by apply sqrt_sign.
  - split; [intros [=] |]. split; intros d [=].
  - split; [intros [=] |]. split; intros d [=].
Qed.

Lemma degenerate_edge_safe_witness :
  update_position Scenario.twin_graph Scenario.knot_robot 1%float
    ≠ Raise ZeroDivisionError ∧
  (∀ d, _distance_to_next Scenario.twin_graph Scenario.knot_robot = Ok d ->
        (d =? 0)%float = true ->
        update_position Scenario.twin_graph Scenario.knot_robot 1%float
        = Ok (true, snapped Scenario.knot_robot 1)) ∧
  (∀ d, _distance_to_next Scenario.twin_graph Scenario.knot_robot = Ok d ->
        ((1 - progress Scenario.knot_robot) * d
         <=? 1 * effective_speed Scenario.twin_graph Scenario.knot_robot 1)%float
        = false ->
        (d =? 0)%float = false ∧
        ((0 <? d)%float = true ∨ PrimFloat.is_nan d = true)).
Proof.
  apply (degenerate_edge_safe Scenario.twin_graph Scenario.knot_robot 1%float 1 []);
    reflexivity.
Defined.

(** C8, as stated, fails on a lane whose configured speed limit is
    negative: with deltaTime 1.0 the covered distance is negative, the edge
    of length zero does not take the snap branch, and the division raises. *)
Lemma degenerate_edge_counterexample :
  Nav.init Scenario.knot_vertices Scenario.knot_lanes = Ok Scenario.knot_graph ∧
  (0 <=? 1)%float = true ∧
  status Scenario.knot_robot = MOVING ∧
  path Scenario.knot_robot = [1] ∧
  _distance_to_next Scenario.knot_graph Scenario.knot_robot = Ok 0%float ∧
  effective_speed Scenario.knot_graph Scenario.knot_robot 1 = (-1)%float ∧
  update_position Scenario.knot_graph Scenario.knot_robot 1%float
  = Raise ZeroDivisionError.
Proof. repeat split; vm_compute; reflexivity. Qed.

End KinematicFacts.

(** ** More on the reservation ledger *)

Module LedgerFacts.

Import Traffic TrafficInv.

Lemma normalize_lane_canonical (f t : Z) : canonical (_normalize_lane f t).
Proof. unfold canonical, _normalize_lane. simpl. lia. Qed.

Lemma normalize_lane_swap (f t : Z) : _normalize_lane t f = _normalize_lane f t.
Proof. unfold _normalize_lane. by rewrite Z.min_comm, Z.max_comm. Qed.

Lemma request_vertex_free (tm : TrafficManager) (a v : Z) :
  vertex_occupancy tm !! v = None ->
  request_vertex tm a v
  = (true, {| lane_occupancy := lane_occupancy tm;
              vertex_occupancy := <[v := a]> (vertex_occupancy tm) |}).
Proof. unfold request_vertex. by intros ->. Qed.

Lemma request_lane_free (tm : TrafficManager) (a f t : Z) :
  lane_occupancy tm !! _normalize_lane f t = None ->
  request_lane tm a f t
  = (true, {| lane_occupancy := <[_normalize_lane f t := a]> (lane_occupancy tm);
              vertex_occupancy := vertex_occupancy tm |}).
Proof. unfold request_lane. by intros ->. Qed.

(** X1: a request for a free vertex or lane is granted, and the release by
    the same robot that follows gives back the ledger as it was before the
    request; a lane can be released in the direction opposite to the one it
    was requested in. *)
Theorem request_release_round_trip (tm : TrafficManager) (a v f t : Z) :
  (vertex_occupancy tm !! v = None ->
   (request_vertex tm a v).1 = true ∧
   release_vertex (request_vertex tm a v).2 a v = tm) ∧
  (lane_occupancy tm !! _normalize_lane f t = None ->
   (request_lane tm a f t).1 = true ∧
   release_lane (request_lane tm a f t).2 a f t = tm ∧
   release_lane (request_lane tm a f t).2 a t f = tm).
Proof.
  split.
  - intros Hfree. rewrite (request_vertex_free _ _ _ Hfree). simpl.
    split; [done |]. unfold release_vertex. simpl.
    rewrite lookup_insert_eq, Z.eqb_refl, delete_insert_id by done.
    by destruct tm.
  - intros Hfree. rewrite (request_lane_free _ _ _ _ Hfree). simpl.
    split; [done |].
    assert (∀ x y, _normalize_lane x y = _normalize_lane f t ->
              release_lane
                {| lane_occupancy := <[_normalize_lane f t := a]> (lane_occupancy tm);
                   vertex_occupancy := vertex_occupancy tm |} a x y = tm) as Hrel.
    { intros x y Hxy. unfold release_lane. simpl. rewrite Hxy.
      rewrite lookup_insert_eq, Z.eqb_refl, delete_insert_id by done.
      by destruct tm. }
    split; apply Hrel; [done | apply normalize_lane_swap].
Qed.

Lemma request_vertex_frame (tm : TrafficManager) (a b v w : Z) :
  b ≠ a ->
  vertex_occupancy (request_vertex tm a v).2 !! w = Some b
  ↔ vertex_occupancy tm !! w = Some b.
Proof.
  intros Hne. unfold request_vertex.
  destruct (vertex_occupancy tm !! v) as [h|] eqn:Hv.
  - destruct (Z.eqb_spec h a) as [-> | Hh]; simpl; [| done].
    destruct (decide (w = v)) as [-> | Hw].
    + rewrite lookup_insert_eq, Hv. split; congruence.
    + by rewrite lookup_insert_ne.
  - simpl. destruct (decide (w = v)) as [-> | Hw].
    + rewrite lookup_insert_eq, Hv. split; congruence.
    + by rewrite lookup_insert_ne.
Qed.

Lemma request_lane_frame (tm : TrafficManager) (a b f t : Z) (k : Z * Z) :
  b ≠ a ->
  lane_occupancy (request_lane tm a f t).2 !! k = Some b
  ↔ lane_occupancy tm !! k = Some b.
Proof.
  intros Hne. unfold request_lane.
  destruct (lane_occupancy tm !! _normalize_lane f t) as [h|] eqn:Hv.
  - destruct (Z.eqb_spec h a) as [-> | Hh]; simpl; [| done].
    destruct (decide (k = _normalize_lane f t)) as [-> | Hw].
    + rewrite lookup_insert_eq, Hv. split; congruence.
    + by rewrite lookup_insert_ne.
  - simpl. destruct (decide (k = _normalize_lane f t)) as [-> | Hw].
    + rewrite lookup_insert_eq, Hv. split; congruence.
    + by rewrite lookup_insert_ne.
Qed.

Lemma request_vertex_lanes (tm : TrafficManager) (a v : Z) :
  lane_occupancy (request_vertex tm a v).2 = lane_occupancy tm.
Proof.
  unfold request_vertex. destruct (vertex_occupancy tm !! v) as [h|]; [| done].
  by destruct (h =? a).
Qed.

Lemma request_lane_vertices (tm : TrafficManager) (a f t : Z) :
  vertex_occupancy (request_lane tm a f t).2 = vertex_occupancy tm.
Proof.
  unfold request_lane. destruct (lane_occupancy tm !! _) as [h|]; [| done].
  by destruct (h =? a).
Qed.

Lemma release_vertex_frame (tm : TrafficManager) (a b v w : Z) :
  b ≠ a ->
  vertex_occupancy (release_vertex tm a v) !! w = Some b
  ↔ vertex_occupancy tm !! w = Some b.
Proof.
  intros Hne. unfold release_vertex.
  destruct (vertex_occupancy tm !! v) as [h|] eqn:Hv; [| done].
  destruct (Z.eqb_spec h a) as [-> | Hh]; simpl; [| done].
  destruct (decide (w = v)) as [-> | Hw].
  - rewrite lookup_delete_eq, Hv. split; congruence.
  - by rewrite lookup_delete_ne.
Qed.

Lemma release_lane_frame (tm : TrafficManager) (a b f t : Z) (k : Z * Z) :
  b ≠ a ->
  lane_occupancy (release_lane tm a f t) !! k = Some b
  ↔ lane_occupancy tm !! k = Some b.
Proof.
  intros Hne. unfold release_lane.
  destruct (lane_occupancy tm !! _normalize_lane f t) as [h|] eqn:Hv; [| done].
  destruct (Z.eqb_spec h a) as [-> | Hh]; simpl; [| done].
  destruct (decide (k = _normalize_lane f t)) as [-> | Hw].
  - rewrite lookup_delete_eq, Hv. split; congruence.
  - by rewrite lookup_delete_ne.
Qed.

Lemma release_vertex_lanes (tm : TrafficManager) (a v : Z) :
  lane_occupancy (release_vertex tm a v) = lane_occupancy tm.
Proof.
  unfold release_vertex. destruct (vertex_occupancy tm !! v) as [h|]; [| done].
  by destruct (h =? a).
Qed.

Lemma release_lane_keeps_vertices (tm : TrafficManager) (a f t : Z) :
  vertex_occupancy (release_lane tm a f t) = vertex_occupancy tm.
Proof.
  unfold release_lane. destruct (lane_occupancy tm !! _) as [h|]; [| done].
  by destruct (h =? a).
Qed.

(** X2: whatever a robot asks of the ledger, granted or not, the holds of
    every other robot are the same after the call as before: no call takes
    a vertex or a lane away from another robot, and none gives one to it. *)
Theorem foreign_holds_untouched (tm : TrafficManager) (c : call) (b : Z) :
  b ≠ caller c ->
  (∀ v, holds_vertex (perform tm c) b v ↔ holds_vertex tm b v) ∧
  (∀ k, lane_occupancy (perform tm c) !! k = Some b
        ↔ lane_occupancy tm !! k = Some b).
Proof.
  intros Hne. unfold holds_vertex.
  destruct c as [a v | a f t | a v | a f t]; simpl in *; split; intros x.
  - by apply request_vertex_frame.
  - by rewrite request_vertex_lanes.
  - by rewrite request_lane_vertices.
  - by apply request_lane_frame.
  - by apply release_vertex_frame.
  - by rewrite release_vertex_lanes.
  - by rewrite release_lane_keeps_vertices.
  - by apply release_lane_frame.
Qed.

Lemma foreign_holds_untouched_witness :
  (∀ v, holds_vertex (perform (run [RequestVertex 7 1]) (ReleaseVertex 0 1)) 7 v
        ↔ holds_vertex (run [RequestVertex 7 1]) 7 v) ∧
  (∀ k, lane_occupancy (perform (run [RequestVertex 7 1]) (ReleaseVertex 0 1)) !! k
        = Some 7
        ↔ lane_occupancy (run [RequestVertex 7 1]) !! k = Some 7).
Proof.
  apply (foreign_holds_untouched (run [RequestVertex 7 1]) (ReleaseVertex 0 1) 7).
  simpl. lia.
Defined.

Lemma perform_canonical (tm : TrafficManager) (c : call) :
  (∀ k a, lane_occupancy tm !! k = Some a -> canonical k) ->
  ∀ k a, lane_occupancy (perform tm c) !! k = Some a -> canonical k.
Proof.
  intros Hall k b. destruct c as [a v | a f t | a v | a f t]; simpl.
  - rewrite request_vertex_lanes. apply Hall.
  - unfold request_lane.
    destruct (lane_occupancy tm !! _normalize_lane f t) as [h|] eqn:Hv.
    + destruct (h =? a); simpl; [| apply Hall].
      destruct (decide (k = _normalize_lane f t)) as [-> | Hk].
      * intros _. apply normalize_lane_canonical.
      * rewrite lookup_insert_ne by done. apply Hall.
    + simpl. destruct (decide (k = _normalize_lane f t)) as [-> | Hk].
      * intros _. apply normalize_lane_canonical.
      * rewrite lookup_insert_ne by done. apply Hall.
  - rewrite release_vertex_lanes. apply Hall.
  - unfold release_lane.
    destruct (lane_occupancy tm !! _normalize_lane f t) as [h|] eqn:Hv; [| apply Hall].
    destruct (h =? a); simpl; [| apply Hall].
    intros H. apply lookup_delete_Some in H as [_ H]. by eapply Hall.
Qed.

Lemma run_canonical (calls : list call) :
  ∀ k a, lane_occupancy (run calls) !! k = Some a -> canonical k.
Proof.
  unfold run.
  assert (∀ tm, (∀ k a, lane_occupancy tm !! k = Some a -> canonical k) ->
            ∀ k a, lane_occupancy (fold_left perform calls tm) !! k = Some a ->
                   canonical k) as Hgen.
  { induction calls as [|c calls IH]; intros tm Htm; simpl; [done |].
    apply IH. by apply perform_canonical. }
  apply Hgen. intros k a. simpl. by rewrite lookup_empty.
Qed.

(** X3: in every ledger state reached by requests and releases, the list of
    occupied vertices names each held vertex once and nothing else, and the
    list of occupied lanes names each held lane once, by its canonical key
    (smaller endpoint first) whichever direction it was requested in. *)
Theorem occupied_lists_spec (calls : list call) :
  let tm := run calls in
  NoDup (get_occupied_vertices tm) ∧
  (∀ v, v ∈ get_occupied_vertices tm ↔ ∃ a, holds_vertex tm a v) ∧
  NoDup (get_occupied_lanes tm) ∧
  (∀ f t, (∃ a, holds_lane tm a f t) ↔ _normalize_lane f t ∈ get_occupied_lanes tm) ∧
  (∀ k, k ∈ get_occupied_lanes tm -> canonical k ∧ _normalize_lane k.1 k.2 = k).
Proof.
  intros tm. unfold get_occupied_vertices, get_occupied_lanes, holds_vertex, holds_lane.
  split; [apply NoDup_fst_map_to_list |]. split.
  { intros v. rewrite list_elem_of_fmap. split.
    - intros ([k h] & -> & Hin). apply elem_of_map_to_list in Hin. eauto.
    - intros [h Hh]. exists (v, h). split; [done |]. by apply elem_of_map_to_list. }
  split; [apply NoDup_fst_map_to_list |]. split.
  { intros f t. rewrite list_elem_of_fmap. split.
    - intros [h Hh]. exists (_normalize_lane f t, h). split; [done |].
      by apply elem_of_map_to_list.
    - intros ([k h] & Hk & Hin). apply elem_of_map_to_list in Hin.
      simpl in Hk. subst k. eauto. }
  intros k Hin. apply list_elem_of_fmap in Hin as ([k' h] & -> & Hin).
  apply elem_of_map_to_list in Hin. simpl.
  pose proof (run_canonical calls _ _ Hin) as Hc. split; [done |].
  unfold canonical in Hc. destruct k' as [x y]. simpl in *.
  unfold _normalize_lane. f_equal; lia.
Qed.

(** X4: every ledger call is idempotent: made a second time in a row it
    changes nothing further, and a request gets the same answer again. *)
Theorem ledger_calls_idempotent (tm : TrafficManager) (c : call) :
  perform (perform tm c) c = perform tm c ∧
  (∀ a v, (request_vertex (request_vertex tm a v).2 a v).1 = (request_vertex tm a v).1) ∧
  (∀ a f t, (request_lane (request_lane tm a f t).2 a f t).1 = (request_lane tm a f t).1).
Proof.
  assert (∀ a v, request_vertex (request_vertex tm a v).2 a v = request_vertex tm a v)
    as Hrv.
  { intros a v. unfold request_vertex at 2 3.
    destruct (vertex_occupancy tm !! v) as [h|] eqn:Hv.
    - destruct (Z.eqb_spec h a) as [-> | Hh]; simpl.
      + unfold request_vertex. simpl. rewrite lookup_insert_eq, Z.eqb_refl. simpl.
        by rewrite insert_insert_eq.
      + unfold request_vertex. rewrite Hv.
        by destruct (Z.eqb_spec h a).
    - simpl. unfold request_vertex. simpl. rewrite lookup_insert_eq, Z.eqb_refl. simpl.
      by rewrite insert_insert_eq. }
  assert (∀ a f t, request_lane (request_lane tm a f t).2 a f t = request_lane tm a f t)
    as Hrl.
  { intros a f t. unfold request_lane at 2 3.
    destruct (lane_occupancy tm !! _normalize_lane f t) as [h|] eqn:Hv.
    - destruct (Z.eqb_spec h a) as [-> | Hh]; simpl.
      + unfold request_lane. simpl. rewrite lookup_insert_eq, Z.eqb_refl. simpl.
        by rewrite insert_insert_eq.
      + unfold request_lane. rewrite Hv.
        by destruct (Z.eqb_spec h a).
    - simpl. unfold request_lane. simpl. rewrite lookup_insert_eq, Z.eqb_refl. simpl.
      by rewrite insert_insert_eq. }
  split; [| split].
  - destruct c as [a v | a f t | a v | a f t]; simpl.
    + by rewrite Hrv.
    + by rewrite Hrl.
    + unfold release_vertex at 2 3.
      destruct (vertex_occupancy tm !! v) as [h|] eqn:Hv.
      * destruct (Z.eqb_spec h a) as [-> | Hh].
        -- unfold release_vertex. simpl. by rewrite lookup_delete_eq.
        -- unfold release_vertex. rewrite Hv. by destruct (Z.eqb_spec h a).
      * unfold release_vertex. by rewrite Hv.
    + unfold release_lane at 2 3.
      destruct (lane_occupancy tm !! _normalize_lane f t) as [h|] eqn:Hv.
      * destruct (Z.eqb_spec h a) as [-> | Hh].
        -- unfold release_lane. simpl. by rewrite lookup_delete_eq.
        -- unfold release_lane. rewrite Hv. by destruct (Z.eqb_spec h a).
      * unfold release_lane. by rewrite Hv.
  - intros a v. by rewrite Hrv.
  - intros a f t. by rewrite Hrl.
Qed.

End LedgerFacts.

(** ** More on the graph model *)

Module GraphFacts.

Import Nav Walks NavSpec.

(** *** Construction *)

Lemma adj_append_lookup adj k v adj' u :
  adj_append adj k v = Ok adj' ->
  adj' !! u = (fun ns => if bool_decide (k = u) then ns ++ [v] else ns) <$> adj !! u.
Proof.
  unfold adj_append. destruct (adj !! k) as [ns|] eqn:Hk; [| done].
  intros [= <-]. case_bool_decide as Hu.
  - subst u. by rewrite lookup_insert_eq, Hk.
  - rewrite lookup_insert_ne by done. by destruct (adj !! u).
Qed.

Lemma add_lanes_lookup : ∀ ls adj adj' u,
  add_lanes ls adj = Ok adj' ->
  adj' !! u = (fun ns => ns ++ partners ls u) <$> adj !! u.
Proof.
  induction ls as [|[[a b] p] ls IH]; intros adj adj' u; simpl.
  - intros [= <-]. destruct (adj !! u) as [ns|]; simpl; [| done].
    by rewrite app_nil_r.
  - destruct (adj_append adj a b) as [adj1|] eqn:H1; [| done]. simpl.
    destruct (adj_append adj1 b a) as [adj2|] eqn:H2; [| done]. simpl.
    intros Hadd. rewrite (IH _ _ u Hadd).
    rewrite (adj_append_lookup _ _ _ _ u H2), (adj_append_lookup _ _ _ _ u H1).
    destruct (adj !! u) as [ns|]; simpl; [| done].
    f_equal. unfold partners. simpl.
    do 2 case_bool_decide; simpl; by rewrite <- ?app_assoc.
Qed.

(** X6: in a graph built by the constructor, the neighbour list of a vertex
    holds the other endpoints of its lanes in the order of the lane list
    (a lane from a vertex to itself contributes the vertex twice), and
    nothing but the vertex indices has a neighbour list. *)
Theorem adjacency_list_in_lane_order (vs : list Vertex) (ls : list Lane)
    (g : NavGraph) (u : Z) :
  Nav.init vs ls = Ok g ->
  adjacency_list g !! u
  = if bool_decide (0 ≤ u < Z.of_nat (length vs)) then Some (partners ls u) else None.
Proof.
  unfold Nav.init, _build_adjacency_list.
  destruct (add_lanes ls (empty_adjacency (length vs))) as [adj|] eqn:Hadd; [| done].
  simpl. intros [= <-]. simpl.
  rewrite (add_lanes_lookup _ _ _ u Hadd), BfsFacts.empty_adjacency_lookup.
  by case_bool_decide.
Qed.

Lemma adjacency_list_in_lane_order_witness :
  adjacency_list Scenario.line_graph !! 1
  = if bool_decide (0 ≤ 1 < Z.of_nat (length Scenario.line_vertices))
    then Some (partners Scenario.line_lanes 1) else None.
Proof.
  apply (adjacency_list_in_lane_order Scenario.line_vertices Scenario.line_lanes).
  exact BfsFacts.line_graph_init.
Defined.

Lemma adj_append_cases adj k v :
  (is_Some (adj !! k) ∧ ∃ adj', adj_append adj k v = Ok adj' ∧
     ∀ u, is_Some (adj' !! u) ↔ is_Some (adj !! u)) ∨
  (adj !! k = None ∧ adj_append adj k v = Raise KeyError).
Proof.
  unfold adj_append. destruct (adj !! k) as [ns|] eqn:Hk; [left | by right].
  split; [eauto |]. eexists. split; [done |]. intros u.
  destruct (decide (k = u)) as [<- | Hne].
  - rewrite lookup_insert_eq, Hk. split; eauto.
  - by rewrite lookup_insert_ne.
Qed.

Lemma add_lanes_cases (n : nat) : ∀ ls adj,
  (∀ u, is_Some (adj !! u) ↔ 0 ≤ u < Z.of_nat n) ->
  if forallb (lane_in_range n) ls
  then ∃ adj', add_lanes ls adj = Ok adj'
  else add_lanes ls adj = Raise KeyError.
Proof.
  induction ls as [|[[a b] p] ls IH]; intros adj Hdom; simpl; [eauto |].
  destruct (adj_append_cases adj a b) as [(Ha & adj1 & -> & Hdom1) | [Ha ->]]; simpl.
  - apply Hdom in Ha.
    destruct (adj_append_cases adj1 b a) as [(Hb & adj2 & -> & Hdom2) | [Hb ->]]; simpl.
    + apply Hdom1, Hdom in Hb.
      replace ((0 <=? a) && (a <? Z.of_nat n) && (0 <=? b) && (b <? Z.of_nat n))
        with true by (symmetry; rewrite !andb_true_iff; lia).
      simpl. apply IH. intros u. by rewrite Hdom2, Hdom1.
    + replace ((0 <=? a) && (a <? Z.of_nat n) && (0 <=? b) && (b <? Z.of_nat n))
        with false; [done |].
      symmetry. apply not_true_iff_false. rewrite !andb_true_iff. intros [[[? ?] ?] ?].
      assert (is_Some (adj1 !! b)) as [x Hx]; [apply Hdom1, Hdom; lia | congruence].
  - replace ((0 <=? a) && (a <? Z.of_nat n) && (0 <=? b) && (b <? Z.of_nat n))
      with false; [done |].
    symmetry. apply not_true_iff_false. rewrite !andb_true_iff. intros [[[? ?] ?] ?].
    assert (is_Some (adj !! a)) as [x Hx]; [apply Hdom; lia | congruence].
Qed.

Lemma empty_adjacency_dom (n : nat) (u : Z) :
  is_Some (empty_adjacency n !! u) ↔ 0 ≤ u < Z.of_nat n.
Proof.
  rewrite BfsFacts.empty_adjacency_lookup.
  case_bool_decide as Hu; split; [done | eauto | | done].
  intros [x Hx]. done.
Qed.

(** X5: the constructor succeeds exactly when both endpoints of every lane
    are indices of the vertex array; a lane with an endpoint outside it
    (negative indices included) makes the construction raise [KeyError]. *)
Theorem init_needs_lanes_in_range (vs : list Vertex) (ls : list Lane) :
  if forallb (lane_in_range (length vs)) ls
  then ∃ g, Nav.init vs ls = Ok g ∧ vertices g = vs ∧ lanes g = ls
  else Nav.init vs ls = Raise KeyError.
Proof.
  unfold Nav.init, _build_adjacency_list.
  pose proof (add_lanes_cases (length vs) ls (empty_adjacency (length vs))) as H.
  destruct (forallb _ ls).
  - destruct H as [adj ->]; [apply empty_adjacency_dom |].
    simpl. eauto.
  - rewrite H; [done | apply empty_adjacency_dom].
Qed.

(** *** Lane properties *)

Lemma joins_sym (a b : Z) (lane : Lane) : joins a b lane = joins b a lane.
Proof. destruct lane as [[x y] p]. unfold joins. apply orb_comm. Qed.

Lemma extract_lane_properties_lookup (a b : Z) :
  ∀ (ls : list Lane) (m : gmap (Z * Z) LaneProps),
  fold_left
    (fun properties (lane : Lane) =>
       let '(from_idx, to_idx, p) := lane in
       let props := match p with Some q => q | None => mkLaneProps None end in
       <[(to_idx, from_idx) := props]> (<[(from_idx, to_idx) := props]> properties))
    ls m !! (a, b)
  = match last (filter (fun lane => joins a b lane = true) ls) with
    | Some lane => Some (match lane.2 with Some q => q | None => mkLaneProps None end)
    | None => m !! (a, b)
    end.
Proof.
  induction ls as [|[[x y] p] ls IH]; intros m; [done |].
  simpl fold_left. rewrite IH. rewrite filter_cons.
  destruct (decide (joins a b (x, y, p) = true)) as [Hj | Hj].
  - rewrite last_cons. destruct (last _) as [l|]; [done |]. simpl.
    unfold joins in Hj. apply orb_true_iff in Hj.
    destruct Hj as [[->%Z.eqb_eq ->%Z.eqb_eq]%andb_true_iff
                   | [->%Z.eqb_eq ->%Z.eqb_eq]%andb_true_iff].
    + destruct (decide (a = b)) as [-> | Hne]; [by rewrite lookup_insert_eq |].
      rewrite lookup_insert_ne by congruence. by rewrite lookup_insert_eq.
    + by rewrite lookup_insert_eq.
  - destruct (last _) as [l|]; [done |].
    unfold joins in Hj. apply not_true_iff_false, orb_false_iff in Hj as [H1 H2].
    apply andb_false_iff in H1, H2. rewrite !Z.eqb_neq in H1, H2.
    rewrite !lookup_insert_ne; [done | |]; intros [= ? ?]; lia.
Qed.

(** X7: the speed limit of a graph built by the constructor is the one of
    the last lane of the lane list that joins the two vertices, in either
    direction, and 0 when no lane joins them or that lane has none; so it
    is the same in both directions of travel. *)
Theorem lane_speed_limit_of_last_lane (vs : list Vertex) (ls : list Lane)
    (g : NavGraph) (a b : Z) :
  Nav.init vs ls = Ok g ->
  get_lane_speed_limit g a b
  = match last (filter (fun lane => joins a b lane = true) ls) with
    | Some lane => lane_limit lane
    | None => 0%float
    end ∧
  get_lane_speed_limit g a b = get_lane_speed_limit g b a.
Proof.
  unfold Nav.init. destruct (_build_adjacency_list vs ls) as [adj|]; [| done].
  simpl. intros [= <-].
  assert (∀ x y,
            get_lane_speed_limit
              {| vertices := vs; lanes := ls; adjacency_list := adj;
                 lane_properties := _extract_lane_properties ls |} x y
            = match last (filter (fun lane => joins x y lane = true) ls) with
              | Some lane => lane_limit lane
              | None => 0%float
              end) as Hlim.
  { intros x y. unfold get_lane_speed_limit, _extract_lane_properties. simpl.
    rewrite extract_lane_properties_lookup, lookup_empty.
    destruct (last _) as [[[u v] [q|]]|]; done. }
  split; [apply Hlim |]. rewrite !Hlim.
  replace (filter (fun lane => joins b a lane = true) ls)
    with (filter (fun lane => joins a b lane = true) ls); [done |].
  apply list_filter_iff. intros lane. by rewrite joins_sym.
Qed.

Lemma lane_speed_limit_of_last_lane_witness :
  get_lane_speed_limit Scenario.knot_graph 0 1
  = match last (filter (fun lane => joins 0 1 lane = true) Scenario.knot_lanes) with
    | Some lane => lane_limit lane
    | None => 0%float
    end ∧
  get_lane_speed_limit Scenario.knot_graph 0 1
  = get_lane_speed_limit Scenario.knot_graph 1 0.
Proof.
  apply (lane_speed_limit_of_last_lane Scenario.knot_vertices Scenario.knot_lanes).
  vm_compute. reflexivity.
Defined.

End GraphFacts.

(** ** More on the search *)

Module SearchFacts.

Import Nav Walks NavSpec.

(** *** Walks as chains *)

Lemma chain_snoc (E : Z -> Z -> Prop) (c : Z) : ∀ p u,
  chain E u (p ++ [c]) ↔ chain E u p ∧ ∃ x, last (u :: p) = Some x ∧ E x c.
Proof.
  induction p as [|v p IH]; intros u; simpl.
  - split; [intros [H _]; eauto | by intros [_ (x & [= <-] & H)]].
  - rewrite IH. change (last (u :: v :: p)) with (last (v :: p)). tauto.
Qed.

Lemma chain_app (E : Z -> Z -> Prop) (x : Z) (l2 : list Z) : ∀ l1 u,
  chain E u (l1 ++ x :: l2) -> chain E x l2.
Proof.
  induction l1 as [|v l1 IH]; intros u; simpl; [tauto |].
  intros [_ H]. by eapply IH.
Qed.

Lemma chain_ext (E E' : Z -> Z -> Prop) :
  (∀ u v, E u v -> E' u v) -> ∀ p u, chain E u p -> chain E' u p.
Proof.
  intros HE. induction p as [|v p IH]; intros u; simpl; [done |].
  intros [H1 H2]. split; auto.
Qed.

Lemma walk_chain (E : Z -> Z -> Prop) (a b : Z) (p : list Z) :
  walk E a b p ↔ ∃ p', p = a :: p' ∧ chain E a p' ∧ last p = Some b.
Proof.
  split.
  - induction 1 as [|b c p Hw (p' & -> & Hc & Hl) Hbc].
    + by exists [].
    + exists (p' ++ [c]). split; [done |]. split.
      * apply chain_snoc. eauto.
      * apply last_snoc.
  - intros (p' & -> & Hc & Hl). revert b Hc Hl.
    induction p' as [|c p' IH] using rev_ind; intros b Hc Hl.
    + injection Hl as <-. constructor.
    + apply chain_snoc in Hc as (Hc & x & Hx & Hxc).
      change (a :: p' ++ [c]) with ((a :: p') ++ [c]) in *.
      rewrite last_snoc in Hl. injection Hl as <-.
      eapply walk_step; [| exact Hxc]. by apply IH.
Qed.

Lemma chain_lookup (E : Z -> Z -> Prop) : ∀ p u (i : nat) x y,
  chain E u p -> (u :: p) !! i = Some x -> (u :: p) !! S i = Some y -> E x y.
Proof.
  induction p as [|v p IH]; intros u i x y Hc Hx Hy.
  - destruct i; simpl in Hy; by rewrite ?lookup_nil in Hy.
  - destruct Hc as [Huv Hc]. destruct i as [|i].
    + simpl in Hx, Hy. by injection Hx as <-; injection Hy as <-.
    + by eapply (IH v i).
Qed.

(** A walk with a repeated vertex can be cut short. *)
Lemma chain_shorten (E : Z -> Z -> Prop) (b : Z) : ∀ p a,
  chain E a p -> last (a :: p) = Some b -> ¬ NoDup (a :: p) ->
  ∃ q, chain E a q ∧ last (a :: q) = Some b ∧ (length q < length p)%nat.
Proof.
  induction p as [|v p IH]; intros a Hc Hl Hdup.
  - exfalso. apply Hdup. apply NoDup_singleton.
  - destruct (decide (a ∈ v :: p)) as [Hin | Hout].
    + apply list_elem_of_split in Hin as (l1 & l2 & Heq).
      exists l2. rewrite Heq in Hc, Hl |- *. split; [by eapply chain_app |]. split.
      * change (a :: l1 ++ a :: l2) with ((a :: l1) ++ a :: l2) in Hl.
        by rewrite last_app_cons in Hl.
      * rewrite length_app. simpl. lia.
    + destruct Hc as [Hav Hc].
      destruct (IH v Hc) as (q & Hq & Hlq & Hlen); [done | |].
      * intros Hnd. apply Hdup. by constructor.
      * exists (v :: q). split; [by split |]. split; [done | simpl; lia].
Qed.

Lemma shortest_walk_NoDup (E : Z -> Z -> Prop) (a b : Z) (p : list Z) :
  walk E a b p -> (∀ q, walk E a b q -> (length p ≤ length q)%nat) -> NoDup p.
Proof.
  intros Hw Hmin. destruct (decide (NoDup p)) as [? | Hdup]; [done | exfalso].
  apply walk_chain in Hw as (p' & -> & Hc & Hl).
  destruct (chain_shorten E b p' a Hc Hl Hdup) as (q & Hq & Hlq & Hlen).
  assert (walk E a b (a :: q)) as Hwq by (apply walk_chain; eauto).
  apply Hmin in Hwq. simpl in Hwq. lia.
Qed.

(** *** The search on a graph built by the constructor *)

Lemma occupied_set_elem (occupied_vertices : option (list Z)) (v : Z) :
  v ∈ occupied_set occupied_vertices ↔ v ∈ default [] occupied_vertices.
Proof.
  destruct occupied_vertices as [l|]; simpl; [apply elem_of_list_to_set |].
  split; [set_solver | by intros ?%elem_of_nil].
Qed.

Lemma free_step_open (vs : list Vertex) (ls : list Lane) (g : NavGraph)
    (occupied_vertices : option (list Z)) (u v : Z) :
  Nav.init vs ls = Ok g ->
  free_step (adjacency_list g) (occupied_set occupied_vertices) u v
  ↔ open_step ls (default [] occupied_vertices) u v.
Proof.
  intros Hinit. destruct (BfsFacts.init_spec _ _ _ Hinit) as (_ & _ & _ & _ & Hnb).
  unfold free_step, open_step. by rewrite Hnb, occupied_set_elem.
Qed.

(** The search on a built graph, in terms of the lanes and the list of
    occupied vertices. *)
Lemma search_spec (vs : list Vertex) (ls : list Lane) (g : NavGraph)
    (start end_ : Z) (occupied_vertices : option (list Z)) :
  Nav.init vs ls = Ok g ->
  0 ≤ start < Z.of_nat (length vs) ->
  match find_shortest_path g start (Some end_) occupied_vertices with
  | Ok (Some p) =>
      walk (open_step ls (default [] occupied_vertices)) start end_ p ∧
      ∀ q, walk (open_step ls (default [] occupied_vertices)) start end_ q ->
           (length p ≤ length q)%nat
  | Ok None =>
      ∀ q, ¬ walk (open_step ls (default [] occupied_vertices)) start end_ q
  | Raise _ => False
  end.
Proof.
  intros Hinit Hstart.
  destruct (BfsFacts.init_spec _ _ _ Hinit) as (_ & _ & Hclosed & Hdom & _).
  pose proof (BfsFacts.find_shortest_path_spec g start (Some end_) occupied_vertices
                Hclosed (proj2 (Hdom start) Hstart)) as Hspec.
  destruct (find_shortest_path g start (Some end_) occupied_vertices) as [[p|]|e];
    [| | done].
  - destruct Hspec as (x & [= <-] & Hw & Hmin). split.
    + eapply BfsFacts.walk_ext; [| exact Hw].
      intros u v. by apply (free_step_open vs ls g).
    + intros q Hq. apply Hmin. eapply BfsFacts.walk_ext; [| exact Hq].
      intros u v. by apply (free_step_open vs ls g).
  - intros q Hq. apply (Hspec end_ q eq_refl).
    eapply BfsFacts.walk_ext; [| exact Hq].
    intros u v. by apply (free_step_open vs ls g).
Qed.

(** X8: on a graph built by the constructor, the search from a vertex of
    the graph raises nothing.  A path it returns starts at the start
    vertex, ends at the destination, moves along a lane at every step and
    enters no occupied vertex (the start vertex itself may be occupied), and
    no walk of that kind has fewer vertices; when it returns [None] there is
    no such walk at all. *)
Theorem search_avoids_occupied (vs : list Vertex) (ls : list Lane) (g : NavGraph)
    (start end_ : Z) (occupied_vertices : option (list Z)) :
  Nav.init vs ls = Ok g ->
  0 ≤ start < Z.of_nat (length vs) ->
  match find_shortest_path g start (Some end_) occupied_vertices with
  | Ok (Some p) =>
      head p = Some start ∧ last p = Some end_ ∧
      (∀ (i : nat) u v, p !! i = Some u -> p !! S i = Some v ->
         lane_between ls u v ∧ v ∉ default [] occupied_vertices) ∧
      (∀ q, walk (open_step ls (default [] occupied_vertices)) start end_ q ->
            (length p ≤ length q)%nat)
  | Ok None =>
      ∀ q, ¬ walk (open_step ls (default [] occupied_vertices)) start end_ q
  | Raise _ => False
  end.
Proof.
  intros Hinit Hstart.
  pose proof (search_spec vs ls g start end_ occupied_vertices Hinit Hstart) as Hspec.
  destruct (find_shortest_path g start (Some end_) occupied_vertices) as [[p|]|e];
    [| done | done].
  destruct Hspec as [Hw Hmin].
  apply walk_chain in Hw as (p' & -> & Hc & Hl).
  split; [done |]. split; [done |]. split; [| done].
  intros i u v Hu Hv.
  exact (chain_lookup (open_step ls (default [] occupied_vertices)) p' start i u v
           Hc Hu Hv).
Qed.

Lemma search_avoids_occupied_witness :
  match find_shortest_path Scenario.line_graph 0 (Some 2) (Some [0]) with
  | Ok (Some p) =>
      head p = Some 0 ∧ last p = Some 2 ∧
      (∀ (i : nat) u v, p !! i = Some u -> p !! S i = Some v ->
         lane_between Scenario.line_lanes u v ∧ v ∉ default [] (Some [0])) ∧
      (∀ q, walk (open_step Scenario.line_lanes (default [] (Some [0]))) 0 2 q ->
            (length p ≤ length q)%nat)
  | Ok None =>
      ∀ q, ¬ walk (open_step Scenario.line_lanes (default [] (Some [0]))) 0 2 q
  | Raise _ => False
  end.
Proof.
  apply (search_avoids_occupied Scenario.line_vertices Scenario.line_lanes
           Scenario.line_graph 0 2 (Some [0]) BfsFacts.line_graph_init).
  simpl. lia.
Defined.

(** X10: a path returned by the search on a built graph visits no vertex
    twice. *)
Theorem search_path_is_simple (vs : list Vertex) (ls : list Lane) (g : NavGraph)
    (start end_ : Z) (occupied_vertices : option (list Z)) (p : list Z) :
  Nav.init vs ls = Ok g ->
  0 ≤ start < Z.of_nat (length vs) ->
  find_shortest_path g start (Some end_) occupied_vertices = Ok (Some p) ->
  NoDup p.
Proof.
  intros Hinit Hstart Hfound.
  pose proof (search_spec vs ls g start end_ occupied_vertices Hinit Hstart) as Hspec.
  rewrite Hfound in Hspec. destruct Hspec as [Hw Hmin].
  by eapply shortest_walk_NoDup.
Qed.

Lemma search_path_is_simple_witness : NoDup [0; 1; 2].
Proof.
  apply (search_path_is_simple Scenario.line_vertices Scenario.line_lanes
           Scenario.line_graph 0 2 None [0; 1; 2] BfsFacts.line_graph_init).
  - simpl. lia.
  - vm_compute. reflexivity.
Defined.

Lemma search_to_outside (vs : list Vertex) (ls : list Lane) (g : NavGraph)
    (start end_ : Z) (occupied_vertices : option (list Z)) :
  Nav.init vs ls = Ok g ->
  0 ≤ start < Z.of_nat (length vs) -> ¬ 0 ≤ end_ < Z.of_nat (length vs) ->
  find_shortest_path g start (Some end_) occupied_vertices = Ok None.
Proof.
  intros Hinit Hstart Hout.
  destruct (BfsFacts.init_spec _ _ _ Hinit) as (_ & _ & Hclosed & Hdom & Hnb).
  pose proof (search_spec vs ls g start end_ occupied_vertices Hinit Hstart) as Hspec.
  destruct (find_shortest_path g start (Some end_) occupied_vertices) as [[p|]|e];
    [| done | done].
  exfalso. destruct Hspec as [Hw _].
  apply BfsFacts.walk_last_step in Hw as [-> | (c & [Hl _])]; [done |].
  apply Hnb in Hl as (ns & Hns & Hin).
  apply Hout, Hdom. by eapply Hclosed.
Qed.

(** X9: the search at the edges of the graph.  With the start equal to the
    destination it returns the one-vertex path, whatever the vertex is and
    whatever is occupied; from a start that is no vertex of the graph to a
    different destination it raises [KeyError]; from a vertex of the graph
    to a destination that is no vertex of the graph it returns [None]. *)
Theorem search_outside_graph (vs : list Vertex) (ls : list Lane) (g : NavGraph)
    (start end_ : Z) (occupied_vertices : option (list Z)) :
  Nav.init vs ls = Ok g ->
  find_shortest_path g start (Some start) occupied_vertices = Ok (Some [start]) ∧
  (¬ 0 ≤ start < Z.of_nat (length vs) -> start ≠ end_ ->
   find_shortest_path g start (Some end_) occupied_vertices = Raise KeyError) ∧
  (0 ≤ start < Z.of_nat (length vs) -> ¬ 0 ≤ end_ < Z.of_nat (length vs) ->
   find_shortest_path g start (Some end_) occupied_vertices = Ok None).
Proof.
  intros Hinit.
  destruct (BfsFacts.init_spec _ _ _ Hinit) as (_ & _ & Hclosed & Hdom & Hnb).
  split; [| split].
  - unfold find_shortest_path. by rewrite bool_decide_eq_true_2.
  - intros Hout Hne. unfold find_shortest_path.
    rewrite bool_decide_eq_false_2 by congruence. simpl.
    destruct (adjacency_list g !! start) as [ns|] eqn:Hs; [| done].
    exfalso. apply Hout, Hdom. eauto.
  - intros Hstart Hout. by eapply search_to_outside.
Qed.

Lemma search_outside_graph_witness :
  find_shortest_path Scenario.line_graph 5 (Some 5) (Some [5]) = Ok (Some [5]) ∧
  (¬ 0 ≤ 5 < Z.of_nat (length Scenario.line_vertices) -> 5 ≠ 7 ->
   find_shortest_path Scenario.line_graph 5 (Some 7) (Some [5]) = Raise KeyError) ∧
  (0 ≤ 5 < Z.of_nat (length Scenario.line_vertices) ->
   ¬ 0 ≤ 7 < Z.of_nat (length Scenario.line_vertices) ->
   find_shortest_path Scenario.line_graph 5 (Some 7) (Some [5]) = Ok None).
Proof.
  apply (search_outside_graph Scenario.line_vertices Scenario.line_lanes
           Scenario.line_graph 5 7 (Some [5]) BfsFacts.line_graph_init).
Defined.

End SearchFacts.

(** ** More on the tick *)

Module TickFacts.

Import Traffic Bot Fleet FleetInv GuiInv.

(** *** What a tick does to one robot *)

Lemma update_position_fields g r dt b r1 :
  update_position g r dt = Ok (b, r1) ->
  id r1 = id r ∧ path r1 = path r ∧ status r1 = status r ∧
  speed r1 = speed r ∧ destination_vertex r1 = destination_vertex r.
Proof.
  unfold update_position. destruct (negb _ || _); [by intros [= <- <-] |].
  destruct (path r) as [|next rest] eqn:Hp; [done |].
  destruct (_distance_to_next g r) as [d|e]; [| done]. simpl.
  destruct (_ <=? _)%float.
  - by intros [= <- <-].
  - destruct (py_div _ _) as [q|e]; [| done]. simpl. by intros [= <- <-].
Qed.

Lemma process_movement_fields g tm r dt r' tm' :
  status r = MOVING ->
  _process_movement g tm r dt = Ok (r', tm') ->
  id r' = id r ∧ speed r' = speed r ∧
  destination_vertex r' = destination_vertex r ∧ busy r'.
Proof.
  intros Hs. unfold _process_movement, busy.
  destruct (path r) as [|next rest] eqn:Hp; [done |].
  destruct (_can_move_to tm r next) as [[] tm1].
  - destruct (update_position g r dt) as [[b r1]|e] eqn:Hup; [| done]. simpl.
    apply update_position_fields in Hup as (Hid & Hpath & Hst & Hsp & Hd).
    destruct (current_vertex r1 =? next).
    + unfold _handle_vertex_reached. rewrite Hpath, Hp.
      destruct (bool_decide (rest = [])); intros [= <- <-]; simpl; auto 10.
      rewrite Hst, Hs. auto 10.
    + intros [= <- <-]. rewrite Hst, Hs. auto 10.
  - intros [= <- <-]. simpl. auto 10.
Qed.

Lemma check_waiting_fields g tm r r' :
  status r = WAITING ->
  _check_waiting_robot g tm r = Ok r' ->
  id r' = id r ∧ speed r' = speed r ∧
  destination_vertex r' = destination_vertex r ∧
  current_vertex r' = current_vertex r ∧ busy r'.
Proof.
  intros Hs. unfold _check_waiting_robot, busy.
  destruct (Nav.find_shortest_path _ _ _ _) as [[[|v p]|]|e]; [| | | done]; simpl;
    intros [= <-]; simpl; auto 10.
Qed.

(** *** The two passes, robot by robot *)

Lemma same_fleet_refl (R : Robot -> Robot -> Prop) rs :
  (∀ r, R r r) -> same_fleet R rs rs.
Proof. intros HR. induction rs; constructor; auto. Qed.

Lemma same_fleet_trans (R : Robot -> Robot -> Prop) rs1 rs2 rs3 :
  (∀ a b c, R a b -> R b c -> R a c) ->
  same_fleet R rs1 rs2 -> same_fleet R rs2 rs3 -> same_fleet R rs1 rs3.
Proof.
  intros HR H12. revert rs3.
  induction H12 as [|x y l1 l2 [Hk Hxy] _ IH]; intros rs3 H23.
  - inversion H23. constructor.
  - inversion H23 as [|? z ? l3 [Hk' Hyz] Hrest]; subst.
    constructor; [| by apply IH]. split; [congruence | eauto].
Qed.

Lemma same_fleet_keys (R : Robot -> Robot -> Prop) rs rs' :
  same_fleet R rs rs' -> rs'.*1 = rs.*1.
Proof.
  induction 1 as [|x y l1 l2 [Hk _] _ IH]; [done |].
  rewrite !fmap_cons. by rewrite IH, Hk.
Qed.

Lemma same_fleet_get (R : Robot -> Robot -> Prop) rs rs' k :
  same_fleet R rs rs' ->
  match dict_get rs k with
  | Some r => ∃ r', dict_get rs' k = Some r' ∧ R r r'
  | None => dict_get rs' k = None
  end.
Proof.
  induction 1 as [|[k1 r1] [k2 r2] l1 l2 [Hk HR] _ IH]; [done |].
  simpl in *. subst k2. destruct (k1 =? k); [eauto | exact IH].
Qed.

Lemma movement_pass_same_fleet (R : Robot -> Robot -> Prop) g dt :
  (∀ r, R r r) ->
  (∀ tm r r' tm', status r = MOVING -> path r ≠ [] ->
     _process_movement g tm r dt = Ok (r', tm') -> R r r') ->
  ∀ rs tm rs' tm',
    movement_pass g dt rs tm = Ok (rs', tm') -> same_fleet R rs rs'.
Proof.
  intros Hrefl Hstep. induction rs as [|[k r] rs IH]; intros tm rs' tm'; simpl.
  - intros [= <- <-]. constructor.
  - destruct (bool_decide (status r = MOVING) && negb (bool_decide (path r = [])))
      eqn:Hcond.
    + destruct (_process_movement g tm r dt) as [[r1 tm1]|e] eqn:Hpm; [| done]. simpl.
      destruct (movement_pass g dt rs tm1) as [[rs1 tm2]|e] eqn:Hrest; [| done].
      simpl. intros [= <- <-]. constructor; [| by eapply IH]. split; [done |]. simpl.
      apply andb_true_iff in Hcond as [Hs%bool_decide_eq_true Hp%negb_true_iff].
      apply bool_decide_eq_false in Hp. by eapply Hstep.
    + simpl. destruct (movement_pass g dt rs tm) as [[rs1 tm2]|e] eqn:Hrest; [| done].
      simpl. intros [= <- <-]. constructor; [| by eapply IH]. by split.
Qed.

Lemma recovery_pass_same_fleet (R : Robot -> Robot -> Prop) g tm :
  (∀ r, R r r) ->
  (∀ r r', status r = WAITING -> path r ≠ [] ->
     _check_waiting_robot g tm r = Ok r' -> R r r') ->
  ∀ rs rs', recovery_pass g tm rs = Ok rs' -> same_fleet R rs rs'.
Proof.
  intros Hrefl Hstep. induction rs as [|[k r] rs IH]; intros rs'; simpl.
  - intros [= <-]. constructor.
  - destruct (bool_decide (status r = WAITING) && negb (bool_decide (path r = [])))
      eqn:Hcond.
    + destruct (_check_waiting_robot g tm r) as [r1|e] eqn:Hcw; [| done]. simpl.
      destruct (recovery_pass g tm rs) as [rs1|e] eqn:Hrest; [| done].
      simpl. intros [= <-]. constructor; [| by eapply IH]. split; [done |]. simpl.
      apply andb_true_iff in Hcond as [Hs%bool_decide_eq_true Hp%negb_true_iff].
      apply bool_decide_eq_false in Hp. by eapply Hstep.
    + simpl. destruct (recovery_pass g tm rs) as [rs1|e] eqn:Hrest; [| done].
      simpl. intros [= <-]. constructor; [| by eapply IH]. by split.
Qed.

Lemma update_robots_same_fleet (R : Robot -> Robot -> Prop) fm dt fm' :
  (∀ r, R r r) ->
  (∀ a b c, R a b -> R b c -> R a c) ->
  (∀ tm r r' tm', status r = MOVING -> path r ≠ [] ->
     _process_movement (nav_graph fm) tm r dt = Ok (r', tm') -> R r r') ->
  (∀ tm r r', status r = WAITING -> path r ≠ [] ->
     _check_waiting_robot (nav_graph fm) tm r = Ok r' -> R r r') ->
  update_robots fm dt = Ok fm' ->
  same_fleet R (robots fm) (robots fm') ∧
  nav_graph fm' = nav_graph fm ∧ next_robot_id fm' = next_robot_id fm.
Proof.
  intros Hrefl Htrans Hmove Hrec. unfold update_robots.
  destruct (movement_pass _ _ _ _) as [[rs1 tm1]|e] eqn:H1; [| done]. simpl.
  destruct (recovery_pass _ _ _) as [rs2|e] eqn:H2; [| done]. simpl.
  intros [= <-]. simpl. split; [| done].
  eapply same_fleet_trans; [done | |].
  - by eapply movement_pass_same_fleet.
  - eapply recovery_pass_same_fleet; [done | | done]. intros r r'. apply Hrec.
Qed.

(** X11: a tick that returns neither adds, removes nor reorders robots, and
    changes no robot's id, nominal speed or destination; the graph and the
    id counter stay as they are. *)
Theorem tick_preserves_identity (fm fm' : FleetManager) (delta_time : float) :
  update_robots fm delta_time = Ok fm' ->
  nav_graph fm' = nav_graph fm ∧ next_robot_id fm' = next_robot_id fm ∧
  (robots fm').*1 = (robots fm).*1 ∧
  same_fleet (fun r r' => id r' = id r ∧ speed r' = speed r ∧
                          destination_vertex r' = destination_vertex r)
    (robots fm) (robots fm').
Proof.
  intros Hup.
  destruct (update_robots_same_fleet
              (fun r r' => id r' = id r ∧ speed r' = speed r ∧
                           destination_vertex r' = destination_vertex r)
              fm delta_time fm') as (Hsame & Hg & Hn); try done.
  - intros a b c (? & ? & ?) (? & ? & ?). repeat split; congruence.
  - intros tm r r' tm' Hs _ Hpm.
    apply process_movement_fields in Hpm; [tauto | done].
  - intros tm r r' Hs _ Hcw.
    apply check_waiting_fields in Hcw; [tauto | done].
  - repeat split; try done. by eapply same_fleet_keys.
Qed.

Lemma tick_preserves_identity_witness :
  nav_graph Scenario.line_tick1 = nav_graph Scenario.line_assigned ∧
  next_robot_id Scenario.line_tick1 = next_robot_id Scenario.line_assigned ∧
  (robots Scenario.line_tick1).*1 = (robots Scenario.line_assigned).*1 ∧
  same_fleet (fun r r' => id r' = id r ∧ speed r' = speed r ∧
                          destination_vertex r' = destination_vertex r)
    (robots Scenario.line_assigned) (robots Scenario.line_tick1).
Proof.
  apply (tick_preserves_identity Scenario.line_assigned Scenario.line_tick1 1%float).
  vm_compute. reflexivity.
Defined.

Lemma movement_pass_idle g dt : ∀ rs tm,
  Forall (fun kr : Z * Robot => resting kr.2 ∨ status kr.2 = WAITING) rs ->
  movement_pass g dt rs tm = Ok (rs, tm).
Proof.
  induction rs as [|[k r] rs IH]; intros tm Hall; simpl; [done |].
  inversion Hall as [|? ? Hr Hrs]; subst. simpl in Hr.
  replace (bool_decide (status r = MOVING) && negb (bool_decide (path r = [])))
    with false.
  - simpl. by rewrite IH.
  - symmetry. apply andb_false_iff.
    destruct Hr as [[[Hm _] | Hp] | Hw].
    + left. by apply bool_decide_eq_false.
    + right. apply negb_false_iff. by apply bool_decide_eq_true.
    + left. apply bool_decide_eq_false. congruence.
Qed.

Lemma recovery_pass_idle g tm : ∀ rs,
  Forall (fun kr : Z * Robot => resting kr.2) rs ->
  recovery_pass g tm rs = Ok rs.
Proof.
  induction rs as [|[k r] rs IH]; intros Hall; simpl; [done |].
  inversion Hall as [|? ? Hr Hrs]; subst. simpl in Hr.
  replace (bool_decide (status r = WAITING) && negb (bool_decide (path r = [])))
    with false.
  - simpl. by rewrite IH.
  - symmetry. apply andb_false_iff.
    destruct Hr as [[_ Hw] | Hp].
    + left. by apply bool_decide_eq_false.
    + right. apply negb_false_iff. by apply bool_decide_eq_true.
Qed.

(** X12: a tick leaves alone every robot that is neither [MOVING] nor
    [WAITING] (idle, charging or done) or that has no path: it comes out as
    it went in.  When every robot is such, the tick returns the state it was
    given, ledger included. *)
Theorem tick_leaves_resting_robots (fm : FleetManager) (delta_time : float) :
  (∀ fm', update_robots fm delta_time = Ok fm' ->
     same_fleet (fun r r' => resting r -> r' = r) (robots fm) (robots fm')) ∧
  (Forall (fun kr : Z * Robot => resting kr.2) (robots fm) ->
   update_robots fm delta_time = Ok fm).
Proof.
  split.
  - intros fm' Hup.
    destruct (update_robots_same_fleet (fun r r' => resting r -> r' = r)
                fm delta_time fm') as (Hsame & _); try done.
    + intros a b c Hab Hbc Ha. specialize (Hab Ha). subst b. auto.
    + intros tm r r' tm' Hs Hp _ [[Hm _] | Hp']; done.
    + intros tm r r' Hs Hp _ [[_ Hw] | Hp']; done.
  - intros Hall. unfold update_robots.
    rewrite movement_pass_idle.
    + simpl. rewrite recovery_pass_idle by done. simpl. by destruct fm.
    + eapply Forall_impl; [exact Hall |]. intros kr ?. by left.
Qed.

(** *** Exceptions of a tick *)

Lemma py_index_in_range {A : Type} (l : list A) (i : Z) :
  0 ≤ i < Z.of_nat (length l) -> ∃ x, py_index l i = Ok x.
Proof.
  intros Hi. unfold py_index.
  destruct (Z.ltb_spec i 0) as [? | _]; [lia |].
  destruct (Z.leb_spec 0 i) as [_ | ?]; [| lia].
  destruct (Z.ltb_spec i (Z.of_nat (length l))) as [_ | ?]; [| lia]. simpl.
  destruct (lookup_lt_is_Some_2 l (Z.to_nat i)) as [x ->]; [lia | eauto].
Qed.

Lemma vertex_position_on_graph vs ls g v :
  Nav.init vs ls = Ok g -> is_Some (Nav.adjacency_list g !! v) ->
  ∃ pos, Nav.get_vertex_position g v = Ok pos.
Proof.
  intros Hinit Hv.
  destruct (BfsFacts.init_spec _ _ _ Hinit) as (Hvs & _ & _ & Hdom & _).
  apply Hdom in Hv. unfold Nav.get_vertex_position. rewrite Hvs.
  destruct (py_index_in_range vs v Hv) as [x ->]. simpl. eauto.
Qed.

Lemma distance_to_next_errors vs ls g r e :
  Nav.init vs ls = Ok g -> robot_ok g r ->
  _distance_to_next g r = Raise e -> e = OverflowError.
Proof.
  intros Hinit [Hcur Hpath]. unfold _distance_to_next.
  destruct (path r) as [|next rest]; [done |].
  inversion Hpath as [|? ? Hnext _]; subst.
  destruct (vertex_position_on_graph _ _ _ _ Hinit Hcur) as [p1 ->].
  destruct (vertex_position_on_graph _ _ _ _ Hinit Hnext) as [p2 ->]. simpl.
  destruct (py_square _) as [dx2|e3] eqn:E3; simpl.
  2:{ intros [= <-]. by eapply KinematicFacts.py_square_error. }
  destruct (py_square (_ - _.2)%float) as [dy2|e4] eqn:E4; simpl; [done |].
  intros [= <-]. by eapply KinematicFacts.py_square_error.
Qed.

Lemma update_position_errors vs ls g r dt e :
  Nav.init vs ls = Ok g -> robot_ok g r ->
  update_position g r dt = Raise e ->
  e = ZeroDivisionError ∨ e = OverflowError.
Proof.
  intros Hinit Hok. unfold update_position.
  destruct (path r) as [|next rest] eqn:Hp.
  { rewrite (bool_decide_eq_true_2 ([] = [])) by done. by rewrite orb_true_r. }
  destruct (negb _ || _); [done |].
  destruct (_distance_to_next g r) as [d|e1] eqn:Hd; simpl.
  2:{ intros [= <-]. right. by eapply distance_to_next_errors. }
  destruct (_ <=? _)%float; [done |].
  unfold py_div. destruct (d =? 0)%float; simpl; [| done].
  intros [= <-]. by left.
Qed.

Lemma process_movement_errors vs ls g tm r dt e :
  Nav.init vs ls = Ok g -> robot_ok g r -> path r ≠ [] ->
  _process_movement g tm r dt = Raise e ->
  e = ZeroDivisionError ∨ e = OverflowError.
Proof.
  intros Hinit Hok Hne. unfold _process_movement.
  destruct (path r) as [|next rest] eqn:Hp; [done |].
  destruct (_can_move_to tm r next) as [[] tm1]; [| done].
  destruct (update_position g r dt) as [[b r1]|e1] eqn:Hup; simpl.
  2:{ intros [= <-]. by eapply update_position_errors. }
  apply update_position_fields in Hup as (_ & Hpath & _).
  destruct (current_vertex r1 =? next); [| done].
  unfold _handle_vertex_reached. rewrite Hpath, Hp.
  by destruct (bool_decide (rest = [])).
Qed.

Lemma movement_pass_errors vs ls g dt e : ∀ rs tm,
  Nav.init vs ls = Ok g -> robots_ok g rs ->
  movement_pass g dt rs tm = Raise e ->
  e = ZeroDivisionError ∨ e = OverflowError.
Proof.
  induction rs as [|[k r] rs IH]; intros tm Hinit Hok; simpl; [done |].
  inversion Hok as [|? ? Hr Hrs]; subst. simpl in Hr.
  destruct (bool_decide (status r = MOVING) && negb (bool_decide (path r = [])))
    eqn:Hcond.
  - apply andb_true_iff in Hcond as [_ Hp%negb_true_iff].
    apply bool_decide_eq_false in Hp.
    destruct (_process_movement g tm r dt) as [[r1 tm1]|e1] eqn:Hpm; simpl.
    + destruct (movement_pass g dt rs tm1) as [[rs1 tm2]|e2] eqn:Hrest; [done |].
      simpl. intros [= <-]. by eapply IH.
    + intros [= <-]. by eapply process_movement_errors.
  - simpl. destruct (movement_pass g dt rs tm) as [[rs1 tm2]|e2] eqn:Hrest; [done |].
    simpl. intros [= <-]. by eapply IH.
Qed.

Lemma check_waiting_on_graph g tm r r' :
  Walks.closed (Nav.adjacency_list g) -> robot_ok g r ->
  _check_waiting_robot g tm r = Ok r' -> robot_ok g r'.
Proof.
  intros Hclosed [Hcur Hpath]. unfold _check_waiting_robot. intros Hcw.
  destruct (FleetFacts.find_shortest_path_returns g (current_vertex r)
              (destination_vertex r) (Some (get_occupied_vertices tm)) Hclosed Hcur)
    as (found & Hfound & Hin).
  rewrite Hfound in Hcw. simpl in Hcw.
  destruct found as [[|v p]|]; injection Hcw as <-; [done | | done].
  split; [done |]. simpl. by apply Hin.
Qed.

Lemma same_fleet_Forall (P : Robot -> Prop) rs rs' :
  same_fleet (fun r r' => P r -> P r') rs rs' ->
  Forall (fun kr : Z * Robot => P kr.2) rs -> Forall (fun kr : Z * Robot => P kr.2) rs'.
Proof.
  induction 1 as [|x y l1 l2 [_ Hxy] _ IH]; [done |].
  intros Hall. inversion Hall; subst. constructor; auto.
Qed.

(** A tick that returns on a built graph leaves the robots on the graph. *)
Lemma update_robots_on_graph vs ls fm dt fm' :
  Nav.init vs ls = Ok (nav_graph fm) ->
  robots_ok (nav_graph fm) (robots fm) ->
  update_robots fm dt = Ok fm' ->
  robots_ok (nav_graph fm') (robots fm').
Proof.
  intros Hinit Hok. unfold update_robots.
  destruct (BfsFacts.init_spec _ _ _ Hinit) as (_ & _ & Hclosed & _).
  destruct (movement_pass _ _ _ _) as [[rs1 tm1]|e] eqn:H1; [| done]. simpl.
  destruct (recovery_pass _ _ _) as [rs2|e] eqn:H2; [| done]. simpl.
  intros [= <-]. simpl.
  pose proof (FleetFacts.movement_pass_ok _ _ _ _ _ _ Hok H1) as Hok1.
  apply (same_fleet_Forall (robot_ok (nav_graph fm)) rs1 rs2); [| done].
  eapply recovery_pass_same_fleet; [done | | exact H2].
  intros r r' _ _ Hcw Hr. by eapply check_waiting_on_graph.
Qed.

Lemma update_robots_errors vs ls fm dt e :
  Nav.init vs ls = Ok (nav_graph fm) ->
  robots_ok (nav_graph fm) (robots fm) ->
  update_robots fm dt = Raise e ->
  e = ZeroDivisionError ∨ e = OverflowError.
Proof.
  intros Hinit Hok. unfold update_robots.
  destruct (BfsFacts.init_spec _ _ _ Hinit) as (_ & _ & Hclosed & _).
  destruct (movement_pass _ _ _ _) as [[rs1 tm1]|e1] eqn:H1; simpl.
  2:{ intros [= <-]. by eapply movement_pass_errors. }
  pose proof (FleetFacts.movement_pass_ok _ _ _ _ _ _ Hok H1) as Hok1.
  destruct (FleetFacts.recovery_pass_spec (nav_graph fm) tm1 rs1 Hclosed Hok1)
    as (rs2 & -> & _).
  done.
Qed.

(** X13: on a graph built by the constructor, with every robot on a vertex
    of the graph and every path inside the graph, a tick either returns,
    with the robots again on the graph, or raises [ZeroDivisionError] or
    [OverflowError] from the kinematics; it raises neither [KeyError] nor
    [IndexError], and the search never runs out of steps. *)
Theorem tick_raises_only_arithmetic (vs : list Nav.Vertex) (ls : list Nav.Lane)
    (fm : FleetManager) (delta_time : float) :
  Nav.init vs ls = Ok (nav_graph fm) ->
  robots_ok (nav_graph fm) (robots fm) ->
  match update_robots fm delta_time with
  | Ok fm' => robots_ok (nav_graph fm') (robots fm')
  | Raise e => e = ZeroDivisionError ∨ e = OverflowError
  end.
Proof.
  intros Hinit Hok.
  destruct (update_robots fm delta_time) as [fm'|e] eqn:Hup.
  - by eapply update_robots_on_graph.
  - by eapply update_robots_errors.
Qed.

Lemma tick_raises_only_arithmetic_witness :
  match update_robots Scenario.line_assigned 1%float with
  | Ok fm' => robots_ok (nav_graph fm') (robots fm')
  | Raise e => e = ZeroDivisionError ∨ e = OverflowError
  end.
Proof.
  apply (tick_raises_only_arithmetic Scenario.line_vertices Scenario.line_lanes).
  - vm_compute. reflexivity.
  - constructor; [| constructor]. split.
    + vm_compute. by eexists.
    + repeat constructor; vm_compute; by eexists.
Defined.

(** *** The holds of the robots a tick has no work for *)

Lemma same_holds_refl b tm : same_holds b tm tm.
Proof. by split. Qed.

Lemma same_holds_trans b tm1 tm2 tm3 :
  same_holds b tm1 tm2 -> same_holds b tm2 tm3 -> same_holds b tm1 tm3.
Proof.
  intros [H1 H2] [H3 H4]. split; intros x; [by rewrite H3, H1 | by rewrite H4, H2].
Qed.

Lemma request_vertex_same_holds b tm a v :
  b ≠ a -> same_holds b tm (request_vertex tm a v).2.
Proof.
  intros Hne. split; intros x.
  - by apply LedgerFacts.request_vertex_frame.
  - by rewrite LedgerFacts.request_vertex_lanes.
Qed.

Lemma request_lane_same_holds b tm a f t :
  b ≠ a -> same_holds b tm (request_lane tm a f t).2.
Proof.
  intros Hne. split; intros x.
  - by rewrite LedgerFacts.request_lane_vertices.
  - by apply LedgerFacts.request_lane_frame.
Qed.

Lemma release_vertex_same_holds b tm a v :
  b ≠ a -> same_holds b tm (release_vertex tm a v).
Proof.
  intros Hne. split; intros x.
  - by apply LedgerFacts.release_vertex_frame.
  - by rewrite LedgerFacts.release_vertex_lanes.
Qed.

Lemma release_lane_same_holds b tm a f t :
  b ≠ a -> same_holds b tm (release_lane tm a f t).
Proof.
  intros Hne. split; intros x.
  - by rewrite LedgerFacts.release_lane_keeps_vertices.
  - by apply LedgerFacts.release_lane_frame.
Qed.

Lemma can_move_to_same_holds b tm r next :
  b ≠ id r -> same_holds b tm (_can_move_to tm r next).2.
Proof.
  intros Hne. unfold _can_move_to.
  destruct (next =? current_vertex r); [apply same_holds_refl |].
  pose proof (request_vertex_same_holds b tm (id r) next Hne) as H1.
  destruct (request_vertex tm (id r) next) as [[] tm1]; simpl in *; [| done].
  pose proof (request_lane_same_holds b tm1 (id r) (current_vertex r) next Hne) as H2.
  destruct (request_lane tm1 (id r) (current_vertex r) next) as [[] tm2]; simpl in *;
    by eapply same_holds_trans.
Qed.

Lemma handle_vertex_reached_same_holds b tm r next r' tm' :
  b ≠ id r -> _handle_vertex_reached tm r next = Ok (r', tm') -> same_holds b tm tm'.
Proof.
  intros Hne. unfold _handle_vertex_reached.
  set (tm1 := match previous_vertex r with Some _ => _ | None => _ end).
  assert (same_holds b tm tm1) as H1.
  { unfold tm1. destruct (previous_vertex r) as [prev|]; [| apply same_holds_refl].
    eapply same_holds_trans; [by apply release_lane_same_holds |].
    by apply release_vertex_same_holds. }
  destruct (path r) as [|x rest]; [done |].
  destruct (bool_decide (rest = [])); intros [= <- <-]; [| done].
  eapply same_holds_trans; [exact H1 |]. by apply release_vertex_same_holds.
Qed.

Lemma process_movement_same_holds b g tm r dt r' tm' :
  b ≠ id r -> _process_movement g tm r dt = Ok (r', tm') -> same_holds b tm tm'.
Proof.
  intros Hne. unfold _process_movement.
  destruct (path r) as [|next rest]; [done |].
  pose proof (can_move_to_same_holds b tm r next Hne) as H1.
  destruct (_can_move_to tm r next) as [[] tm1]; simpl in H1; [| by intros [= <- <-]].
  destruct (update_position g r dt) as [[c r1]|e] eqn:Hup; [| done]. simpl.
  apply update_position_fields in Hup as (Hid & _).
  destruct (current_vertex r1 =? next); [| by intros [= <- <-]].
  intros Hh. eapply same_holds_trans; [exact H1 |].
  eapply handle_vertex_reached_same_holds; [| exact Hh]. congruence.
Qed.

Lemma movement_pass_same_holds b g dt : ∀ rs tm rs' tm',
  Forall (fun kr : Z * Robot => id kr.2 = b -> ¬ on_the_move kr.2) rs ->
  movement_pass g dt rs tm = Ok (rs', tm') -> same_holds b tm tm'.
Proof.
  induction rs as [|[k r] rs IH]; intros tm rs' tm' Hall; simpl.
  - intros [= <- <-]. apply same_holds_refl.
  - inversion Hall as [|? ? Hr Hrs]; subst. simpl in Hr.
    destruct (bool_decide (status r = MOVING) && negb (bool_decide (path r = [])))
      eqn:Hcond.
    + apply andb_true_iff in Hcond as [Hs%bool_decide_eq_true Hp%negb_true_iff].
      apply bool_decide_eq_false in Hp.
      destruct (_process_movement g tm r dt) as [[r1 tm1]|e] eqn:Hpm; [| done]. simpl.
      destruct (movement_pass g dt rs tm1) as [[rs1 tm2]|e] eqn:Hrest; [| done].
      simpl. intros [= <- <-]. eapply same_holds_trans; [| by eapply IH].
      eapply process_movement_same_holds; [| exact Hpm].
      intros Hb. by apply Hr.
    + simpl. destruct (movement_pass g dt rs tm) as [[rs1 tm2]|e] eqn:Hrest; [| done].
      simpl. intros [= <- <-]. by eapply IH.
Qed.

(** X14: a tick changes the holds of no one but the robots it moves.  An id
    under which no robot is [MOVING] with a path (the id of an idle,
    charging, waiting or done robot, or an id no robot of the collection
    has) holds the same vertices and lanes after the tick as before. *)
Theorem tick_keeps_holds_of_the_rest (fm fm' : FleetManager) (delta_time : float)
    (b : Z) :
  Forall (fun kr : Z * Robot => id kr.2 = b -> ¬ on_the_move kr.2) (robots fm) ->
  update_robots fm delta_time = Ok fm' ->
  same_holds b (traffic_manager fm) (traffic_manager fm').
Proof.
  intros Hall. unfold update_robots.
  destruct (movement_pass _ _ _ _) as [[rs1 tm1]|e] eqn:H1; [| done]. simpl.
  destruct (recovery_pass _ _ _) as [rs2|e] eqn:H2; [| done]. simpl.
  intros [= <-]. simpl. by eapply movement_pass_same_holds.
Qed.

Lemma tick_keeps_holds_of_the_rest_witness :
  same_holds 7 (traffic_manager Scenario.blocked_fleet)
    (traffic_manager (Scenario.tick Scenario.blocked_fleet)).
Proof.
  apply (tick_keeps_holds_of_the_rest Scenario.blocked_fleet
           (Scenario.tick Scenario.blocked_fleet) 1%float 7).
  - constructor; [| constructor]. simpl. intros H. discriminate H.
  - vm_compute. reflexivity.
Defined.

End TickFacts.

(** ** More on spawning and task assignment *)

Module OrchestratorFacts.

Import Traffic Bot Fleet FleetInv GuiInv.

(** A walk of one vertex ends where it starts. *)
Lemma walk_single (E : Z -> Z -> Prop) (a b x : Z) : Walks.walk E a b [x] -> b = a.
Proof.
  intros Hw. apply SearchFacts.walk_chain in Hw as (p' & Hp & _ & Hl).
  injection Hp as -> <-. by injection Hl as <-.
Qed.

(** X15: on a graph built by the constructor, a task whose destination is
    no vertex of the graph is refused for a robot that stands on a vertex of
    the graph: [assign_task] returns [False] and the state it was called on. *)
Theorem assign_task_outside_graph (vs : list Nav.Vertex) (ls : list Nav.Lane)
    (fm : FleetManager) (robot_id destination : Z) (r : Robot) :
  Nav.init vs ls = Ok (nav_graph fm) ->
  dict_get (robots fm) robot_id = Some r ->
  0 ≤ current_vertex r < Z.of_nat (length vs) ->
  ¬ 0 ≤ destination < Z.of_nat (length vs) ->
  assign_task fm robot_id destination = Ok (false, fm).
Proof.
  intros Hinit Hr Hcur Hout. unfold assign_task. rewrite Hr.
  destruct (bool_decide (status r = CHARGING)); [done |].
  by rewrite (SearchFacts.search_to_outside vs ls _ _ _ _ Hinit Hcur Hout).
Qed.

Lemma assign_task_outside_graph_witness :
  assign_task Scenario.line_spawned 0 3 = Ok (false, Scenario.line_spawned).
Proof.
  apply (assign_task_outside_graph Scenario.line_vertices Scenario.line_lanes
           Scenario.line_spawned 0 3 (Bot.init 0 0)).
  - vm_compute. reflexivity.
  - reflexivity.
  - simpl. lia.
  - simpl. lia.
Defined.

(** X16: on a graph built by the constructor, [assign_task] for a robot
    that is not charging and stands on a vertex of the graph raises nothing.
    Either no walk along lanes leads from the robot's vertex to the
    destination without entering a vertex the ledger lists as occupied, and
    the call returns [False] and the state unchanged; or the robot gets a
    shortest such walk as its path, with status [MOVING], the destination
    stored and progress 0, every other robot is as before, and the ledger
    changes in one way only: unless the destination is the robot's own
    vertex, the robot's hold on the vertex it stands on is released. *)
Theorem assign_task_outcome (vs : list Nav.Vertex) (ls : list Nav.Lane)
    (fm : FleetManager) (robot_id destination : Z) (r : Robot) :
  Nav.init vs ls = Ok (nav_graph fm) ->
  dict_get (robots fm) robot_id = Some r ->
  status r ≠ CHARGING ->
  0 ≤ current_vertex r < Z.of_nat (length vs) ->
  let E := NavSpec.open_step ls (get_occupied_vertices (traffic_manager fm)) in
  (assign_task fm robot_id destination = Ok (false, fm) ∧
   ∀ q, ¬ Walks.walk E (current_vertex r) destination q) ∨
  (∃ p, Walks.walk E (current_vertex r) destination p ∧
        (∀ q, Walks.walk E (current_vertex r) destination q ->
              (length p ≤ length q)%nat) ∧
        assign_task fm robot_id destination
        = Ok (true,
              {| nav_graph := nav_graph fm;
                 robots := dict_set (robots fm) robot_id
                             (Bot.assign_task r destination p);
                 next_robot_id := next_robot_id fm;
                 traffic_manager :=
                   if bool_decide (destination = current_vertex r)
                   then traffic_manager fm
                   else release_vertex (traffic_manager fm) (id r) (current_vertex r) |})).
Proof.
  intros Hinit Hr Hs Hcur E. unfold assign_task. rewrite Hr.
  rewrite (bool_decide_eq_false_2 _ Hs).
  pose proof (SearchFacts.search_spec vs ls (nav_graph fm) (current_vertex r)
                destination (Some (get_occupied_vertices (traffic_manager fm)))
                Hinit Hcur) as Hspec.
  destruct (Nav.find_shortest_path _ _ _ _) as [[p|]|e]; [| by left | done].
  simpl in Hspec. destruct Hspec as [Hw Hmin]. right. exists p.
  split; [done |]. split; [done |].
  pose proof (BfsFacts.walk_length_pos _ _ _ _ Hw) as Hpos.
  destruct p as [|x p']; [simpl in Hpos; lia |]. simpl bind.
  do 3 f_equal. case_bool_decide as Hd.
  - subst destination.
    specialize (Hmin [current_vertex r] (Walks.walk_start _ _)). simpl in Hmin.
    destruct p'; [done | simpl in Hmin; lia].
  - destruct p' as [|y p'']; [by apply walk_single in Hw |].
    replace (1 <? _) with true; [done |].
    symmetry. apply Z.ltb_lt. rewrite Nat2Z.inj_succ. simpl length. lia.
Qed.

Lemma assign_task_outcome_witness :
  let E := NavSpec.open_step Scenario.line_lanes
             (get_occupied_vertices (traffic_manager Scenario.line_spawned)) in
  (assign_task Scenario.line_spawned 0 2 = Ok (false, Scenario.line_spawned) ∧
   ∀ q, ¬ Walks.walk E (current_vertex (Bot.init 0 0)) 2 q) ∨
  (∃ p, Walks.walk E (current_vertex (Bot.init 0 0)) 2 p ∧
        (∀ q, Walks.walk E (current_vertex (Bot.init 0 0)) 2 q ->
              (length p ≤ length q)%nat) ∧
        assign_task Scenario.line_spawned 0 2
        = Ok (true,
              {| nav_graph := nav_graph Scenario.line_spawned;
                 robots := dict_set (robots Scenario.line_spawned) 0
                             (Bot.assign_task (Bot.init 0 0) 2 p);
                 next_robot_id := next_robot_id Scenario.line_spawned;
                 traffic_manager :=
                   if bool_decide (2 = current_vertex (Bot.init 0 0))
                   then traffic_manager Scenario.line_spawned
                   else release_vertex (traffic_manager Scenario.line_spawned)
                          (id (Bot.init 0 0)) (current_vertex (Bot.init 0 0)) |})).
Proof.
  apply (assign_task_outcome Scenario.line_vertices Scenario.line_lanes
           Scenario.line_spawned 0 2 (Bot.init 0 0)).
  - vm_compute. reflexivity.
  - reflexivity.
  - discriminate.
  - simpl. lia.
Defined.

(** X17: no two robots are spawned on the same vertex in a row: when
    [spawn_robot] has put a robot on a vertex, the same call made again
    returns [None] and leaves the state as the first call left it. *)
Theorem spawn_twice_same_vertex (fm fm1 : FleetManager) (vertex_id : Z) (r : Robot) :
  spawn_robot fm vertex_id = (Some r, fm1) ->
  spawn_robot fm1 vertex_id = (None, fm1).
Proof.
  unfold spawn_robot at 1.
  destruct ((vertex_id <? 0) || _) eqn:Hrange; [done |].
  destruct (request_vertex (traffic_manager fm) (next_robot_id fm) vertex_id)
    as [granted tm] eqn:Hreq.
  destruct granted; simpl; [| done]. intros [= <- <-].
  assert (vertex_occupancy tm !! vertex_id = Some (next_robot_id fm)) as Hheld.
  { revert Hreq. unfold request_vertex.
    destruct (vertex_occupancy (traffic_manager fm) !! vertex_id) as [h|].
    - destruct (negb (h =? next_robot_id fm)); [done |]. intros [= <-]. simpl.
      apply lookup_insert_eq.
    - intros [= <-]. simpl. apply lookup_insert_eq. }
  unfold spawn_robot. simpl. rewrite Hrange.
  unfold request_vertex. rewrite Hheld.
  destruct (Z.eqb_spec (next_robot_id fm) (next_robot_id fm + 1)) as [? | _]; [lia |].
  done.
Qed.

Lemma spawn_twice_same_vertex_witness :
  spawn_robot Scenario.line_spawned 0 = (None, Scenario.line_spawned).
Proof.
  apply (spawn_twice_same_vertex (Fleet.init Scenario.line_graph) Scenario.line_spawned
           0 (Bot.init 0 0)).
  vm_compute. reflexivity.
Defined.

End OrchestratorFacts.

(** ** The control panel *)

Module PanelFacts.

Import Traffic Bot Fleet FleetInv GuiInv.

(** *** The robot collection as a dict *)

Lemma dict_set_Forall {A : Type} (P : Z * A -> Prop) (d : list (Z * A)) k v :
  Forall P d -> P (k, v) -> Forall P (dict_set d k v).
Proof.
  intros Hall Hkv. induction Hall as [|[k' v'] d Hx Hd IH]; simpl.
  - by constructor.
  - destruct (Z.eqb_spec k' k) as [-> | Hne]; constructor; auto.
Qed.

Lemma dict_get_set_ne {A : Type} (d : list (Z * A)) k k' v :
  k' ≠ k -> dict_get (dict_set d k v) k' = dict_get d k'.
Proof.
  intros Hne. induction d as [|[k1 v1] d IH]; simpl.
  - destruct (Z.eqb_spec k k'); [congruence | done].
  - destruct (Z.eqb_spec k1 k) as [-> | Hk]; simpl.
    + destruct (Z.eqb_spec k k'); [congruence | done].
    + destruct (k1 =? k'); [done | exact IH].
Qed.

Lemma dict_get_None {A : Type} (d : list (Z * A)) k :
  dict_get d k = None ↔ k ∉ d.*1.
Proof.
  induction d as [|[k1 v1] d IH]; simpl.
  - split; [intros _ Hin; by apply elem_of_nil in Hin | done].
  - rewrite not_elem_of_cons. destruct (Z.eqb_spec k1 k) as [-> | Hk].
    + split; [done | by intros [? _]].
    + rewrite IH. split; [intros ?; split; [congruence | done] | by intros [_ ?]].
Qed.

Lemma dict_get_map (f : Robot -> Robot) (d : list (Z * Robot)) k :
  dict_get (map (fun kr : Z * Robot => (kr.1, f kr.2)) d) k = f <$> dict_get d k.
Proof.
  induction d as [|[k1 v1] d IH]; simpl; [done |].
  destruct (k1 =? k); [done | exact IH].
Qed.

Lemma dict_map_keys (f : Robot -> Robot) (d : list (Z * Robot)) :
  (map (fun kr : Z * Robot => (kr.1, f kr.2)) d).*1 = d.*1.
Proof. induction d as [|[k1 v1] d IH]; [done |]. rewrite !fmap_cons. simpl. by f_equal. Qed.

Lemma dict_del_Forall {A : Type} (P : Z * A -> Prop) (d : list (Z * A)) k :
  Forall P d -> Forall P (Gui.dict_del d k).
Proof.
  induction 1 as [|[k' v'] d Hx Hd IH]; simpl; [done |].
  destruct (k' =? k); [done | by constructor].
Qed.

Lemma dict_del_keys {A : Type} (d : list (Z * A)) k x :
  x ∈ (Gui.dict_del d k).*1 -> x ∈ d.*1.
Proof.
  induction d as [|[k' v'] d IH]; simpl; [done |].
  destruct (k' =? k).
  - intros Hin. apply elem_of_cons. by right.
  - rewrite ?fmap_cons, !elem_of_cons. intros [-> | Hin]; [by left | right; auto].
Qed.

Lemma dict_del_NoDup {A : Type} (d : list (Z * A)) k :
  NoDup d.*1 -> NoDup (Gui.dict_del d k).*1.
Proof.
  induction d as [|[k' v'] d IH]; simpl; [done |].
  rewrite ?fmap_cons, NoDup_cons. intros [Hnotin Hnd].
  destruct (k' =? k); [done |].
  rewrite ?fmap_cons, NoDup_cons. split; [| by apply IH].
  intros Hin. apply Hnotin. by eapply dict_del_keys.
Qed.

Lemma dict_del_get_ne {A : Type} (d : list (Z * A)) k k' :
  k' ≠ k -> dict_get (Gui.dict_del d k) k' = dict_get d k'.
Proof.
  intros Hne. induction d as [|[k1 v1] d IH]; simpl; [done |].
  destruct (Z.eqb_spec k1 k) as [-> | Hk]; simpl.
  - destruct (Z.eqb_spec k k'); [congruence | done].
  - destruct (k1 =? k'); [done | exact IH].
Qed.

Lemma dict_del_get_eq {A : Type} (d : list (Z * A)) k :
  NoDup d.*1 -> dict_get (Gui.dict_del d k) k = None.
Proof.
  induction d as [|[k1 v1] d IH]; simpl; [done |].
  rewrite ?fmap_cons, NoDup_cons. intros [Hnotin Hnd].
  destruct (Z.eqb_spec k1 k) as [-> | Hk]; simpl.
  - by apply dict_get_None.
  - destruct (Z.eqb_spec k1 k); [done | by apply IH].
Qed.

(** *** Well-formed states *)

Lemma fleet_ok_init (g : Nav.NavGraph) : fleet_ok (Fleet.init g).
Proof. split; simpl; constructor. Qed.

Lemma fleet_ok_map (f : Robot -> Robot) (fm : FleetManager) :
  (∀ r, id (f r) = id r ∧ current_vertex (f r) = current_vertex r ∧ path (f r) = path r) ->
  fleet_ok fm ->
  fleet_ok (Gui.with_robots fm (map (fun kr : Z * Robot => (kr.1, f kr.2)) (robots fm))).
Proof.
  intros Hf [Hids Hkeys Hkeyed Hon]. split; simpl.
  - unfold ids_below in *. simpl. rewrite Forall_forall in Hids |- *.
    intros kr Hin. apply list_elem_of_fmap in Hin as (kr0 & -> & Hin). simpl. auto.
  - by rewrite dict_map_keys.
  - rewrite Forall_forall in Hkeyed |- *.
    intros kr Hin. apply list_elem_of_fmap in Hin as (kr0 & -> & Hin). simpl.
    destruct (Hf kr0.2) as (-> & _). auto.
  - unfold robots_ok in *. rewrite Forall_forall in Hon |- *.
    intros kr Hin. apply list_elem_of_fmap in Hin as (kr0 & -> & Hin). simpl.
    destruct (Hf kr0.2) as (_ & Hc & Hp). unfold robot_ok. rewrite Hc, Hp.
    by apply Hon.
Qed.

Lemma fleet_ok_set (fm : FleetManager) (k : Z) (r r' : Robot) :
  fleet_ok fm -> dict_get (robots fm) k = Some r ->
  id r' = id r -> robot_ok (nav_graph fm) r' ->
  fleet_ok (Gui.with_robots fm (dict_set (robots fm) k r')).
Proof.
  intros [Hids Hkeys Hkeyed Hon] Hr Hid Hok.
  pose proof (FleetFacts.dict_get_elem_of _ _ _ Hr) as Hin.
  split; simpl.
  - unfold ids_below in *. simpl. apply dict_set_Forall; [done |].
    rewrite Forall_forall in Hids. apply (Hids _ Hin).
  - rewrite FleetFacts.dict_set_keys; eauto.
  - apply dict_set_Forall; [done |]. simpl. rewrite Hid.
    rewrite Forall_forall in Hkeyed. apply (Hkeyed _ Hin).
  - unfold robots_ok. by apply dict_set_Forall.
Qed.

Lemma fleet_ok_ledger (fm : FleetManager) (tm : TrafficManager) :
  fleet_ok fm ->
  fleet_ok {| nav_graph := nav_graph fm; robots := robots fm;
              next_robot_id := next_robot_id fm; traffic_manager := tm |}.
Proof. by intros [? ? ? ?]. Qed.

Lemma spawn_fleet_ok vs ls (fm : FleetManager) (v : Z) :
  Nav.init vs ls = Ok (nav_graph fm) -> fleet_ok fm ->
  fleet_ok (Fleet.spawn_robot fm v).2 ∧
  nav_graph (Fleet.spawn_robot fm v).2 = nav_graph fm ∧
  next_robot_id fm ≤ next_robot_id (Fleet.spawn_robot fm v).2.
Proof.
  intros Hinit Hok. unfold Fleet.spawn_robot.
  destruct (BfsFacts.init_spec _ _ _ Hinit) as (Hvs & _ & _ & Hdom & _).
  destruct ((v <? 0) || _) eqn:Hrange; [simpl; split; [done | split; [done | lia]] |].
  destruct (request_vertex _ _ _) as [[] tm]; simpl.
  2:{ split; [by apply fleet_ok_ledger |]. split; [done | lia]. }
  split; [| split; [done | lia]].
  destruct Hok as [Hids Hkeys Hkeyed Hon].
  rewrite (FleetFacts.dict_set_fresh _ _ _ (FleetFacts.ids_below_fresh _ Hids)).
  split; simpl.
  - unfold ids_below in *. simpl. apply Forall_app. split.
    + eapply Forall_impl; [exact Hids |]. intros kr ?. simpl in *. lia.
    + constructor; [simpl; lia | constructor].
  - rewrite fmap_app. apply NoDup_app. split; [done |]. split; [| apply NoDup_singleton].
    intros x Hx ->%list_elem_of_singleton.
    apply list_elem_of_fmap in Hx as (kr & Hk & Hin).
    unfold ids_below in Hids. rewrite Forall_forall in Hids.
    specialize (Hids _ Hin). simpl in *. lia.
  - apply Forall_app. split; [done |]. by constructor.
  - unfold robots_ok. apply Forall_app. split; [done |].
    constructor; [| constructor]. split; simpl; [| constructor].
    apply Hdom. rewrite Hvs in Hrange.
    apply orb_false_iff in Hrange as [H1 H2]. lia.
Qed.

Lemma assign_fleet_ok vs ls (fm : FleetManager) (k d : Z) b fm' :
  Nav.init vs ls = Ok (nav_graph fm) -> fleet_ok fm ->
  Fleet.assign_task fm k d = Ok (b, fm') ->
  fleet_ok fm' ∧ nav_graph fm' = nav_graph fm ∧ next_robot_id fm' = next_robot_id fm.
Proof.
  intros Hinit Hok. unfold Fleet.assign_task.
  destruct (BfsFacts.init_spec _ _ _ Hinit) as (_ & _ & Hclosed & _).
  destruct (dict_get (robots fm) k) as [r|] eqn:Hr; [| by intros [= <- <-]].
  destruct (bool_decide (status r = CHARGING)); [by intros [= <- <-] |].
  assert (robot_ok (nav_graph fm) r) as [Hcur Hpath].
  { destruct Hok as [_ _ _ Hon]. unfold robots_ok in Hon. rewrite Forall_forall in Hon.
    apply (Hon _ (FleetFacts.dict_get_elem_of _ _ _ Hr)). }
  destruct (FleetFacts.find_shortest_path_returns (nav_graph fm) (current_vertex r)
              (Some d) (Some (get_occupied_vertices (traffic_manager fm))) Hclosed Hcur)
    as (found & -> & Hin).
  simpl. destruct found as [[|x p]|]; [by intros [= <- <-] | | by intros [= <- <-]].
  intros [= <- <-]. simpl. split; [| done].
  apply (fleet_ok_ledger
           (Gui.with_robots fm (dict_set (robots fm) k (Bot.assign_task r d (x :: p))))).
  eapply fleet_ok_set; [done | exact Hr | done |].
  split; simpl; [done | by apply Hin].
Qed.

Lemma update_fleet_ok vs ls (fm fm' : FleetManager) dt :
  Nav.init vs ls = Ok (nav_graph fm) -> fleet_ok fm ->
  update_robots fm dt = Ok fm' ->
  fleet_ok fm' ∧ nav_graph fm' = nav_graph fm ∧ next_robot_id fm' = next_robot_id fm.
Proof.
  intros Hinit [Hids Hkeys Hkeyed Hon] Hup.
  destruct (TickFacts.update_robots_same_fleet (fun r r' => id r' = id r) fm dt fm')
    as (Hsame & Hg & Hn); try done.
  - intros a b c. congruence.
  - intros tm r r' tm' Hs _ Hpm.
    by apply TickFacts.process_movement_fields in Hpm as [? _].
  - intros tm r r' Hs _ Hcw.
    by apply TickFacts.check_waiting_fields in Hcw as [? _].
  - split; [| done].
    pose proof (TickFacts.same_fleet_keys _ _ _ Hsame) as Hk. split.
    + unfold ids_below in *. rewrite Hn.
      apply (Forall_fmap fst (fun k => k < next_robot_id fm)).
      rewrite Hk. by apply Forall_fmap.
    + by rewrite Hk.
    + clear Hk Hkeys Hids Hon. induction Hsame as [|x y l1 l2 [Hxy Hid] _ IH]; [done |].
      inversion Hkeyed; subst. constructor; [congruence | auto].
    + by eapply TickFacts.update_robots_on_graph.
Qed.

Lemma handle_fleet_ok vs ls (gui gui' : Gui.FleetGUI) (e : Gui.event) :
  Nav.init vs ls = Ok (nav_graph (Gui.fleet_manager gui)) ->
  fleet_ok (Gui.fleet_manager gui) ->
  Gui.handle gui e = Ok gui' ->
  fleet_ok (Gui.fleet_manager gui') ∧
  nav_graph (Gui.fleet_manager gui') = nav_graph (Gui.fleet_manager gui) ∧
  next_robot_id (Gui.fleet_manager gui) ≤ next_robot_id (Gui.fleet_manager gui').
Proof.
  intros Hinit Hok.
  destruct e as [sr sv | | | | | | | sp | dt]; simpl.
  - intros [= <-]. simpl. split; [done | split; [done | lia]].
  - intros [= <-]. unfold Gui.spawn_robot.
    destruct (Gui.selected_vertex gui) as [v|]; [| split; [done | split; [done | lia]]].
    simpl. by apply (spawn_fleet_ok vs ls).
  - unfold Gui.assign_task.
    destruct (Gui.selected_robot gui) as [k|];
      [| intros [= <-]; split; [done | split; [done | lia]]].
    destruct (Gui.selected_vertex gui) as [v|];
      [| intros [= <-]; split; [done | split; [done | lia]]].
    destruct (Fleet.assign_task _ k v) as [[b fm']|err] eqn:Ha; [| done]. simpl.
    intros [= <-]. simpl.
    destruct (assign_fleet_ok vs ls _ _ _ _ _ Hinit Hok Ha) as (Hok' & Hg' & Hn').
    split; [done | split; [done | lia]].
  - unfold Gui.charge_robot.
    destruct (Gui.selected_robot gui) as [k|];
      [| intros [= <-]; split; [done | split; [done | lia]]].
    destruct (dict_get _ k) as [r|] eqn:Hr; [| done].
    assert (robot_ok (nav_graph (Gui.fleet_manager gui)) r) as Hrok.
    { destruct Hok as [_ _ _ Hon]. unfold robots_ok in Hon. rewrite Forall_forall in Hon.
      apply (Hon _ (FleetFacts.dict_get_elem_of _ _ _ Hr)). }
    destruct (bool_decide (status r = CHARGING)).
    + intros [= <-]. simpl. split; [| split; [done | lia]].
      eapply fleet_ok_set; [done | exact Hr | |];
        unfold stop_charging; by destruct (bool_decide _).
    + destruct (Nav.is_charger _ _) as [[]|err]; simpl; [| | done].
      * intros [= <-]. simpl. split; [| split; [done | lia]].
        eapply fleet_ok_set; [done | exact Hr | |];
          unfold charge; by destruct (bool_decide _).
      * intros [= <-]. split; [done | split; [done | lia]].
  - intros [= <-]. simpl. split; [| split; [done | lia]].
    pose (f := fun r : Robot => if bool_decide (status r = MOVING)
                                then set_status r WAITING else r).
    apply (fleet_ok_map f); [| done].
    intros r. unfold f. by destruct (bool_decide _).
  - intros [= <-]. simpl. split; [| split; [done | lia]].
    pose (f := fun r : Robot => if bool_decide (status r = WAITING)
                                then set_status r MOVING else r).
    apply (fleet_ok_map f); [| done].
    intros r. unfold f. by destruct (bool_decide _).
  - intros [= <-]. unfold Gui.remove_robot.
    destruct (Gui.selected_robot gui) as [k|]; [| split; [done | split; [done | lia]]].
    destruct (dict_get _ k) as [r|]; [| split; [done | split; [done | lia]]].
    simpl. split; [| split; [done | lia]].
    destruct Hok as [Hids Hkeys Hkeyed Hon]. split; simpl.
    + unfold ids_below in *. simpl. by apply dict_del_Forall.
    + by apply dict_del_NoDup.
    + by apply dict_del_Forall.
    + unfold robots_ok in *. by apply dict_del_Forall.
  - intros [= <-]. simpl. split; [| split; [done | lia]].
    by apply (fleet_ok_map (fun r => set_speed r sp)).
  - destruct (update_robots _ dt) as [fm'|err] eqn:Hup; [| done]. simpl.
    intros [= <-]. simpl.
    destruct (update_fleet_ok vs ls _ _ _ Hinit Hok Hup) as (Hok' & Hg' & Hn').
    split; [done | split; [done | lia]].
Qed.

Lemma run_fleet_ok vs ls : ∀ (events : list Gui.event) (gui gui' : Gui.FleetGUI),
  Nav.init vs ls = Ok (nav_graph (Gui.fleet_manager gui)) ->
  fleet_ok (Gui.fleet_manager gui) ->
  Gui.run gui events = Ok gui' ->
  fleet_ok (Gui.fleet_manager gui') ∧
  nav_graph (Gui.fleet_manager gui') = nav_graph (Gui.fleet_manager gui) ∧
  next_robot_id (Gui.fleet_manager gui) ≤ next_robot_id (Gui.fleet_manager gui').
Proof.
  induction events as [|e events IH]; intros gui gui' Hinit Hok; simpl.
  - intros [= <-]. split; [done |]. split; [done | lia].
  - destruct (Gui.handle gui e) as [gui1|err] eqn:He; [| done]. simpl. intros Hrun.
    destruct (handle_fleet_ok vs ls _ _ _ Hinit Hok He) as (Hok1 & Hg1 & Hn1).
    destruct (IH gui1 gui') as (Hok2 & Hg2 & Hn2); [by rewrite Hg1 | done | done |].
    split; [done |]. split; [congruence | lia].
Qed.

(** X18: every state the panel reaches from its start, by clicks, button
    presses, speed changes and ticks that return, on a graph built by the
    constructor, is well formed: the robots' ids lie below the id counter
    and no two robots share one, every robot is filed under its own id, and
    every robot stands on a vertex of the graph with its path inside the
    graph. *)
Theorem session_states_well_formed (vs : list Nav.Vertex) (ls : list Nav.Lane)
    (g : Nav.NavGraph) (events : list Gui.event) (gui : Gui.FleetGUI) :
  Nav.init vs ls = Ok g ->
  Gui.run (Gui.init g) events = Ok gui ->
  nav_graph (Gui.fleet_manager gui) = g ∧
  ids_below (Gui.fleet_manager gui) ∧
  NoDup (robots (Gui.fleet_manager gui)).*1 ∧
  Forall (fun kr : Z * Robot => id kr.2 = kr.1) (robots (Gui.fleet_manager gui)) ∧
  robots_ok g (robots (Gui.fleet_manager gui)).
Proof.
  intros Hinit Hrun.
  destruct (run_fleet_ok vs ls events (Gui.init g) gui) as ([Hids Hkeys Hkeyed Hon] & Hg & _);
    [done | apply fleet_ok_init | done |].
  simpl in Hg. rewrite Hg in Hon. done.
Qed.

Lemma session_states_well_formed_witness :
  nav_graph (Gui.fleet_manager PanelScenario.ticked) = Scenario.line_graph ∧
  ids_below (Gui.fleet_manager PanelScenario.ticked) ∧
  NoDup (robots (Gui.fleet_manager PanelScenario.ticked)).*1 ∧
  Forall (fun kr : Z * Robot => id kr.2 = kr.1)
    (robots (Gui.fleet_manager PanelScenario.ticked)) ∧
  robots_ok Scenario.line_graph (robots (Gui.fleet_manager PanelScenario.ticked)).
Proof.
  apply (session_states_well_formed Scenario.line_vertices Scenario.line_lanes
           Scenario.line_graph
           (PanelScenario.spawn_events ++ PanelScenario.task_events
              ++ [Gui.Update 1%float])
           PanelScenario.ticked).
  - vm_compute. reflexivity.
  - vm_compute. reflexivity.
Defined.

End PanelFacts.

(** ** Sessions at the panel *)

Module SessionFacts.

Import Traffic Bot Fleet FleetInv GuiInv SessionInv.

(** *** One event, one robot *)

Lemma evolves_refl g r : evolves g r r.
Proof. split; [done | by left]. Qed.

Lemma evolves_busy g r r' : evolves g r r' -> busy r -> busy r'.
Proof.
  unfold busy. intros [_ Hcases] Hb.
  destruct Hcases as [[Hs _] | [[_ Hb'] | [[_ Hs] | [(Hs & _) | [Hs _]]]]].
  - by rewrite Hs.
  - done.
  - by left.
  - rewrite Hs in Hb. by destruct Hb as [? | [? | ?]].
  - rewrite Hs in Hb. by destruct Hb as [? | [? | ?]].
Qed.

Lemma fleet_ok_key_below fm k r :
  fleet_ok fm -> dict_get (robots fm) k = Some r -> k < next_robot_id fm.
Proof.
  intros [Hids _ _ _] Hr. apply FleetFacts.dict_get_elem_of in Hr.
  unfold ids_below in Hids. rewrite Forall_forall in Hids. apply (Hids _ Hr).
Qed.

Lemma fleet_ok_id fm k r :
  fleet_ok fm -> dict_get (robots fm) k = Some r -> id r = k.
Proof.
  intros [_ _ Hkeyed _] Hr. apply FleetFacts.dict_get_elem_of in Hr.
  rewrite Forall_forall in Hkeyed. apply (Hkeyed _ Hr).
Qed.

(** A tick relates every robot to itself or a robot on a task to a robot on
    a task. *)
Lemma update_robots_evolves fm dt fm' :
  update_robots fm dt = Ok fm' ->
  same_fleet (fun r r' => id r' = id r ∧ (r' = r ∨ (busy r ∧ busy r')))
    (robots fm) (robots fm').
Proof.
  intros Hup.
  destruct (TickFacts.update_robots_same_fleet
              (fun r r' => id r' = id r ∧ (r' = r ∨ (busy r ∧ busy r'))) fm dt fm')
    as (Hsame & _); try done.
  - intros r. split; [done | by left].
  - intros a b c [Hid1 H1] [Hid2 H2]. split; [congruence |].
    destruct H1 as [-> | [Ha Hb]]; [done |].
    destruct H2 as [-> | [_ Hc]]; right; by split.
  - intros tm r r' tm' Hs _ Hpm.
    apply TickFacts.process_movement_fields in Hpm as (Hid & _ & _ & Hb); [| done].
    split; [done |]. right. split; [by left | done].
  - intros tm r r' Hs _ Hcw.
    apply TickFacts.check_waiting_fields in Hcw as (Hid & _ & _ & _ & Hb); [| done].
    split; [done |]. right. split; [right; by left | done].
Qed.

(** What an event does to a robot of the collection. *)
Lemma handle_evolves (gui gui' : Gui.FleetGUI) (e : Gui.event) (k : Z) (r : Robot) :
  fleet_ok (Gui.fleet_manager gui) ->
  Gui.handle gui e = Ok gui' ->
  dict_get (robots (Gui.fleet_manager gui)) k = Some r ->
  dict_get (robots (Gui.fleet_manager gui')) k = None ∨
  ∃ r', dict_get (robots (Gui.fleet_manager gui')) k = Some r' ∧
        evolves (nav_graph (Gui.fleet_manager gui)) r r'.
Proof.
  intros Hok He Hr.
  pose proof (fleet_ok_key_below _ _ _ Hok Hr) as Hbelow.
  assert (∀ fm1 : FleetManager, robots fm1 = robots (Gui.fleet_manager gui) ->
            dict_get (robots fm1) k = None ∨
            ∃ r', dict_get (robots fm1) k = Some r' ∧
                  evolves (nav_graph (Gui.fleet_manager gui)) r r') as Hkeep.
  { intros fm1 ->. right. exists r. split; [done | apply evolves_refl]. }
  destruct e as [sr sv | | | | | | | sp | dt]; simpl in He.
  - injection He as <-. simpl. by apply Hkeep.
  - injection He as <-. unfold Gui.spawn_robot.
    destruct (Gui.selected_vertex gui) as [v|]; [| by apply Hkeep]. simpl.
    unfold Fleet.spawn_robot.
    destruct ((v <? 0) || _); [by apply Hkeep |].
    destruct (request_vertex _ _ _) as [[] tm]; simpl; [| by apply Hkeep].
    rewrite PanelFacts.dict_get_set_ne by lia.
    right. exists r. split; [done | apply evolves_refl].
  - revert He. unfold Gui.assign_task.
    destruct (Gui.selected_robot gui) as [kk|]; [| intros [= <-]; by apply Hkeep].
    destruct (Gui.selected_vertex gui) as [v|]; [| intros [= <-]; by apply Hkeep].
    unfold Fleet.assign_task.
    destruct (dict_get _ kk) as [r0|] eqn:Hr0; [| intros [= <-]; by apply Hkeep].
    case_bool_decide as Hch; [intros [= <-]; by apply Hkeep |].
    destruct (Nav.find_shortest_path _ _ _ _) as [[[|x p]|]|err]; simpl;
      [intros [= <-]; by apply Hkeep | | intros [= <-]; by apply Hkeep | done].
    intros [= <-]. simpl. right.
    destruct (decide (k = kk)) as [-> | Hne].
    + rewrite FleetFacts.dict_get_set_eq. eexists. split; [done |].
      assert (r0 = r) as -> by congruence.
      split; [done |]. right. right. left. by split.
    + rewrite PanelFacts.dict_get_set_ne by done.
      exists r. split; [done | apply evolves_refl].
  - revert He. unfold Gui.charge_robot.
    destruct (Gui.selected_robot gui) as [kk|]; [| intros [= <-]; by apply Hkeep].
    destruct (dict_get _ kk) as [r0|] eqn:Hr0; [| done].
    case_bool_decide as Hch.
    + intros [= <-]. simpl. right.
      destruct (decide (k = kk)) as [-> | Hne].
      * rewrite FleetFacts.dict_get_set_eq. eexists. split; [done |].
        assert (r0 = r) as -> by congruence.
        unfold stop_charging. rewrite (bool_decide_eq_true_2 _ Hch).
        split; [done |]. do 4 right. by split.
      * rewrite PanelFacts.dict_get_set_ne by done.
        exists r. split; [done | apply evolves_refl].
    + destruct (Nav.is_charger _ _) as [[]|err] eqn:Hic; simpl;
        [| intros [= <-]; by apply Hkeep | done].
      intros [= <-]. simpl. right.
      destruct (decide (k = kk)) as [-> | Hne].
      * rewrite FleetFacts.dict_get_set_eq. eexists. split; [done |].
        assert (r0 = r) as -> by congruence.
        unfold charge. case_bool_decide as Hidle.
        -- split; [done |]. do 3 right. left. by repeat split.
        -- apply evolves_refl.
      * rewrite PanelFacts.dict_get_set_ne by done.
        exists r. split; [done | apply evolves_refl].
  - injection He as <-. simpl. right.
    pose (f := fun r : Robot => if bool_decide (status r = MOVING)
                                then set_status r WAITING else r).
    rewrite (PanelFacts.dict_get_map f), Hr. simpl. eexists. split; [done |].
    unfold f. case_bool_decide as Hm; [| apply evolves_refl].
    split; [done |]. right. left. unfold busy. simpl. auto.
  - injection He as <-. simpl. right.
    pose (f := fun r : Robot => if bool_decide (status r = WAITING)
                                then set_status r MOVING else r).
    rewrite (PanelFacts.dict_get_map f), Hr. simpl. eexists. split; [done |].
    unfold f. case_bool_decide as Hm; [| apply evolves_refl].
    split; [done |]. right. left. unfold busy. simpl. auto.
  - injection He as <-. unfold Gui.remove_robot.
    destruct (Gui.selected_robot gui) as [kk|]; [| by apply Hkeep].
    destruct (dict_get _ kk) as [r0|] eqn:Hr0; [| by apply Hkeep]. simpl.
    destruct (decide (k = kk)) as [-> | Hne].
    + left. apply PanelFacts.dict_del_get_eq. by destruct Hok.
    + right. rewrite PanelFacts.dict_del_get_ne by done.
      exists r. split; [done | apply evolves_refl].
  - injection He as <-. simpl. right.
    rewrite (PanelFacts.dict_get_map (fun r => set_speed r sp)), Hr. simpl.
    eexists. split; [done |]. split; [done |]. by left.
  - destruct (update_robots _ dt) as [fm'|err] eqn:Hup; [| done]. simpl in He.
    injection He as <-. simpl. right.
    pose proof (TickFacts.same_fleet_get _ _ _ k (update_robots_evolves _ _ _ Hup))
      as Hget.
    rewrite Hr in Hget. destruct Hget as (r' & Hr' & Hid & Hcases).
    exists r'. split; [done |]. split; [done |].
    destruct Hcases as [-> | Hb]; [by left | by right; left].
Qed.

(** What an event does to an id that no robot of the collection has. *)
Lemma handle_new (gui gui' : Gui.FleetGUI) (e : Gui.event) (k : Z) :
  fleet_ok (Gui.fleet_manager gui) ->
  Gui.handle gui e = Ok gui' ->
  dict_get (robots (Gui.fleet_manager gui)) k = None ->
  dict_get (robots (Gui.fleet_manager gui')) k = None ∨
  (k = next_robot_id (Gui.fleet_manager gui) ∧
   ∃ v, dict_get (robots (Gui.fleet_manager gui')) k = Some (Bot.init k v)).
Proof.
  intros Hok He Hr.
  destruct e as [sr sv | | | | | | | sp | dt]; simpl in He.
  - injection He as <-. simpl. by left.
  - injection He as <-. unfold Gui.spawn_robot.
    destruct (Gui.selected_vertex gui) as [v|]; [| by left]. simpl.
    unfold Fleet.spawn_robot.
    destruct ((v <? 0) || _); [by left |].
    destruct (request_vertex _ _ _) as [[] tm]; simpl; [| by left].
    destruct (decide (k = next_robot_id (Gui.fleet_manager gui))) as [-> | Hne].
    + right. split; [done |]. exists v. apply FleetFacts.dict_get_set_eq.
    + left. by rewrite PanelFacts.dict_get_set_ne.
  - revert He. unfold Gui.assign_task.
    destruct (Gui.selected_robot gui) as [kk|]; [| intros [= <-]; by left].
    destruct (Gui.selected_vertex gui) as [v|]; [| intros [= <-]; by left].
    unfold Fleet.assign_task.
    destruct (dict_get _ kk) as [r0|] eqn:Hr0; [| intros [= <-]; by left].
    case_bool_decide as Hch; [intros [= <-]; by left |].
    destruct (Nav.find_shortest_path _ _ _ _) as [[[|x p]|]|err]; simpl;
      [intros [= <-]; by left | | intros [= <-]; by left | done].
    intros [= <-]. simpl. left.
    rewrite PanelFacts.dict_get_set_ne; [done | congruence].
  - revert He. unfold Gui.charge_robot.
    destruct (Gui.selected_robot gui) as [kk|]; [| intros [= <-]; by left].
    destruct (dict_get _ kk) as [r0|] eqn:Hr0; [| done].
    case_bool_decide as Hch.
    + intros [= <-]. simpl. left.
      rewrite PanelFacts.dict_get_set_ne; [done | congruence].
    + destruct (Nav.is_charger _ _) as [[]|err]; simpl;
        [| intros [= <-]; by left | done].
      intros [= <-]. simpl. left.
      rewrite PanelFacts.dict_get_set_ne; [done | congruence].
  - injection He as <-. simpl. left.
    pose (f := fun r : Robot => if bool_decide (status r = MOVING)
                                then set_status r WAITING else r).
    by rewrite (PanelFacts.dict_get_map f), Hr.
  - injection He as <-. simpl. left.
    pose (f := fun r : Robot => if bool_decide (status r = WAITING)
                                then set_status r MOVING else r).
    by rewrite (PanelFacts.dict_get_map f), Hr.
  - injection He as <-. unfold Gui.remove_robot.
    destruct (Gui.selected_robot gui) as [kk|]; [| by left].
    destruct (dict_get _ kk) as [r0|] eqn:Hr0; [| by left]. simpl. left.
    rewrite PanelFacts.dict_del_get_ne; [done | congruence].
  - injection He as <-. simpl. left.
    by rewrite (PanelFacts.dict_get_map (fun r => set_speed r sp)), Hr.
  - destruct (update_robots _ dt) as [fm'|err] eqn:Hup; [| done]. simpl in He.
    injection He as <-. simpl. left.
    pose proof (TickFacts.same_fleet_get _ _ _ k (update_robots_evolves _ _ _ Hup))
      as Hget.
    by rewrite Hr in Hget.
Qed.

(** What an event does to the holds of an id that is no longer in use. *)
Lemma handle_same_holds (gui gui' : Gui.FleetGUI) (e : Gui.event) (b : Z) :
  fleet_ok (Gui.fleet_manager gui) ->
  Gui.handle gui e = Ok gui' ->
  dict_get (robots (Gui.fleet_manager gui)) b = None ->
  b < next_robot_id (Gui.fleet_manager gui) ->
  same_holds b (traffic_manager (Gui.fleet_manager gui))
    (traffic_manager (Gui.fleet_manager gui')).
Proof.
  intros Hok He Hr Hb.
  destruct e as [sr sv | | | | | | | sp | dt]; simpl in He.
  - injection He as <-. apply TickFacts.same_holds_refl.
  - injection He as <-. unfold Gui.spawn_robot.
    destruct (Gui.selected_vertex gui) as [v|]; [| apply TickFacts.same_holds_refl].
    simpl. unfold Fleet.spawn_robot.
    destruct ((v <? 0) || _); [apply TickFacts.same_holds_refl |].
    pose proof (TickFacts.request_vertex_same_holds b
                  (traffic_manager (Gui.fleet_manager gui))
                  (next_robot_id (Gui.fleet_manager gui)) v) as Hreq.
    destruct (request_vertex _ _ _) as [[] tm]; simpl in *; apply Hreq; lia.
  - revert He. unfold Gui.assign_task.
    destruct (Gui.selected_robot gui) as [kk|];
      [| intros [= <-]; apply TickFacts.same_holds_refl].
    destruct (Gui.selected_vertex gui) as [v|];
      [| intros [= <-]; apply TickFacts.same_holds_refl].
    unfold Fleet.assign_task.
    destruct (dict_get _ kk) as [r0|] eqn:Hr0;
      [| intros [= <-]; apply TickFacts.same_holds_refl].
    case_bool_decide as Hch; [intros [= <-]; apply TickFacts.same_holds_refl |].
    destruct (Nav.find_shortest_path _ _ _ _) as [[[|x p]|]|err]; simpl;
      [intros [= <-]; apply TickFacts.same_holds_refl |
       | intros [= <-]; apply TickFacts.same_holds_refl | done].
    intros [= <-]. simpl.
    destruct (1 <? _); [| apply TickFacts.same_holds_refl].
    apply TickFacts.release_vertex_same_holds.
    rewrite (fleet_ok_id _ _ _ Hok Hr0). congruence.
  - revert He. unfold Gui.charge_robot.
    destruct (Gui.selected_robot gui) as [kk|];
      [| intros [= <-]; apply TickFacts.same_holds_refl].
    destruct (dict_get _ kk) as [r0|] eqn:Hr0; [| done].
    case_bool_decide as Hch; [intros [= <-]; apply TickFacts.same_holds_refl |].
    destruct (Nav.is_charger _ _) as [[]|err]; simpl; [| | done];
      intros [= <-]; apply TickFacts.same_holds_refl.
  - injection He as <-. apply TickFacts.same_holds_refl.
  - injection He as <-. apply TickFacts.same_holds_refl.
  - injection He as <-. unfold Gui.remove_robot.
    destruct (Gui.selected_robot gui) as [kk|]; [| apply TickFacts.same_holds_refl].
    destruct (dict_get _ kk) as [r0|]; apply TickFacts.same_holds_refl.
  - injection He as <-. apply TickFacts.same_holds_refl.
  - revert He. unfold update_robots.
    destruct (movement_pass _ _ _ _) as [[rs1 tm1]|err] eqn:H1; [| done]. simpl.
    destruct (recovery_pass _ _ _) as [rs2|err] eqn:H2; [| done]. simpl.
    intros [= <-]. simpl.
    eapply TickFacts.movement_pass_same_holds; [| exact H1].
    destruct Hok as [_ _ Hkeyed _].
    apply PanelFacts.dict_get_None in Hr.
    rewrite Forall_forall in Hkeyed |- *. intros kr Hin Hid _.
    apply Hr. apply list_elem_of_fmap. exists kr. split; [| done].
    rewrite <- Hid. exact (Hkeyed _ Hin).
Qed.

(** *** Sessions *)

(** An id that has been in use and is not any more is never used again, and
    keeps its holds. *)
Lemma run_absent vs ls (b : Z) : ∀ (events : list Gui.event) (gui gui' : Gui.FleetGUI),
  Nav.init vs ls = Ok (nav_graph (Gui.fleet_manager gui)) ->
  fleet_ok (Gui.fleet_manager gui) ->
  dict_get (robots (Gui.fleet_manager gui)) b = None ->
  b < next_robot_id (Gui.fleet_manager gui) ->
  Gui.run gui events = Ok gui' ->
  dict_get (robots (Gui.fleet_manager gui')) b = None ∧
  same_holds b (traffic_manager (Gui.fleet_manager gui))
    (traffic_manager (Gui.fleet_manager gui')).
Proof.
  induction events as [|e events IH]; intros gui gui' Hinit Hok Hr Hb; simpl.
  - intros [= <-]. split; [done | apply TickFacts.same_holds_refl].
  - destruct (Gui.handle gui e) as [gui1|err] eqn:He; [| done]. simpl. intros Hrun.
    destruct (PanelFacts.handle_fleet_ok vs ls _ _ _ Hinit Hok He) as (Hok1 & Hg1 & Hn1).
    pose proof (handle_same_holds _ _ _ b Hok He Hr Hb) as Hh1.
    destruct (handle_new _ _ _ b Hok He Hr) as [Hr1 | [Heq _]]; [| lia].
    destruct (IH gui1 gui') as (Hr2 & Hh2); [by rewrite Hg1 | done | done | lia | done |].
    split; [done |]. by eapply TickFacts.same_holds_trans.
Qed.

Lemma run_busy vs ls (k : Z) : ∀ (events : list Gui.event) (gui gui' : Gui.FleetGUI)
    (r r' : Robot),
  Nav.init vs ls = Ok (nav_graph (Gui.fleet_manager gui)) ->
  fleet_ok (Gui.fleet_manager gui) ->
  dict_get (robots (Gui.fleet_manager gui)) k = Some r -> busy r ->
  Gui.run gui events = Ok gui' ->
  dict_get (robots (Gui.fleet_manager gui')) k = Some r' -> busy r'.
Proof.
  induction events as [|e events IH]; intros gui gui' r r' Hinit Hok Hr Hb; simpl.
  - intros [= <-] Hr'. congruence.
  - destruct (Gui.handle gui e) as [gui1|err] eqn:He; [| done]. simpl. intros Hrun Hr'.
    destruct (PanelFacts.handle_fleet_ok vs ls _ _ _ Hinit Hok He) as (Hok1 & Hg1 & Hn1).
    pose proof (fleet_ok_key_below _ _ _ Hok Hr) as Hbelow.
    destruct (handle_evolves _ _ _ k r Hok He Hr) as [Hgone | (r1 & Hr1 & Hev)].
    + destruct (run_absent vs ls k events gui1 gui') as (Hnone & _);
        [by rewrite Hg1 | done | done | lia | done |]. congruence.
    + eapply (IH gui1 gui' r1 r'); try done; [by rewrite Hg1 |].
      by eapply evolves_busy.
Qed.

Lemma run_charging vs ls : ∀ (events : list Gui.event) (gui gui' : Gui.FleetGUI),
  Nav.init vs ls = Ok (nav_graph (Gui.fleet_manager gui)) ->
  fleet_ok (Gui.fleet_manager gui) ->
  charging_on_chargers (Gui.fleet_manager gui) ->
  Gui.run gui events = Ok gui' ->
  charging_on_chargers (Gui.fleet_manager gui').
Proof.
  induction events as [|e events IH]; intros gui gui' Hinit Hok Hch; simpl.
  - by intros [= <-].
  - destruct (Gui.handle gui e) as [gui1|err] eqn:He; [| done]. simpl. intros Hrun.
    destruct (PanelFacts.handle_fleet_ok vs ls _ _ _ Hinit Hok He) as (Hok1 & Hg1 & Hn1).
    apply (IH gui1 gui'); [by rewrite Hg1 | done | | done].
    intros k r1 Hr1 Hs1. rewrite Hg1.
    destruct (dict_get (robots (Gui.fleet_manager gui)) k) as [r|] eqn:Hr.
    + destruct (handle_evolves _ _ _ k r Hok He Hr) as [Hgone | (r1' & Hr1' & Hev)];
        [congruence |].
      assert (r1' = r1) as -> by congruence.
      destruct Hev as [_ [[Hs Hc] | [[_ Hb] | [[_ Hs] | [(_ & _ & Hc & Hic) | [_ Hs]]]]]].
      * rewrite Hc. apply (Hch k r Hr). congruence.
      * unfold busy in Hb. rewrite Hs1 in Hb. by destruct Hb as [? | [? | ?]].
      * congruence.
      * by rewrite Hc.
      * congruence.
    + destruct (handle_new _ _ _ k Hok He Hr) as [Hnone | [_ [v Hv]]]; [congruence |].
      rewrite Hv in Hr1. injection Hr1 as <-. done.
Qed.

(** X19: a robot removed at the panel keeps its holds.  In a session on a
    graph built by the constructor in which no handler and no tick raises,
    once the selected robot has been removed, no later event brings its id
    back, the vertices and lanes it held stay held under its id, and no
    robot can be spawned on a vertex it held. *)
Theorem removed_robot_keeps_its_holds (vs : list Nav.Vertex) (ls : list Nav.Lane)
    (g : Nav.NavGraph) (events later : list Gui.event) (gui gui' : Gui.FleetGUI)
    (k : Z) (r : Robot) :
  Nav.init vs ls = Ok g ->
  Gui.run (Gui.init g) events = Ok gui ->
  Gui.selected_robot gui = Some k ->
  dict_get (robots (Gui.fleet_manager gui)) k = Some r ->
  Gui.run (Gui.remove_robot gui) later = Ok gui' ->
  dict_get (robots (Gui.fleet_manager gui')) k = None ∧
  same_holds k (traffic_manager (Gui.fleet_manager gui))
    (traffic_manager (Gui.fleet_manager gui')) ∧
  ∀ v, holds_vertex (traffic_manager (Gui.fleet_manager gui)) k v ->
       (spawn_robot (Gui.fleet_manager gui') v).1 = None.
Proof.
  intros Hinit Hrun Hsel Hr Hlater.
  destruct (PanelFacts.run_fleet_ok vs ls events (Gui.init g) gui) as (Hok & Hg & _);
    [done | apply PanelFacts.fleet_ok_init | done |].
  simpl in Hg.
  pose proof (fleet_ok_key_below _ _ _ Hok Hr) as Hbelow.
  assert (Gui.handle gui Gui.RemoveRobot = Ok (Gui.remove_robot gui)) as He by done.
  destruct (PanelFacts.handle_fleet_ok vs ls _ _ _ ltac:(by rewrite Hg) Hok He)
    as (Hok1 & Hg1 & Hn1).
  assert (dict_get (robots (Gui.fleet_manager (Gui.remove_robot gui))) k = None
          ∧ traffic_manager (Gui.fleet_manager (Gui.remove_robot gui))
            = traffic_manager (Gui.fleet_manager gui)) as [Hgone Htm].
  { unfold Gui.remove_robot. rewrite Hsel, Hr. simpl. split; [| done].
    apply PanelFacts.dict_del_get_eq. by destruct Hok. }
  destruct (run_absent vs ls k later (Gui.remove_robot gui) gui') as (Hnone & Hholds);
    [by rewrite Hg1, Hg | done | done | lia | done |].
  rewrite Htm in Hholds.
  destruct (PanelFacts.run_fleet_ok vs ls later (Gui.remove_robot gui) gui')
    as (_ & _ & Hn2); [by rewrite Hg1, Hg | done | done |].
  split; [done |]. split; [done |].
  intros v Hv. unfold spawn_robot.
  destruct ((v <? 0) || _); [done |].
  rewrite (TrafficFacts.request_vertex_denied _ _ k); [done | | lia].
  by apply Hholds.
Qed.

Lemma removed_robot_keeps_its_holds_witness :
  dict_get (robots (Gui.fleet_manager PanelScenario.respawned)) 0 = None ∧
  same_holds 0 (traffic_manager (Gui.fleet_manager PanelScenario.selected))
    (traffic_manager (Gui.fleet_manager PanelScenario.respawned)) ∧
  ∀ v, holds_vertex (traffic_manager (Gui.fleet_manager PanelScenario.selected)) 0 v ->
       (spawn_robot (Gui.fleet_manager PanelScenario.respawned) v).1 = None.
Proof.
  apply (removed_robot_keeps_its_holds Scenario.line_vertices Scenario.line_lanes
           Scenario.line_graph
           (PanelScenario.spawn_events ++ [Gui.Click (Some 0) (Some 0)])
           [Gui.SpawnRobot] PanelScenario.selected PanelScenario.respawned
           0 (Bot.init 0 0)).
  - vm_compute. reflexivity.
  - vm_compute. reflexivity.
  - reflexivity.
  - reflexivity.
  - vm_compute. reflexivity.
Defined.

(** X20: a task is for good.  In a session on a graph built by the
    constructor in which no handler and no tick raises, a robot that is
    moving, waiting or done with a task is, for as long as it is in the
    collection, never idle and never charging again, whatever buttons are
    pressed and however many ticks pass. *)
Theorem busy_robot_stays_busy (vs : list Nav.Vertex) (ls : list Nav.Lane)
    (g : Nav.NavGraph) (events later : list Gui.event) (gui gui' : Gui.FleetGUI)
    (k : Z) (r r' : Robot) :
  Nav.init vs ls = Ok g ->
  Gui.run (Gui.init g) events = Ok gui ->
  dict_get (robots (Gui.fleet_manager gui)) k = Some r ->
  busy r ->
  Gui.run gui later = Ok gui' ->
  dict_get (robots (Gui.fleet_manager gui')) k = Some r' ->
  status r' = MOVING ∨ status r' = WAITING ∨ status r' = TASK_COMPLETE.
Proof.
  intros Hinit Hrun Hr Hb Hlater Hr'.
  destruct (PanelFacts.run_fleet_ok vs ls events (Gui.init g) gui) as (Hok & Hg & _);
    [done | apply PanelFacts.fleet_ok_init | done |].
  simpl in Hg.
  eapply (run_busy vs ls k later gui gui' r r'); try done. by rewrite Hg.
Qed.

Lemma busy_robot_stays_busy_witness :
  status PanelScenario.ticked_robot = MOVING ∨
  status PanelScenario.ticked_robot = WAITING ∨
  status PanelScenario.ticked_robot = TASK_COMPLETE.
Proof.
  apply (busy_robot_stays_busy Scenario.line_vertices Scenario.line_lanes
           Scenario.line_graph
           (PanelScenario.spawn_events ++ PanelScenario.task_events)
           [Gui.Update 1%float; Gui.ChargeRobot]
           PanelScenario.tasked PanelScenario.tick_charged
           0 PanelScenario.tasked_robot PanelScenario.ticked_robot).
  - vm_compute. reflexivity.
  - vm_compute. reflexivity.
  - vm_compute. reflexivity.
  - left. reflexivity.
  - vm_compute. reflexivity.
  - vm_compute. reflexivity.
Defined.

(** X21: in every state a session reaches on a graph built by the
    constructor, with no handler and no tick raising, a robot that is
    charging stands on a charger vertex. *)
Theorem charging_robots_on_chargers (vs : list Nav.Vertex) (ls : list Nav.Lane)
    (g : Nav.NavGraph) (events : list Gui.event) (gui : Gui.FleetGUI)
    (k : Z) (r : Robot) :
  Nav.init vs ls = Ok g ->
  Gui.run (Gui.init g) events = Ok gui ->
  dict_get (robots (Gui.fleet_manager gui)) k = Some r ->
  status r = CHARGING ->
  Nav.is_charger g (current_vertex r) = Ok true.
Proof.
  intros Hinit Hrun Hr Hs.
  destruct (PanelFacts.run_fleet_ok vs ls events (Gui.init g) gui) as (_ & Hg & _);
    [done | apply PanelFacts.fleet_ok_init | done |].
  simpl in Hg. rewrite <- Hg.
  apply (run_charging vs ls events (Gui.init g) gui Hinit
           (PanelFacts.fleet_ok_init g)) with (k := k); done.
Qed.

Lemma charging_robots_on_chargers_witness :
  Nav.is_charger PanelScenario.depot_graph
    (current_vertex (Bot.charge (Bot.init 0 0))) = Ok true.
Proof.
  apply (charging_robots_on_chargers PanelScenario.depot_vertices
           PanelScenario.depot_lanes PanelScenario.depot_graph
           PanelScenario.charge_events PanelScenario.charging
           0 (Bot.charge (Bot.init 0 0))).
  - vm_compute. reflexivity.
  - vm_compute. reflexivity.
  - vm_compute. reflexivity.
  - reflexivity.
Defined.

End SessionFacts.

(** ** Pausing, and what the panel shows *)

Module ControlFacts.

Import Traffic Bot Fleet FleetInv GuiInv.

Lemma pause_then_resume (r : Robot) :
  (let r1 := if bool_decide (status r = MOVING) then set_status r WAITING else r in
   if bool_decide (status r1 = WAITING) then set_status r1 MOVING else r1)
  = (if bool_decide (status r = WAITING) then set_status r MOVING else r).
Proof.
  simpl. destruct r as [i c pv d p s sp pr]. simpl.
  destruct s; repeat (case_bool_decide; simpl in *); done.
Qed.

Lemma resume_then_pause (r : Robot) :
  (let r1 := if bool_decide (status r = WAITING) then set_status r MOVING else r in
   if bool_decide (status r1 = MOVING) then set_status r1 WAITING else r1)
  = (if bool_decide (status r = MOVING) then set_status r WAITING else r).
Proof.
  simpl. destruct r as [i c pv d p s sp pr]. simpl.
  destruct s; repeat (case_bool_decide; simpl in *); done.
Qed.

Lemma resume_moving (r : Robot) :
  status r ≠ WAITING ->
  (let r1 := if bool_decide (status r = MOVING) then set_status r WAITING else r in
   if bool_decide (status r1 = WAITING) then set_status r1 MOVING else r1) = r.
Proof.
  intros Hs. simpl. destruct r as [i c pv d p s sp pr]. simpl in *.
  destruct s; repeat (case_bool_decide; simpl in *); done.
Qed.

Lemma resume_pause_robots (gui : Gui.FleetGUI) :
  robots (Gui.fleet_manager (Gui.resume_all_robots (Gui.pause_all_robots gui)))
  = map (fun kr : Z * Robot =>
           (kr.1, if bool_decide (status kr.2 = WAITING)
                  then set_status kr.2 MOVING else kr.2))
      (robots (Gui.fleet_manager gui)).
Proof.
  unfold Gui.resume_all_robots, Gui.pause_all_robots. simpl. rewrite map_map.
  apply map_ext. intros [k r]. simpl. f_equal. apply pause_then_resume.
Qed.

(** X22: pausing and resuming do not undo each other.  After pause and
    resume a robot that was waiting (for traffic, before the pause) is
    moving, and every other robot is as it was; so resume after pause is
    resume alone, and likewise pause after resume is pause alone.  Resume
    after pause gives the state back exactly when no robot was waiting. *)
Theorem resume_absorbs_pause (gui : Gui.FleetGUI) :
  (∀ (i : nat) (k : Z) (r : Robot),
     robots (Gui.fleet_manager gui) !! i = Some (k, r) ->
     ∃ r',
       robots (Gui.fleet_manager (Gui.resume_all_robots (Gui.pause_all_robots gui)))
         !! i = Some (k, r') ∧
       (status r = WAITING -> r' = set_status r MOVING ∧ status r' = MOVING) ∧
       (status r ≠ WAITING -> r' = r)) ∧
  Gui.resume_all_robots (Gui.pause_all_robots gui) = Gui.resume_all_robots gui ∧
  Gui.pause_all_robots (Gui.resume_all_robots gui) = Gui.pause_all_robots gui ∧
  (Gui.resume_all_robots (Gui.pause_all_robots gui) = gui ↔
   Forall (fun kr : Z * Robot => status kr.2 ≠ WAITING)
     (robots (Gui.fleet_manager gui))).
Proof.
  assert (∀ (i : nat) (k : Z) (r : Robot),
            robots (Gui.fleet_manager gui) !! i = Some (k, r) ->
            ∃ r',
              robots (Gui.fleet_manager
                        (Gui.resume_all_robots (Gui.pause_all_robots gui)))
                !! i = Some (k, r') ∧
              (status r = WAITING -> r' = set_status r MOVING ∧ status r' = MOVING) ∧
              (status r ≠ WAITING -> r' = r)) as Hrobot.
  { intros i k r Hi. rewrite resume_pause_robots.
    eexists. split.
    - match goal with |- map ?f ?l !! _ = _ => change (map f l) with (f <$> l) end.
      rewrite list_lookup_fmap, Hi. simpl. reflexivity.
    - case_bool_decide; split; intros; try done. }
  split; [exact Hrobot |].
  split; [| split].
  - destruct gui as [[g rs n tm] sr sv].
    unfold Gui.resume_all_robots, Gui.pause_all_robots, Gui.with_fleet, Gui.with_robots.
    simpl. rewrite !map_map. simpl.
    do 2 f_equal. apply map_ext. intros [k r]. simpl. f_equal.
    apply pause_then_resume.
  - destruct gui as [[g rs n tm] sr sv].
    unfold Gui.resume_all_robots, Gui.pause_all_robots, Gui.with_fleet, Gui.with_robots.
    simpl. rewrite !map_map. simpl.
    do 2 f_equal. apply map_ext. intros [k r]. simpl. f_equal.
    apply resume_then_pause.
  - split.
    + intros Heq. apply Forall_lookup. intros i [k r] Hi Hw. simpl in Hw.
      destruct (Hrobot i k r Hi) as (r' & Hi' & Hwait & _).
      rewrite Heq, Hi in Hi'. injection Hi' as <-.
      destruct (Hwait Hw) as [_ Hm]. congruence.
    + clear Hrobot. destruct gui as [[g rs n tm] sr sv].
      unfold Gui.resume_all_robots, Gui.pause_all_robots, Gui.with_fleet,
        Gui.with_robots.
      simpl. rewrite !map_map. simpl.
      intros Hall. do 2 f_equal.
      induction Hall as [|[k r] rs' Hr _ IH]; [done |]. simpl in *.
      rewrite IH. f_equal. f_equal. by apply resume_moving.
Qed.

Lemma paused_idle (rs : list (Z * Robot)) :
  Forall (fun kr : Z * Robot => resting kr.2 ∨ status kr.2 = WAITING)
    (map (fun kr : Z * Robot =>
            (kr.1, if bool_decide (status kr.2 = MOVING)
                   then set_status kr.2 WAITING else kr.2)) rs).
Proof.
  apply Forall_forall. intros kr Hin.
  apply list_elem_of_fmap in Hin as ([k r] & -> & _). simpl.
  case_bool_decide as Hm; [by right |].
  destruct (decide (status r = WAITING)) as [Hw | Hw]; [by right |].
  left. left. by split.
Qed.

Lemma paused_on_graph g (rs : list (Z * Robot)) :
  robots_ok g rs ->
  robots_ok g (map (fun kr : Z * Robot =>
                      (kr.1, if bool_decide (status kr.2 = MOVING)
                             then set_status kr.2 WAITING else kr.2)) rs).
Proof.
  unfold robots_ok. intros Hok. apply Forall_forall. intros kr Hin.
  apply list_elem_of_fmap in Hin as ([k r] & -> & Hin). simpl.
  rewrite Forall_forall in Hok. specialize (Hok _ Hin). simpl in Hok.
  by case_bool_decide.
Qed.

(** X23: a pause lasts one tick at most for a robot with a free route.  On
    a graph built by the constructor, with every robot on the graph, the
    first tick after [pause_all_robots] returns and leaves the ledger as it
    is; a robot that was moving when the pause button was pressed, and from
    whose vertex a walk along lanes leads to its destination without
    entering a vertex listed as occupied, comes out of that tick moving
    again, on a shortest such walk computed afresh, with its progress along
    the lane kept. *)
Theorem pause_lasts_one_tick (vs : list Nav.Vertex) (ls : list Nav.Lane)
    (gui : Gui.FleetGUI) (delta_time : float) (i : nat) (k : Z) (r : Robot)
    (d : Z) (q : list Z) :
  Nav.init vs ls = Ok (nav_graph (Gui.fleet_manager gui)) ->
  robots_ok (nav_graph (Gui.fleet_manager gui)) (robots (Gui.fleet_manager gui)) ->
  robots (Gui.fleet_manager gui) !! i = Some (k, r) ->
  status r = MOVING ->
  path r ≠ [] ->
  destination_vertex r = Some d ->
  Walks.walk
    (NavSpec.open_step ls (get_occupied_vertices (traffic_manager (Gui.fleet_manager gui))))
    (current_vertex r) d q ->
  ∃ fm' p,
    update_robots (Gui.fleet_manager (Gui.pause_all_robots gui)) delta_time = Ok fm' ∧
    traffic_manager fm' = traffic_manager (Gui.fleet_manager gui) ∧
    robots fm' !! i = Some (k, set_path r p) ∧
    Walks.walk
      (NavSpec.open_step ls
         (get_occupied_vertices (traffic_manager (Gui.fleet_manager gui))))
      (current_vertex r) d p ∧
    ∀ q', Walks.walk
            (NavSpec.open_step ls
               (get_occupied_vertices (traffic_manager (Gui.fleet_manager gui))))
            (current_vertex r) d q' -> (length p ≤ length q')%nat.
Proof.
  intros Hinit Hok Hi Hs Hp Hd Hq.
  destruct (BfsFacts.init_spec _ _ _ Hinit) as (_ & _ & Hclosed & Hdom & _).
  set (fm := Gui.fleet_manager gui) in *.
  set (pause := fun kr : Z * Robot =>
                  (kr.1, if bool_decide (status kr.2 = MOVING)
                         then set_status kr.2 WAITING else kr.2)).
  destruct (FleetFacts.recovery_pass_spec (nav_graph fm) (traffic_manager fm)
              (map pause (robots fm)) Hclosed (paused_on_graph _ _ Hok))
    as (rs' & Hrec & Hspec).
  assert (map pause (robots fm) !! i = Some (k, set_status r WAITING)) as Hi'.
  { change (map pause (robots fm)) with (pause <$> robots fm).
    rewrite list_lookup_fmap, Hi. simpl. unfold pause. simpl.
    by rewrite (bool_decide_eq_true_2 _ Hs). }
  specialize (Hspec i k (set_status r WAITING) Hi').
  assert (bool_decide (status (set_status r WAITING) = WAITING)
          && negb (bool_decide (path (set_status r WAITING) = [])) = true) as Hcond.
  { apply andb_true_iff. split; [by apply bool_decide_eq_true |].
    apply negb_true_iff. by apply bool_decide_eq_false. }
  rewrite Hcond in Hspec. simpl in Hspec.
  destruct Hspec as (found & Hfound & Hrs'). rewrite Hd in Hfound.
  assert (robot_ok (nav_graph fm) r) as [Hcur _].
  { unfold robots_ok in Hok. rewrite Forall_forall in Hok.
    apply (Hok (k, r)). by eapply list_elem_of_lookup_2. }
  pose proof (SearchFacts.search_spec vs ls (nav_graph fm) (current_vertex r) d
                (Some (get_occupied_vertices (traffic_manager fm))) Hinit
                (proj1 (Hdom _) Hcur)) as Hsearch.
  rewrite Hfound in Hsearch. simpl in Hsearch.
  destruct found as [p|]; [| by destruct (Hsearch q)].
  destruct Hsearch as [Hw Hmin].
  exists {| nav_graph := nav_graph fm; robots := rs';
            next_robot_id := next_robot_id fm; traffic_manager := traffic_manager fm |}, p.
  split; [| split; [done | split; [| by split]]].
  - unfold update_robots. simpl.
    rewrite (TickFacts.movement_pass_idle _ _ _ _ (paused_idle (robots fm))). simpl.
    subst pause fm. by rewrite Hrec.
  - simpl. rewrite Hrs'. do 2 f_equal.
    pose proof (BfsFacts.walk_length_pos _ _ _ _ Hw) as Hpos.
    destruct p as [|x p']; [simpl in Hpos; lia |]. simpl.
    destruct r as [ri rc rpv rd rp rs rsp rpr]. simpl in *. by subst rs.
Qed.

Lemma pause_lasts_one_tick_witness :
  ∃ fm' p,
    update_robots (Gui.fleet_manager (Gui.pause_all_robots PanelScenario.tasked))
      1%float = Ok fm' ∧
    traffic_manager fm' = traffic_manager (Gui.fleet_manager PanelScenario.tasked) ∧
    robots fm' !! 0%nat = Some (0, set_path PanelScenario.tasked_robot p) ∧
    Walks.walk
      (NavSpec.open_step Scenario.line_lanes
         (get_occupied_vertices
            (traffic_manager (Gui.fleet_manager PanelScenario.tasked))))
      (current_vertex PanelScenario.tasked_robot) 2 p ∧
    ∀ q', Walks.walk
            (NavSpec.open_step Scenario.line_lanes
               (get_occupied_vertices
                  (traffic_manager (Gui.fleet_manager PanelScenario.tasked))))
            (current_vertex PanelScenario.tasked_robot) 2 q' ->
          (length p ≤ length q')%nat.
Proof.
  apply (pause_lasts_one_tick Scenario.line_vertices Scenario.line_lanes
           PanelScenario.tasked 1%float 0%nat 0 PanelScenario.tasked_robot 2 [0; 1; 2]).
  - vm_compute. reflexivity.
  - constructor; [| constructor]. split.
    + vm_compute. eauto.
    + repeat constructor; vm_compute; eauto.
  - vm_compute. reflexivity.
  - vm_compute. reflexivity.
  - vm_compute. discriminate.
  - vm_compute. reflexivity.
  - change [0; 1; 2] with (([0] ++ [1]) ++ [2]).
    apply Walks.walk_step with (b := 1).
    + apply Walks.walk_step with (b := 0); [apply Walks.walk_start |].
      split; [exists None; left; set_solver | vm_compute; set_solver].
    + split; [exists None; left; set_solver | vm_compute; set_solver].
Defined.

End ControlFacts.

Module ViewFacts.

Import Traffic Bot Fleet FleetInv GuiInv.

Lemma generate_color_index (robot_id : Z) :
  ∃ j : nat, (j < 10)%nat ∧ robot_id `mod` 10 = Z.of_nat j ∧
    RobotView._generate_color robot_id
    = match RobotView.colors !! j with
      | Some c => Ok c
      | None => Raise IndexError
      end.
Proof.
  pose proof (Z.mod_pos_bound robot_id 10 ltac:(lia)) as Hm.
  exists (Z.to_nat (robot_id `mod` 10)). split; [lia |]. split; [lia |].
  unfold RobotView._generate_color, py_index.
  change (Z.of_nat (length RobotView.colors)) with 10.
  destruct (Z.ltb_spec (robot_id `mod` 10) 0) as [? | _]; [lia |].
  destruct (Z.leb_spec 0 (robot_id `mod` 10)) as [_ | ?]; [| lia].
  destruct (Z.ltb_spec (robot_id `mod` 10) 10) as [_ | ?]; [| lia].
  done.
Qed.

Lemma generate_color_returns (robot_id : Z) :
  ∃ c, RobotView._generate_color robot_id = Ok c.
Proof.
  destruct (generate_color_index robot_id) as (j & Hj & _ & ->).
  do 10 (destruct j as [|j]; [simpl; eauto |]). lia.
Qed.

(** X24: the colour of a robot is a function of its id modulo 10.
    [_generate_color] raises for no id, negative ones included, and gives
    two ids the same colour exactly when they differ by a multiple of 10:
    the first ten robots have colours of their own, the eleventh has the
    colour of the first. *)
Theorem colour_repeats_every_ten (a b : Z) :
  (∃ c, RobotView._generate_color a = Ok c) ∧
  (RobotView._generate_color a = RobotView._generate_color b
   ↔ a `mod` 10 = b `mod` 10).
Proof.
  split; [apply generate_color_returns |].
  destruct (generate_color_index a) as (i & Hi & Ha & ->).
  destruct (generate_color_index b) as (j & Hj & Hb & ->).
  rewrite Ha, Hb. clear Ha Hb.
  do 10 (destruct i as [|i]; [
    do 10 (destruct j as [|j]; [vm_compute; split; congruence |]); lia |]).
  lia.
Qed.

Lemma get_position_returns vs ls g r :
  Nav.init vs ls = Ok g -> robot_ok g r ->
  ∃ pos, RobotView.get_position g r = Ok pos.
Proof.
  intros Hinit [Hcur Hpath]. unfold RobotView.get_position.
  destruct (TickFacts.vertex_position_on_graph vs ls g _ Hinit Hcur) as [pos Hpos].
  rewrite Hpos. destruct (path r) as [|next rest].
  - rewrite (bool_decide_eq_true_2 ([] = [])) by done. simpl. eauto.
  - destruct (_ || _); [eauto |]. simpl.
    inversion Hpath as [|? ? Hnext _]; subst.
    destruct (TickFacts.vertex_position_on_graph vs ls g _ Hinit Hnext) as [pos' ->].
    simpl. eauto.
Qed.

(** X25: what the panel reads to draw a robot is there in every state a
    session reaches on a graph built by the constructor, with no handler and
    no tick raising: for an id in use
    [get_robot_position] and [get_robot_color] return a position and a
    colour and raise nothing; for any other id both return [None]. *)
Theorem views_never_raise (vs : list Nav.Vertex) (ls : list Nav.Lane)
    (g : Nav.NavGraph) (events : list Gui.event) (gui : Gui.FleetGUI)
    (robot_id : Z) :
  Nav.init vs ls = Ok g ->
  Gui.run (Gui.init g) events = Ok gui ->
  match dict_get (robots (Gui.fleet_manager gui)) robot_id with
  | Some _ =>
      ∃ pos color,
        FleetView.get_robot_position (Gui.fleet_manager gui) robot_id = Ok (Some pos) ∧
        FleetView.get_robot_color (Gui.fleet_manager gui) robot_id = Ok (Some color)
  | None =>
      FleetView.get_robot_position (Gui.fleet_manager gui) robot_id = Ok None ∧
      FleetView.get_robot_color (Gui.fleet_manager gui) robot_id = Ok None
  end.
Proof.
  intros Hinit Hrun.
  destruct (PanelFacts.run_fleet_ok vs ls events (Gui.init g) gui)
    as ([_ _ _ Hon] & Hg & _); [done | apply PanelFacts.fleet_ok_init | done |].
  simpl in Hg. unfold FleetView.get_robot_position, FleetView.get_robot_color.
  destruct (dict_get _ robot_id) as [r|] eqn:Hr; [| done].
  assert (robot_ok (nav_graph (Gui.fleet_manager gui)) r) as Hrok.
  { unfold robots_ok in Hon. rewrite Forall_forall in Hon.
    apply (Hon _ (FleetFacts.dict_get_elem_of _ _ _ Hr)). }
  assert (Nav.init vs ls = Ok (nav_graph (Gui.fleet_manager gui))) as Hinit'
    by (by rewrite Hg).
  destruct (get_position_returns vs ls _ r Hinit' Hrok) as [pos ->].
  destruct (generate_color_returns (id r)) as [c ->].
  simpl. eauto.
Qed.

Lemma views_never_raise_witness :
  match dict_get (robots (Gui.fleet_manager PanelScenario.ticked)) 0 with
  | Some _ =>
      ∃ pos color,
        FleetView.get_robot_position (Gui.fleet_manager PanelScenario.ticked) 0
        = Ok (Some pos) ∧
        FleetView.get_robot_color (Gui.fleet_manager PanelScenario.ticked) 0
        = Ok (Some color)
  | None =>
      FleetView.get_robot_position (Gui.fleet_manager PanelScenario.ticked) 0 = Ok None ∧
      FleetView.get_robot_color (Gui.fleet_manager PanelScenario.ticked) 0 = Ok None
  end.
Proof.
  apply (views_never_raise Scenario.line_vertices Scenario.line_lanes
           Scenario.line_graph
           (PanelScenario.spawn_events ++ PanelScenario.task_events
              ++ [Gui.Update 1%float])
           PanelScenario.ticked 0).
  - vm_compute. reflexivity.
  - vm_compute. reflexivity.
Defined.

End ViewFacts.

(** ** The two passes of a tick, with several robots *)

Module PassFacts.

Import Traffic Bot Fleet FleetInv GuiInv.

Lemma movement_pass_app g dt : ∀ l1 l2 tm rs tm',
  movement_pass g dt (l1 ++ l2) tm = Ok (rs, tm') ->
  ∃ l1' tm1 l2',
    movement_pass g dt l1 tm = Ok (l1', tm1) ∧
    movement_pass g dt l2 tm1 = Ok (l2', tm') ∧
    rs = l1' ++ l2' ∧ length l1' = length l1.
Proof.
  induction l1 as [|[k r] l1 IH]; intros l2 tm rs tm'; simpl.
  - intros H. by exists [], tm, rs.
  - destruct (bool_decide (status r = MOVING) && negb (bool_decide (path r = []))).
    + destruct (_process_movement g tm r dt) as [[r1 tm1]|e]; [| done]. simpl.
      destruct (movement_pass g dt (l1 ++ l2) tm1) as [[rest tm2]|e] eqn:Hrest;
        [| done].
      simpl. intros [= <- <-].
      destruct (IH _ _ _ _ Hrest) as (l1' & tma & l2' & Hl1 & H2 & -> & Hlen).
      exists ((k, r1) :: l1'), tma, l2'. rewrite Hl1. simpl.
      split; [done |]. split; [done |]. split; [done | by rewrite Hlen].
    + simpl.
      destruct (movement_pass g dt (l1 ++ l2) tm) as [[rest tm2]|e] eqn:Hrest;
        [| done].
      simpl. intros [= <- <-].
      destruct (IH _ _ _ _ Hrest) as (l1' & tma & l2' & Hl1 & H2 & -> & Hlen).
      exists ((k, r) :: l1'), tma, l2'. rewrite Hl1. simpl.
      split; [done |]. split; [done |]. split; [done | by rewrite Hlen].
Qed.

(** The recovery pass keeps every robot in its place and on its vertex, and
    leaves alone the robots that are not waiting. *)
Lemma recovery_pass_rest g tm rs rs' (i : nat) k r :
  recovery_pass g tm rs = Ok rs' -> rs !! i = Some (k, r) ->
  ∃ r', rs' !! i = Some (k, r') ∧ current_vertex r' = current_vertex r ∧
        (status r ≠ WAITING -> r' = r).
Proof.
  intros Hrec Hi.
  pose proof (TickFacts.recovery_pass_same_fleet
                (fun a b => current_vertex b = current_vertex a ∧
                            (status a ≠ WAITING -> b = a)) g tm) as Hsame.
  specialize (Hsame ltac:(done)).
  assert (same_fleet (fun a b => current_vertex b = current_vertex a ∧
                                 (status a ≠ WAITING -> b = a)) rs rs') as HF.
  { apply Hsame; [| done]. intros a b Hs _ Hcw.
    apply TickFacts.check_waiting_fields in Hcw as (_ & _ & _ & Hc & _); [| done].
    split; [done | congruence]. }
  destruct (Forall2_lookup_l _ _ _ _ _ HF Hi) as ([k' r'] & Hi' & Hk & Hc & Hr).
  simpl in *. subst k'. eauto.
Qed.

(** C9, as amended: in a tick on a graph built by [Nav.init], with every
    robot on a vertex of the graph, whose movement pass raises nothing,
    every robot that is [WAITING] with a non-empty path when the movement
    pass ends (those the pass has just blocked among them) is handled by the
    recovery pass of the same tick.  The tick returns with the ledger the
    movement pass left.  If a walk along lanes leads from the robot's vertex
    to its stored destination without entering a vertex held in that
    ledger, the robot's path is replaced by a shortest such walk and its
    status is [MOVING]; if there is none, the robot is unchanged.
    Nothing in the state counts retries, so this holds at every tick. *)
Theorem same_tick_recovery (vs : list Nav.Vertex) (ls : list Nav.Lane)
    (fm : FleetManager) (delta_time : float)
    (rs1 : list (Z * Robot)) (tm1 : TrafficManager)
    (i : nat) (k : Z) (r : Robot) (d : Z) :
  Nav.init vs ls = Ok (nav_graph fm) ->
  robots_ok (nav_graph fm) (robots fm) ->
  movement_pass (nav_graph fm) delta_time (robots fm) (traffic_manager fm)
    = Ok (rs1, tm1) ->
  rs1 !! i = Some (k, r) ->
  status r = WAITING ->
  path r ≠ [] ->
  destination_vertex r = Some d ->
  ∃ fm',
    update_robots fm delta_time = Ok fm' ∧
    traffic_manager fm' = tm1 ∧
    ((∃ p,
        Walks.walk (PassSpec.unheld_step ls tm1)
          (current_vertex r) d p ∧
        (∀ q, Walks.walk (PassSpec.unheld_step ls tm1)
                (current_vertex r) d q -> (length p ≤ length q)%nat) ∧
        robots fm' !! i = Some (k, set_status (set_path r p) MOVING)) ∨
     ((∀ q, ¬ Walks.walk (PassSpec.unheld_step ls tm1)
               (current_vertex r) d q) ∧
      robots fm' !! i = Some (k, r))).
Proof.
  intros Hinit Hok Hpass Hi Hs Hp Hd.
  destruct (BfsFacts.init_spec _ _ _ Hinit) as (_ & _ & Hclosed & Hdom & _).
  pose proof (FleetFacts.movement_pass_ok _ _ _ _ _ _ Hok Hpass) as Hok1.
  destruct (FleetFacts.recovery_pass_spec (nav_graph fm) tm1 rs1 Hclosed Hok1)
    as (rs2 & Hrec & Hrs2).
  specialize (Hrs2 i k r Hi).
  assert (bool_decide (status r = WAITING) && negb (bool_decide (path r = [])) = true)
    as Hcond.
  { apply andb_true_iff. split; [by apply bool_decide_eq_true |].
    apply negb_true_iff. by apply bool_decide_eq_false. }
  rewrite Hcond in Hrs2. destruct Hrs2 as (found & Hfound & Hlook).
  rewrite Hd in Hfound.
  assert (robot_ok (nav_graph fm) r) as [Hcur _].
  { unfold robots_ok in Hok1. rewrite Forall_forall in Hok1.
    apply (Hok1 (k, r)). by eapply list_elem_of_lookup_2. }
  pose proof (SearchFacts.search_spec vs ls (nav_graph fm) (current_vertex r) d
                (Some (get_occupied_vertices tm1)) Hinit (proj1 (Hdom _) Hcur))
    as Hsearch.
  rewrite Hfound in Hsearch. simpl in Hsearch.
  assert (∀ u v, NavSpec.open_step ls (get_occupied_vertices tm1) u v
                 ↔ PassSpec.unheld_step ls tm1 u v) as Hstep.
  { intros u v. unfold NavSpec.open_step, PassSpec.unheld_step.
    rewrite FleetFacts.occupied_vertices_spec, <- eq_None_not_Some. done. }
  eexists. split.
  { unfold update_robots. rewrite Hpass. simpl. rewrite Hrec. simpl. reflexivity. }
  simpl. split; [done |].
  destruct found as [p|].
  2:{ right. split; [| done]. intros q Hq. apply (Hsearch q).
      eapply BfsFacts.walk_ext; [| exact Hq]. intros u v. apply Hstep. }
  left. destruct Hsearch as [Hw Hmin]. exists p.
  split; [eapply BfsFacts.walk_ext; [| exact Hw]; intros u v; apply Hstep |].
  split.
  { intros q Hq. apply Hmin. eapply BfsFacts.walk_ext; [| exact Hq].
    intros u v. apply Hstep. }
  rewrite Hlook. do 2 f_equal.
  pose proof (BfsFacts.walk_length_pos _ _ _ _ Hw) as Hpos.
  destruct p as [|x p']; [simpl in Hpos; lia | done].
Qed.

Lemma same_tick_recovery_witness :
  (∃ fm',
    update_robots PassScenario.detour_start 1%float = Ok fm' ∧
    traffic_manager fm' = PassScenario.detour_passed.2 ∧
    ((∃ p,
        Walks.walk
          (PassSpec.unheld_step PassScenario.square_lanes
             PassScenario.detour_passed.2)
          (current_vertex
             (set_status (PassScenario.robot_in PassScenario.detour_start 0) WAITING))
          2 p ∧
        (∀ q, Walks.walk
                (PassSpec.unheld_step PassScenario.square_lanes
                   PassScenario.detour_passed.2)
                (current_vertex
                   (set_status (PassScenario.robot_in PassScenario.detour_start 0)
                      WAITING))
                2 q -> (length p ≤ length q)%nat) ∧
        robots fm' !! 0%nat
        = Some (0, set_status
                     (set_path
                        (set_status (PassScenario.robot_in PassScenario.detour_start 0)
                           WAITING) p) MOVING)) ∨
     ((∀ q, ¬ Walks.walk
               (PassSpec.unheld_step PassScenario.square_lanes
                  PassScenario.detour_passed.2)
               (current_vertex
                  (set_status (PassScenario.robot_in PassScenario.detour_start 0)
                     WAITING))
               2 q) ∧
      robots fm' !! 0%nat
      = Some (0, set_status (PassScenario.robot_in PassScenario.detour_start 0)
                   WAITING)))) ∧
  (path <$> dict_get (robots (Scenario.tick PassScenario.detour_start)) 0)
  = Some [0; 3; 2] ∧
  get_robot_status (Scenario.tick PassScenario.detour_start) 0 = Some MOVING.
Proof.
  split; [| split; vm_compute; reflexivity].
  apply (same_tick_recovery PassScenario.square_vertices PassScenario.square_lanes
           PassScenario.detour_start 1%float
           PassScenario.detour_passed.1 PassScenario.detour_passed.2 0%nat 0
           (set_status (PassScenario.robot_in PassScenario.detour_start 0) WAITING) 2).
  - vm_compute. reflexivity.
  - repeat constructor; vm_compute; eauto.
  - vm_compute. reflexivity.
  - vm_compute. reflexivity.
  - reflexivity.
  - vm_compute. discriminate.
  - vm_compute. reflexivity.
Defined.

(** C9, as stated, fails when the movement pass raises after it has set a
    robot to [WAITING].  On the square, robot 0 is on its way to vertex 2
    through vertex 1, which robot 1 holds; robot 1 has a task of its own, to
    the vertex it stands on.  In a tick with a negative [delta_time] the
    movement pass blocks robot 0 and sets it to [WAITING], then raises
    [ZeroDivisionError] on robot 1; the tick ends there, and the recovery
    pass is not run although the search finds the free route 0, 3, 2. *)
Lemma same_tick_recovery_counterexample :
  robots PassScenario.stall_start
  = [ (0, PassScenario.robot_in PassScenario.stall_start 0);
      (1, PassScenario.robot_in PassScenario.stall_start 1) ] ∧
  status (PassScenario.robot_in PassScenario.stall_start 0) = MOVING ∧
  current_vertex (PassScenario.robot_in PassScenario.stall_start 0) = 0 ∧
  path (PassScenario.robot_in PassScenario.stall_start 0) = [1; 2] ∧
  destination_vertex (PassScenario.robot_in PassScenario.stall_start 0) = Some 2 ∧
  _process_movement PassScenario.square_graph
    (traffic_manager PassScenario.stall_start)
    (PassScenario.robot_in PassScenario.stall_start 0) (-1)%float
  = Ok (set_status (PassScenario.robot_in PassScenario.stall_start 0) WAITING,
        traffic_manager PassScenario.stall_start) ∧
  _process_movement PassScenario.square_graph
    (traffic_manager PassScenario.stall_start)
    (PassScenario.robot_in PassScenario.stall_start 1) (-1)%float
  = Raise ZeroDivisionError ∧
  update_robots PassScenario.stall_start (-1)%float = Raise ZeroDivisionError ∧
  Nav.find_shortest_path PassScenario.square_graph 0 (Some 2)
    (Some (get_occupied_vertices (traffic_manager PassScenario.stall_start)))
  = Ok (Some [0; 3; 2]).
Proof. repeat split; vm_compute; reflexivity. Qed.

(** C4, as amended: when the movement pass of a tick brings a moving robot
    whose path is its last vertex to that vertex, the robot is
    [TASK_COMPLETE] with an empty path when the tick returns, and it does
    not hold the vertex: not after its own step, and not when the tick
    returns.  Right after the robot's step the vertex is not among the
    occupied vertices if the robot moved to it from a different vertex; it
    is occupied then only if the robot was standing on it already and
    another robot held it.  When the tick returns the vertex is among the
    occupied vertices only under another robot's id: that of a robot which
    held it while the first stood on it, or that of a robot on the move
    which the same pass handled later.  The robots handled later are
    assumed not to share the robot's id. *)
Theorem completion_releases (fm fm' : FleetManager) (delta_time : float)
    (before after : list (Z * Robot)) (k k' : Z) (robot robot' : Robot)
    (next : Z) :
  robots fm = before ++ (k, robot) :: after ->
  Forall (fun kr : Z * Robot => id kr.2 ≠ id robot) after ->
  status robot = MOVING ->
  path robot = [next] ->
  update_robots fm delta_time = Ok fm' ->
  robots fm' !! length before = Some (k', robot') ->
  current_vertex robot' = next ->
  k' = k ∧
  status robot' = TASK_COMPLETE ∧
  path robot' = [] ∧
  id robot' = id robot ∧
  ¬ holds_vertex (traffic_manager fm') (id robot) next ∧
  (∃ before' tm_a tm_b after',
     movement_pass (nav_graph fm) delta_time before (traffic_manager fm)
       = Ok (before', tm_a) ∧
     _process_movement (nav_graph fm) tm_a robot delta_time = Ok (robot', tm_b) ∧
     movement_pass (nav_graph fm) delta_time after tm_b
       = Ok (after', traffic_manager fm') ∧
     ¬ holds_vertex tm_b (id robot) next ∧
     (next ≠ current_vertex robot -> next ∉ get_occupied_vertices tm_b) ∧
     (∀ h, holds_vertex tm_b h next ->
           h ≠ id robot ∧ holds_vertex tm_a h next ∧ next = current_vertex robot) ∧
     (next ∈ get_occupied_vertices (traffic_manager fm') ->
      ∃ h, holds_vertex (traffic_manager fm') h next ∧ h ≠ id robot ∧
           ((holds_vertex tm_a h next ∧ next = current_vertex robot) ∨
            Exists (fun kr : Z * Robot => id kr.2 = h ∧ on_the_move kr.2) after))).
Proof.
  intros Hrobots Hids Hs Hp Hup Hlook Hreached.
  unfold update_robots in Hup.
  destruct (movement_pass _ _ _ _) as [[rs1 tm1]|e] eqn:H1; [| done].
  simpl in Hup.
  destruct (recovery_pass _ _ _) as [rs2|e] eqn:H2; [| done].
  simpl in Hup. injection Hup as <-. simpl in *.
  rewrite Hrobots in H1.
  apply movement_pass_app in H1 as (before' & tm_a & rest & Hbefore & Hrest & -> & Hlen).
  simpl in Hrest.
  rewrite (bool_decide_eq_true_2 _ Hs) in Hrest.
  assert (path robot ≠ []) as Hne by (by rewrite Hp).
  rewrite (bool_decide_eq_false_2 _ Hne) in Hrest. simpl in Hrest.
  destruct (_process_movement (nav_graph fm) tm_a robot delta_time)
    as [[r1 tm_b]|e] eqn:Hstep; [| done].
  simpl in Hrest.
  destruct (movement_pass (nav_graph fm) delta_time after tm_b)
    as [[after' tm_c]|e] eqn:Hafter; [| done].
  simpl in Hrest. injection Hrest as <- <-.
  destruct (recovery_pass_rest _ _ _ _ (length before) k r1 H2) as (r1' & Hr1' & Hc & Hsame).
  { by apply list_lookup_middle. }
  rewrite Hlook in Hr1'. injection Hr1' as -> ->.
  rewrite Hc in Hreached.
  destruct (FleetFacts.process_movement_completion _ _ _ _ _ _ _ Hs Hp Hstep Hreached)
    as (Hst & Hpath & Hid & Hnot & Hfree & Hheld).
  assert (r1' = r1) as ->.
  { apply Hsame. by rewrite Hst. }
  rewrite Hid in Hnot.
  assert (same_holds (id robot) tm_b tm_c) as [Hkeep _].
  { eapply TickFacts.movement_pass_same_holds; [| exact Hafter].
    eapply Forall_impl; [exact Hids |]. intros kr Hkr Heq. done. }
  assert (¬ holds_vertex tm_c (id robot) next) as Hnot_c.
  { unfold holds_vertex in *. by rewrite Hkeep. }
  split; [done |]. split; [done |]. split; [done |]. split; [done |].
  split; [done |].
  exists before', tm_a, tm_b, after'.
  split; [done |]. split; [done |]. split; [done |]. split; [done |].
  split; [done |]. split; [done |].
  intros Hin. apply FleetFacts.occupied_vertices_spec in Hin as [h Hh].
  exists h. split; [done |].
  assert (h ≠ id robot) as Hh_ne by (intros ->; by apply Hnot_c).
  split; [done |].
  destruct (decide (Exists (fun kr : Z * Robot =>
                              id kr.2 = h ∧ status kr.2 = MOVING ∧ path kr.2 ≠ [])
                      after)) as [Hex | Hno].
  - right. eapply Exists_impl; [exact Hex |]. intros kr (? & ? & ?). by repeat split.
  - left. apply not_Exists_Forall in Hno; [| apply _].
    assert (same_holds h tm_b tm_c) as [Hkeep_h _].
    { eapply TickFacts.movement_pass_same_holds; [| exact Hafter].
      eapply Forall_impl; [exact Hno |]. intros kr Hkr Heq [Hm Hq].
      apply Hkr. by repeat split. }
    apply Hkeep_h in Hh. destruct (Hheld h Hh) as (_ & Ha & Hstay). by split.
Qed.

Lemma completion_releases_witness :
  (0 = 0 ∧
   status (PassScenario.robot_in PassScenario.meeting_end 0) = TASK_COMPLETE ∧
   path (PassScenario.robot_in PassScenario.meeting_end 0) = [] ∧
   id (PassScenario.robot_in PassScenario.meeting_end 0)
   = id (PassScenario.robot_in PassScenario.meeting_start 0) ∧
   ¬ holds_vertex (traffic_manager PassScenario.meeting_end)
       (id (PassScenario.robot_in PassScenario.meeting_start 0)) 2 ∧
   (∃ before' tm_a tm_b after',
      movement_pass (nav_graph PassScenario.meeting_start) 1%float []
        (traffic_manager PassScenario.meeting_start) = Ok (before', tm_a) ∧
      _process_movement (nav_graph PassScenario.meeting_start) tm_a
        (PassScenario.robot_in PassScenario.meeting_start 0) 1%float
      = Ok (PassScenario.robot_in PassScenario.meeting_end 0, tm_b) ∧
      movement_pass (nav_graph PassScenario.meeting_start) 1%float
        [(1, PassScenario.robot_in PassScenario.meeting_start 1)] tm_b
      = Ok (after', traffic_manager PassScenario.meeting_end) ∧
      ¬ holds_vertex tm_b (id (PassScenario.robot_in PassScenario.meeting_start 0)) 2 ∧
      (2 ≠ current_vertex (PassScenario.robot_in PassScenario.meeting_start 0) ->
       2 ∉ get_occupied_vertices tm_b) ∧
      (∀ h, holds_vertex tm_b h 2 ->
            h ≠ id (PassScenario.robot_in PassScenario.meeting_start 0) ∧
            holds_vertex tm_a h 2 ∧
            2 = current_vertex (PassScenario.robot_in PassScenario.meeting_start 0)) ∧
      (2 ∈ get_occupied_vertices (traffic_manager PassScenario.meeting_end) ->
       ∃ h, holds_vertex (traffic_manager PassScenario.meeting_end) h 2 ∧
            h ≠ id (PassScenario.robot_in PassScenario.meeting_start 0) ∧
            ((holds_vertex tm_a h 2 ∧
              2 = current_vertex (PassScenario.robot_in PassScenario.meeting_start 0)) ∨
             Exists (fun kr : Z * Robot => id kr.2 = h ∧ on_the_move kr.2)
               [(1, PassScenario.robot_in PassScenario.meeting_start 1)])))) ∧
  get_occupied_vertices (traffic_manager PassScenario.meeting_end) = [2] ∧
  holds_vertex (traffic_manager PassScenario.meeting_end) 1 2.
Proof.
  split; [| split; vm_compute; reflexivity].
  apply (completion_releases PassScenario.meeting_start PassScenario.meeting_end
           1%float [] [(1, PassScenario.robot_in PassScenario.meeting_start 1)]
           0 0
           (PassScenario.robot_in PassScenario.meeting_start 0)
           (PassScenario.robot_in PassScenario.meeting_end 0) 2).
  - vm_compute. reflexivity.
  - constructor; [| constructor]. vm_compute. discriminate.
  - vm_compute. reflexivity.
  - vm_compute. reflexivity.
  - vm_compute. reflexivity.
  - vm_compute. reflexivity.
  - vm_compute. reflexivity.
Defined.

End PassFacts.
